(** * EditorConfig core: glob matcher ([ec_glob.c]) and INI parser ([ini.c])

    A shallow embedding of the two engines of [src/lib]:
    - [ec_glob]: the translation of a glob pattern into a PCRE2 expression,
      the pattern cache, and the numeric-range check run after a match;
    - [ini_parse_file] / [ini_parse]: the line-oriented configuration parser
      and the file content cache in front of it.

    C strings are lists of characters ([list ascii]); the terminating NUL is
    the end of the list.  Pointers into a string are the suffix they point
    at, or an offset from a known start. *)

From Stdlib Require Import List Ascii String ZArith Lia Bool Arith.
From stdpp Require Import gmap strings.
Import ListNotations.

Local Open Scope list_scope.

(** A C string literal. *)
Definition cs (s : string) : list ascii := list_ascii_of_string s.

(* ===================================================================== *)
(** ** <ctype.h> and <string.h> / <stdlib.h> helpers, "C" locale *)
(* ===================================================================== *)

Module C.

Definition code (c : ascii) : nat := nat_of_ascii c.

(** [isspace]: space, \t, \n, \v, \f, \r. *)
Definition isspace (c : ascii) : bool :=
  ((code c =? 32) || ((9 <=? code c) && (code c <=? 13)))%nat.

Definition isdigit (c : ascii) : bool :=
  ((48 <=? code c) && (code c <=? 57))%nat.

Definition isalpha (c : ascii) : bool :=
  (((65 <=? code c) && (code c <=? 90)) || ((97 <=? code c) && (code c <=? 122)))%nat.

Definition isalnum (c : ascii) : bool := isalpha c || isdigit c.

Definition newline : ascii := ascii_of_nat 10.

(** [strchr s c]: offset of the first [c] in [s], if any. *)
Fixpoint strchr (s : list ascii) (c : ascii) : option nat :=
  match s with
  | [] => None
  | x :: s' => if Ascii.eqb x c then Some 0 else option_map S (strchr s' c)
  end.

Fixpoint starts_with (p s : list ascii) : bool :=
  match p, s with
  | [], _ => true
  | a :: p', b :: s' => Ascii.eqb a b && starts_with p' s'
  | _ :: _, [] => false
  end.

(** [strstr s p]: the suffix of [s] at the first occurrence of [p]. *)
Fixpoint strstr (s p : list ascii) : option (list ascii) :=
  if starts_with p s then Some s
  else match s with
       | [] => None
       | _ :: s' => strstr s' p
       end.

Definition digit_val (c : ascii) : Z := Z.of_nat (code c - 48).

Fixpoint atoi_digits (acc : Z) (s : list ascii) : Z :=
  match s with
  | c :: s' => if isdigit c then atoi_digits (10 * acc + digit_val c)%Z s' else acc
  | [] => acc
  end.

Fixpoint skip_space (s : list ascii) : list ascii :=
  match s with
  | c :: s' => if isspace c then skip_space s' else s
  | [] => []
  end.

End C.

(** [int] has 32 bits.  A value is brought into its range by keeping what
    32 bits hold of it in two's complement. *)
Definition INT_MIN : Z := (-2147483648)%Z.
Definition INT_MAX : Z := 2147483647%Z.

Definition to_int (v : Z) : Z := ((v + 2 ^ 31) mod 2 ^ 32 - 2 ^ 31)%Z.

(** The number a text starts with, read as [atoi] reads it: leading white
    space, an optional sign, then the longest run of decimal digits, 0 when
    there is none. *)
Definition numeral_value (s : list ascii) : Z :=
  match C.skip_space s with
  | "-"%char :: s' => (- C.atoi_digits 0 s')%Z
  | "+"%char :: s' => C.atoi_digits 0 s'
  | s' => C.atoi_digits 0 s'
  end.

(** Modelled from the spec: [ec_atoi] is declared in [util.h], which is not
    among the sources.  The spec says the captured text and the bounds are
    "parsed as signed integers"; this is the [atoi] reading.  The result is
    stored in an [int] ([int num], and the fields of [struct int_pair]): it
    is the number of the text when that fits an [int]; a number that does
    not fit is kept modulo 2^32, as a conversion that computes in an [int]
    leaves it on a two's complement machine.  What the helper does with
    such a number is not recorded anywhere, and the statements below that
    speak of numbers are about numerals that fit. *)
Definition ec_atoi (s : list ascii) : Z := to_int (numeral_value s).

(* ===================================================================== *)
(** ** The PCRE2 engine, as far as the glob translation uses it *)
(* ===================================================================== *)

(** PCRE2 is an external library.  The model covers the part of its pattern
    language that the translation of [ec_glob] produces on its own, with the
    library's default options (the code passes option word 0 everywhere):
    no DOTALL, so [.] does not match a newline; no DOLLAR_ENDONLY, so [$]
    also matches just before a newline that ends the subject; no MULTILINE,
    so [^] matches at offset 0 only.  An expression that uses anything else
    is answered [Unmodelled], never guessed. *)

Inductive outcome (A : Type) : Type :=
| Ok (a : A)
| Rejected          (* pcre2_compile returns NULL *)
| Unmodelled.       (* outside the modelled fragment *)
Arguments Ok {A} a.
Arguments Rejected {A}.
Arguments Unmodelled {A}.

Definition obind {A B} (x : outcome A) (f : A -> outcome B) : outcome B :=
  match x with
  | Ok a => f a
  | Rejected => Rejected
  | Unmodelled => Unmodelled
  end.

Module Pcre.

Inductive citem : Type :=
| CChar (c : ascii)
| CRange (lo hi : ascii)
| CDigit.

Inductive regex : Type :=
| RChar (c : ascii)
| RAny
| RClass (neg : bool) (items : list citem)
| RBol
| REol
| REmpty
| RSeq (r1 r2 : regex)
| RAlt (r1 r2 : regex)
| RGroup (cap : option nat) (r : regex)
| RRepeat (lo : nat) (hi : option nat) (r : regex).

Notation "x =c y" := (Ascii.eqb x y%char) (at level 70, no associativity).

(** *** Compilation: text of the expression to syntax tree *)

(** Decimal number at the head of [s]: value, number of digits, rest. *)
Fixpoint read_number (acc n : nat) (s : list ascii) : nat * nat * list ascii :=
  match s with
  | c :: s' =>
      if C.isdigit c then read_number (10 * acc + (C.code c - 48)) (S n) s'
      else (acc, n, s)
  | [] => (acc, n, s)
  end.

Fixpoint skip_blank (s : list ascii) : list ascii :=
  match s with
  | c :: s' => if (c =c " ") || (C.code c =? 9)%nat then skip_blank s' else s
  | [] => []
  end.

(** The text after an opening brace, read as a repeat count. *)
Inductive brace_kind : Type :=
| BQuant (lo : nat) (hi : option nat) (rest : list ascii)
| BBadQuant                 (* a quantifier the engine refuses *)
| BLiteral                  (* not a quantifier: the brace is a character *)
| BUnclear.                 (* a quantifier in some releases only *)

Definition too_big (n : nat) : bool := (65535 <? N.of_nat n)%N.

(** [{n}], [{n,}] and [{n,m}] with digits only are quantifiers in every
    release of PCRE2. *)
Definition strict_quant (s : list ascii) : option brace_kind :=
  let '(lo, n1, s1) := read_number 0 0 s in
  if (n1 =? 0)%nat then None else
  match s1 with
  | "}"%char :: rest =>
      Some (if too_big lo then BBadQuant else BQuant lo (Some lo) rest)
  | ","%char :: "}"%char :: rest =>
      Some (if too_big lo then BBadQuant else BQuant lo None rest)
  | ","%char :: s2 =>
      let '(hi, n2, s3) := read_number 0 0 s2 in
      if (n2 =? 0)%nat then None else
      match s3 with
      | "}"%char :: rest =>
          Some (if too_big lo || too_big hi || (hi <? lo)%nat
                then BBadQuant else BQuant lo (Some hi) rest)
      | _ => None
      end
  | _ => None
  end.

(** Since release 10.43 blanks are allowed inside the braces and the lower
    bound may be missing. *)
Definition relaxed_quant (s : list ascii) : bool :=
  let '(_, n1, s1) := read_number 0 0 (skip_blank s) in
  match skip_blank s1 with
  | "}"%char :: _ => negb (n1 =? 0)%nat
  | ","%char :: s2 =>
      let '(_, n2, s3) := read_number 0 0 (skip_blank s2) in
      match skip_blank s3 with
      | "}"%char :: _ => negb ((n1 =? 0)%nat && (n2 =? 0)%nat)
      | _ => false
      end
  | _ => false
  end.

Definition brace_quant (s : list ascii) : brace_kind :=
  match strict_quant s with
  | Some k => k
  | None => if relaxed_quant s then BUnclear else BLiteral
  end.

Definition is_assertion (r : regex) : bool :=
  match r with
  | RBol | REol => true
  | _ => false
  end.

(** What may follow a quantifier: [?] (lazy), [+] (possessive) and a second
    quantifier are left out of the model. *)
Definition quant_suffix_ok (s : list ascii) : bool :=
  match s with
  | c :: s' =>
      if (c =c "?") || (c =c "+") || (c =c "*") then false
      else if c =c "{" then
        match brace_quant s' with
        | BLiteral => true
        | _ => false
        end
      else true
  | [] => true
  end.

Definition quantified (a : regex) (lo : nat) (hi : option nat)
    (rest : list ascii) : outcome (regex * list ascii) :=
  if is_assertion a || negb (quant_suffix_ok rest) then Unmodelled
  else Ok (RRepeat lo hi a, rest).

(** The quantifier, if any, that follows the atom [a]. *)
Definition parse_quant (a : regex) (s : list ascii) : outcome (regex * list ascii) :=
  match s with
  | c :: s' =>
      if c =c "*" then quantified a 0 None s'
      else if c =c "+" then quantified a 1 None s'
      else if c =c "?" then quantified a 0 (Some 1) s'
      else if c =c "{" then
        match brace_quant s' with
        | BQuant lo hi rest => quantified a lo hi rest
        | BBadQuant => Rejected
        | BLiteral => Ok (a, s)
        | BUnclear => Unmodelled
        end
      else Ok (a, s)
  | [] => Ok (a, s)
  end.

(** The members of a bracket expression, after [[] or [[^].  [first] is set
    while a closing bracket would still be an ordinary member. *)
Fixpoint parse_class_items (first : bool) (s : list ascii)
    : outcome (list citem * list ascii) :=
  match s with
  | [] => Rejected
  | c :: s1 =>
      if (c =c "]") && negb first then Ok ([], s1)
      else if c =c "\" then
        match s1 with
        | [] => Rejected
        | e :: s2 =>
            if C.isalnum e then
              if e =c "d" then
                match s2 with
                | "-"%char :: _ => Unmodelled
                | _ => obind (parse_class_items false s2)
                         (fun '(l, r) => Ok (CDigit :: l, r))
                end
              else Unmodelled
            else
              match s2 with
              | "-"%char :: "]"%char :: _ =>
                  obind (parse_class_items false s2) (fun '(l, r) => Ok (CChar e :: l, r))
              | "-"%char :: "\"%char :: h :: s3 =>
                  if C.isalnum h then Unmodelled
                  else if (C.code h <? C.code e)%nat then Rejected
                  else obind (parse_class_items false s3)
                         (fun '(l, r) => Ok (CRange e h :: l, r))
              | "-"%char :: h :: s3 =>
                  if (h =c "[") || (h =c "\") then Unmodelled
                  else if (C.code h <? C.code e)%nat then Rejected
                  else obind (parse_class_items false s3)
                         (fun '(l, r) => Ok (CRange e h :: l, r))
              | _ => obind (parse_class_items false s2) (fun '(l, r) => Ok (CChar e :: l, r))
              end
        end
      else
        match s1 with
        | "-"%char :: "]"%char :: _ =>
            obind (parse_class_items false s1) (fun '(l, r) => Ok (CChar c :: l, r))
        | "-"%char :: "\"%char :: h :: s3 =>
            if C.isalnum h then Unmodelled
            else if (C.code h <? C.code c)%nat then Rejected
            else obind (parse_class_items false s3)
                   (fun '(l, r) => Ok (CRange c h :: l, r))
        | "-"%char :: h :: s3 =>
            if (h =c "[") || (h =c "\") then Unmodelled
            else if (C.code h <? C.code c)%nat then Rejected
            else obind (parse_class_items false s3)
                   (fun '(l, r) => Ok (CRange c h :: l, r))
        | h :: _ =>
            if (c =c "[") && ((h =c ":") || (h =c ".") || (h =c "=")) then Unmodelled
            else obind (parse_class_items false s1) (fun '(l, r) => Ok (CChar c :: l, r))
        | [] => Rejected
        end
  end.

Definition parse_class (s : list ascii) : outcome (regex * list ascii) :=
  match s with
  | "^"%char :: s1 =>
      obind (parse_class_items true s1) (fun '(l, r) => Ok (RClass true l, r))
  | _ => obind (parse_class_items true s) (fun '(l, r) => Ok (RClass false l, r))
  end.

(** Alternatives, sequences and atoms.  [ncap] counts the capturing groups
    opened so far: groups are numbered by their opening parenthesis. *)
Fixpoint parse_alt (fuel ncap : nat) (s : list ascii) {struct fuel}
    : outcome (regex * nat * list ascii) :=
  match fuel with
  | 0 => Unmodelled
  | S fuel' =>
      obind (parse_seq fuel' ncap s) (fun '(r1, n1, rest) =>
      match rest with
      | "|"%char :: rest' =>
          obind (parse_alt fuel' n1 rest') (fun '(r2, n2, rest2) =>
          Ok (RAlt r1 r2, n2, rest2))
      | _ => Ok (r1, n1, rest)
      end)
  end
with parse_seq (fuel ncap : nat) (s : list ascii) {struct fuel}
    : outcome (regex * nat * list ascii) :=
  match fuel with
  | 0 => Unmodelled
  | S fuel' =>
      match s with
      | [] => Ok (REmpty, ncap, s)
      | c :: _ =>
          if (c =c "|") || (c =c ")") then Ok (REmpty, ncap, s)
          else
            obind (parse_atom fuel' ncap s) (fun '(a, n1, rest) =>
            obind (parse_quant a rest) (fun '(q, rest1) =>
            obind (parse_seq fuel' n1 rest1) (fun '(r, n2, rest2) =>
            Ok (RSeq q r, n2, rest2))))
      end
  end
with parse_atom (fuel ncap : nat) (s : list ascii) {struct fuel}
    : outcome (regex * nat * list ascii) :=
  match fuel with
  | 0 => Unmodelled
  | S fuel' =>
      match s with
      | [] => Rejected
      | c :: s1 =>
          if c =c "(" then
            match s1 with
            | "?"%char :: ":"%char :: s2 =>
                obind (parse_alt fuel' ncap s2) (fun '(r, n1, rest) =>
                match rest with
                | ")"%char :: rest' => Ok (RGroup None r, n1, rest')
                | _ => Rejected
                end)
            | "?"%char :: _ => Unmodelled
            | "*"%char :: _ => Unmodelled
            | _ =>
                obind (parse_alt fuel' (S ncap) s1) (fun '(r, n1, rest) =>
                match rest with
                | ")"%char :: rest' => Ok (RGroup (Some (S ncap)) r, n1, rest')
                | _ => Rejected
                end)
            end
          else if c =c "[" then
            obind (parse_class s1) (fun '(r, rest) => Ok (r, ncap, rest))
          else if c =c "\" then
            match s1 with
            | [] => Rejected
            | e :: s2 =>
                if C.isalnum e then
                  if e =c "d" then Ok (RClass false [CDigit], ncap, s2)
                  else Unmodelled
                else Ok (RChar e, ncap, s2)
            end
          else if c =c "." then Ok (RAny, ncap, s1)
          else if c =c "^" then Ok (RBol, ncap, s1)
          else if c =c "$" then Ok (REol, ncap, s1)
          else if (c =c "*") || (c =c "+") || (c =c "?") then Rejected
          else if c =c "{" then
            match brace_quant s1 with
            | BLiteral => Ok (RChar c, ncap, s1)
            | _ => Unmodelled
            end
          else Ok (RChar c, ncap, s1)
      end
  end.

(** [pcre2_compile(text, PCRE2_ZERO_TERMINATED, 0, ...)]. *)
Definition pcre2_compile (s : list ascii) : outcome regex :=
  match parse_alt (3 * length s + 3) 0 s with
  | Ok (r, _, []) => Ok r
  | Ok (_, _, _ :: _) => Rejected       (* a closing parenthesis too many *)
  | Rejected => Rejected
  | Unmodelled => Unmodelled
  end.

(** *** Matching: the backtracking search, first match in priority order *)

(** Group number, start offset, end offset. *)
Definition captures : Type := list (nat * (nat * nat)).

Fixpoint cap_lookup (i : nat) (caps : captures) : option (nat * nat) :=
  match caps with
  | [] => None
  | (j, v) :: caps' => if (i =? j)%nat then Some v else cap_lookup i caps'
  end.

Definition citem_mem (x : ascii) (it : citem) : bool :=
  match it with
  | CChar c => Ascii.eqb x c
  | CRange lo hi => ((C.code lo <=? C.code x) && (C.code x <=? C.code hi))%nat
  | CDigit => C.isdigit x
  end.

Definition class_mem (items : list citem) (x : ascii) : bool :=
  existsb (citem_mem x) items.

Definition at_max (hi : option nat) (n : nat) : bool :=
  match hi with
  | Some h => (h <=? n)%nat
  | None => false
  end.

Definition kont : Type := nat -> list ascii -> captures -> option captures.

(** [mt r pos s caps k]: match [r] at offset [pos], where [s] is the rest of
    the subject, then go on with [k]; [None] is a failure that makes the
    caller try its next alternative.  A repetition is greedy; an iteration
    that consumes nothing ends it. *)
Fixpoint mt (r : regex) (pos : nat) (s : list ascii) (caps : captures) (k : kont)
    {struct r} : option captures :=
  match r with
  | RChar c =>
      match s with
      | x :: s' => if Ascii.eqb x c then k (S pos) s' caps else None
      | [] => None
      end
  | RAny =>
      match s with
      | x :: s' => if Ascii.eqb x C.newline then None else k (S pos) s' caps
      | [] => None
      end
  | RClass neg items =>
      match s with
      | x :: s' => if xorb neg (class_mem items x) then k (S pos) s' caps else None
      | [] => None
      end
  | RBol => if (pos =? 0)%nat then k pos s caps else None
  | REol =>
      match s with
      | [] => k pos s caps
      | [x] => if Ascii.eqb x C.newline then k pos s caps else None
      | _ => None
      end
  | REmpty => k pos s caps
  | RSeq r1 r2 => mt r1 pos s caps (fun pos' s' caps' => mt r2 pos' s' caps' k)
  | RAlt r1 r2 =>
      match mt r1 pos s caps k with
      | Some c => Some c
      | None => mt r2 pos s caps k
      end
  | RGroup None r1 => mt r1 pos s caps k
  | RGroup (Some i) r1 =>
      mt r1 pos s caps (fun pos' s' caps' => k pos' s' ((i, (pos, pos')) :: caps'))
  | RRepeat lo hi r1 =>
      (fix loop (fuel n pos : nat) (s : list ascii) (caps : captures) {struct fuel}
         : option captures :=
         let leave := if (lo <=? n)%nat then k pos s caps else None in
         match fuel with
         | 0 => leave
         | S fuel' =>
             if at_max hi n then leave
             else
               match mt r1 pos s caps (fun pos' s' caps' =>
                       if (pos' =? pos)%nat then k pos' s' caps'
                       else loop fuel' (S n) pos' s' caps') with
               | Some c => Some c
               | None => leave
               end
         end) (S (length s)) 0 pos s caps
  end.

(** [pcre2_match(re, subject, strlen(subject), 0, 0, ...)]: the first start
    offset at which the expression matches; the ovector, group 0 included. *)
Fixpoint search (r : regex) (pos : nat) (s : list ascii) : option captures :=
  match mt r pos s [] (fun pos' _ caps => Some ((0, (pos, pos')) :: caps)) with
  | Some c => Some c
  | None =>
      match s with
      | [] => None
      | _ :: s' => search r (S pos) s'
      end
  end.

Definition pcre2_match (r : regex) (subject : list ascii) : option captures :=
  search r 0 subject.

(** What a call of [pcre2_match] returns: a match with its ovector, the
    code [PCRE2_ERROR_NOMATCH], or another negative code when the engine
    gives the search up (PCRE2_ERROR_MATCHLIMIT, -47, after too many steps
    of backtracking; the depth and heap limits; a missing block of match
    data). *)
Inductive match_result : Type :=
| Matched (caps : captures)
| NoMatch
| MatchError (rc : Z).

Definition PCRE2_ERROR_NOMATCH : Z := (-1)%Z.

(** The steps and the memory of a search are counted inside the library,
    in units that this model does not have.  Whether the engine gives a
    search up is therefore a parameter: [gives_up re subject] is the code
    it returns when it does.  A code that is not below PCRE2_ERROR_NOMATCH
    is no such code and is passed over. *)
Definition engine_limits : Type := regex -> list ascii -> option Z.

Definition engine_error (limits : engine_limits) (r : regex) (subject : list ascii)
    : option Z :=
  match limits r subject with
  | Some rc => if (rc <? PCRE2_ERROR_NOMATCH)%Z then Some rc else None
  | None => None
  end.

Definition pcre2_match_limited (limits : engine_limits) (r : regex)
    (subject : list ascii) : match_result :=
  match engine_error limits r subject with
  | Some rc => MatchError rc
  | None =>
      match pcre2_match r subject with
      | Some caps => Matched caps
      | None => NoMatch
      end
  end.

End Pcre.

(* ===================================================================== *)
(** ** [ec_glob.c] *)
(* ===================================================================== *)

Module Glob.

Import Pcre.

Definition PATTERN_MAX : nat := 4097.

(** Size of [pcre_str] and of [l_pattern]. *)
Definition BUF_SIZE : nat := 2 * PATTERN_MAX.

(** [struct int_pair]: two [int]s.  The fields are only ever given values
    that [ec_atoi] returns, which lie between [INT_MIN] and [INT_MAX]. *)
Definition int_pair : Type := (Z * Z)%type.

(** What a run of the translation loop can end in. *)
Inductive tres (A : Type) : Type :=
| TOk (a : A)
| TBufferExceeded          (* [return -1] of STRING_CAT *)
| TOutOfBounds             (* an access past the end of a fixed buffer *)
| TOutOfFuel.
Arguments TOk {A} a.
Arguments TBufferExceeded {A}.
Arguments TOutOfBounds {A}.
Arguments TOutOfFuel {A}.

Definition tbind {A B} (x : tres A) (f : A -> tres B) : tres B :=
  match x with
  | TOk a => f a
  | TBufferExceeded => TBufferExceeded
  | TOutOfBounds => TOutOfBounds
  | TOutOfFuel => TOutOfFuel
  end.

Notation "'let*' x ':=' e 'in' k" := (tbind e (fun x => k))
  (at level 10, x name, e at level 200, k at level 200).

(** The locals of [ec_glob] that the translation loop updates.  [pcre_str]
    holds what has been written so far, [p_pcre] is the offset of the write
    pointer in it (the bytes from there on are still zero), [l_len] is
    [strlen(l_pattern)]. *)
Record tstate : Type := {
  pcre_str : list ascii;
  p_pcre : nat;
  brace_level : Z;
  is_in_bracket : bool;
  nums : list int_pair;
  l_len : nat
}.

Definition emit (st : tstate) (str : list ascii) : tstate :=
  {| pcre_str := pcre_str st ++ str;
     p_pcre := p_pcre st + length str;
     brace_level := brace_level st;
     is_in_bracket := is_in_bracket st;
     nums := nums st;
     l_len := l_len st |}.

(** The macro [STRING_CAT(p_pcre, str, pcre_str_end)]. *)
Definition STRING_CAT (st : tstate) (str : list ascii) : tres tstate :=
  if (BUF_SIZE <=? p_pcre st + length str)%nat then TBufferExceeded
  else TOk (emit st str).

(** [*(p_pcre ++) = ch]: no test against the end of the buffer. *)
Definition put (st : tstate) (ch : ascii) : tres tstate :=
  if (BUF_SIZE <=? p_pcre st)%nat then TOutOfBounds
  else TOk (emit st [ch]).

(** [strcat]/[strncat] at the write pointer, then [p_pcre += strlen(p_pcre)]:
    the characters and a terminating NUL are written, unchecked. *)
Definition strcat_raw (st : tstate) (str : list ascii) : tres tstate :=
  if (BUF_SIZE <=? p_pcre st + length str)%nat then TOutOfBounds
  else TOk (emit st str).

Definition set_bracket (b : bool) (st : tstate) : tstate :=
  {| pcre_str := pcre_str st; p_pcre := p_pcre st; brace_level := brace_level st;
     is_in_bracket := b; nums := nums st; l_len := l_len st |}.

Definition add_brace_level (d : Z) (st : tstate) : tstate :=
  {| pcre_str := pcre_str st; p_pcre := p_pcre st;
     brace_level := (brace_level st + d)%Z;
     is_in_bracket := is_in_bracket st; nums := nums st; l_len := l_len st |}.

Definition push_num (pr : int_pair) (st : tstate) : tstate :=
  {| pcre_str := pcre_str st; p_pcre := p_pcre st; brace_level := brace_level st;
     is_in_bracket := is_in_bracket st; nums := nums st ++ [pr]; l_len := l_len st |}.

(** [memmove(cc+1, cc, strlen(cc)+1); *cc = '\\']: [l_pattern] grows by one. *)
Definition grow_pattern (st : tstate) : tres tstate :=
  if (BUF_SIZE <=? S (l_len st))%nat then TOutOfBounds
  else TOk {| pcre_str := pcre_str st; p_pcre := p_pcre st;
              brace_level := brace_level st; is_in_bracket := is_in_bracket st;
              nums := nums st; l_len := S (l_len st) |}.

(** "Determine whether curly braces are paired": the counting loop, with its
    early exit as soon as there are more closing than opening braces. *)
Fixpoint count_braces (left right : nat) (c : list ascii) : bool :=
  match c with
  | [] => (right =? left)%nat
  | x :: c1 =>
      match c1 with
      | _ :: c2 =>
          if x =c "\" then count_braces left right c2
          else
            let right' := if x =c "}" then S right else right in
            let left' := if x =c "}" then left
                         else if x =c "{" then S left else left in
            if (left' <? right')%nat then false
            else count_braces left' right' c1
      | [] =>
          let right' := if x =c "}" then S right else right in
          let left' := if x =c "}" then left
                       else if x =c "{" then S left else left in
          if (left' <? right')%nat then false
          else (right' =? left')%nat
      end
  end.

Definition are_braces_paired (pattern : list ascii) : bool :=
  count_braces 0 0 pattern.

(** "check whether we have slash within the bracket": [c] points at the
    opening bracket. *)
Fixpoint bracket_has_slash (c : list ascii) : bool :=
  match c with
  | [] => false
  | x :: c1 =>
      if x =c "]" then false
      else
        match c1 with
        | _ :: c2 =>
            if x =c "\" then bracket_has_slash c2
            else if x =c "/" then true
            else bracket_has_slash c1
        | [] => x =c "/"
        end
  end.

(** "Check the case of {single}": [s] is the text after the opening brace.
    [Some n] when [is_single] holds, [cc] then being [n] characters in, at the
    closing brace. *)
Fixpoint scan_single (s : list ascii) : option nat :=
  match s with
  | [] => None
  | x :: s1 =>
      if x =c "}" then Some 0
      else
        match s1 with
        | _ :: s2 =>
            if x =c "\" then option_map (fun n => S (S n)) (scan_single s2)
            else if x =c "," then None
            else option_map S (scan_single s1)
        | [] => None
        end
  end.

Definition kNumberPattern : list ascii := cs "^\{[\+\-]?\d+\.\.[\+\-]?\d+\}$".

(** [ec_glob_number_pattern()]: the expression compiled once, and a fresh
    copy handed out on every call. *)
Definition ec_glob_number_pattern : outcome regex := pcre2_compile kNumberPattern.

(** The syntax tree of [kNumberPattern]. *)
Definition number_regex : regex :=
  Eval vm_compute in
    match pcre2_compile kNumberPattern with
    | Ok r => r
    | _ => REmpty
    end.

(** One turn of the [for (c = l_pattern; *c; ++ c)] loop: [x] is [*c], [c1]
    the text after it.  The result is the text the next turn starts at, that
    is [c + 1] after the body ran, and the new locals.  The search of the
    number pattern in a brace text goes once along a text of less than
    [BUF_SIZE] characters, far below the limits of the engine: it is
    modelled by [pcre2_match], the search without limits. *)
Definition translate_step (paired : bool) (re : regex) (x : ascii)
    (c1 : list ascii) (st : tstate) : tres (list ascii * tstate) :=
  if x =c "\" then
    match c1 with
    | y :: c2 =>
        let* st1 := put st x in let* st2 := put st1 y in TOk (c2, st2)
    | [] => let* st1 := STRING_CAT st (cs "\\") in TOk (c1, st1)
    end
  else if x =c "?" then
    let* st1 := STRING_CAT st (cs "[^/]") in TOk (c1, st1)
  else if x =c "*" then
    match c1 with
    | "*"%char :: c2 => let* st1 := STRING_CAT st (cs ".*") in TOk (c2, st1)
    | _ => let* st1 := STRING_CAT st (cs "[^\/]*") in TOk (c1, st1)
    end
  else if x =c "[" then
    if is_in_bracket st then
      let* st1 := STRING_CAT st (cs "\[") in TOk (c1, st1)
    else if bracket_has_slash (x :: c1) then
      match C.strchr (x :: c1) "]" with
      | Some off =>
          let* st1 := strcat_raw st (cs "\" ++ firstn off (x :: c1) ++ cs "\]") in
          TOk (skipn (S off) (x :: c1), st1)
      | None =>
          let* st1 := strcat_raw st (cs "\" ++ x :: c1) in
          TOk ([], st1)
      end
    else
      match c1 with
      | "!"%char :: c2 =>
          let* st1 := STRING_CAT (set_bracket true st) (cs "[^") in TOk (c2, st1)
      | _ => let* st1 := put (set_bracket true st) "[" in TOk (c1, st1)
      end
  else if x =c "]" then
    let* st1 := put (set_bracket false st) x in TOk (c1, st1)
  else if x =c "-" then
    if is_in_bracket st then let* st1 := put st x in TOk (c1, st1)
    else let* st1 := STRING_CAT st (cs "\-") in TOk (c1, st1)
  else if x =c "{" then
    if negb paired then
      let* st1 := STRING_CAT st (cs "\{") in TOk (c1, st1)
    else
      match scan_single c1 with
      | Some n =>
          match pcre2_match re (x :: firstn (S n) c1) with
          | None =>
              let* st1 := STRING_CAT st (cs "\{") in
              let* st2 := grow_pattern st1 in
              TOk (firstn n c1 ++ "\"%char :: skipn n c1, st2)
          | Some _ =>
              match C.strstr (x :: c1) (cs "..") with
              | Some double_dots =>
                  let pair := (ec_atoi c1, ec_atoi (skipn 2 double_dots)) in
                  let* st1 := STRING_CAT (push_num pair st) (cs "([\+\-]?\d+)") in
                  TOk (skipn (S n) c1, st1)
              | None => TOutOfBounds
              end
          end
      | None =>
          let* st1 := STRING_CAT (add_brace_level 1 st) (cs "(?:") in TOk (c1, st1)
      end
  else if x =c "}" then
    if negb paired then
      let* st1 := STRING_CAT st (cs "\}") in TOk (c1, st1)
    else
      let* st1 := put (add_brace_level (-1) st) ")" in TOk (c1, st1)
  else if x =c "," then
    if (0 <? brace_level st)%Z then let* st1 := put st "|" in TOk (c1, st1)
    else let* st1 := STRING_CAT st (cs "\,") in TOk (c1, st1)
  else if x =c "/" then
    if C.starts_with (cs "/**/") (x :: c1) then
      let* st1 := STRING_CAT st (cs "(\/|\/.*\/)") in TOk (skipn 3 c1, st1)
    else let* st1 := STRING_CAT st (cs "\/") in TOk (c1, st1)
  else if C.isalnum x then
    let* st1 := put st x in TOk (c1, st1)
  else
    let* st1 := put st "\" in let* st2 := put st1 x in TOk (c1, st2).

(** The loop itself, then [*(p_pcre ++) = '$']. *)
Fixpoint translate_loop (fuel : nat) (paired : bool) (re : regex)
    (c : list ascii) (st : tstate) : tres tstate :=
  match c with
  | [] => put st "$"
  | x :: c1 =>
      match fuel with
      | 0 => TOutOfFuel
      | S fuel' =>
          let* r := translate_step paired re x c1 st in
          translate_loop fuel' paired re (fst r) (snd r)
      end
  end.

(** The locals at the head of [ec_glob]: [pcre_str] starts as ["^"]. *)
Definition init_state (pattern : list ascii) : tstate :=
  {| pcre_str := cs "^"; p_pcre := 1; brace_level := 0;
     is_in_bracket := false; nums := []; l_len := length pattern |}.

(** A turn consumes a character of [l_pattern], except that the {single}
    case puts a backslash in: with a backslash weighing 1 and any other
    character 2, the text still to read gets lighter at every turn. *)
Fixpoint weight (c : list ascii) : nat :=
  match c with
  | [] => 0
  | x :: c' => (if x =c "\" then 1 else 2) + weight c'
  end.

(** The translation of a whole pattern: expression text and number ranges.
    [pcre2_compile] is given [pcre_str] as a zero-terminated string: when
    the write pointer has reached the end of the buffer there is no NUL left
    in it to stop the read. *)
Definition translate (re : regex) (pattern : list ascii) : tres (list ascii * list int_pair) :=
  let* st := translate_loop (S (weight pattern)) (are_braces_paired pattern) re
          pattern (init_state pattern) in
  if (BUF_SIZE <=? p_pcre st)%nat then TOutOfBounds
  else TOk (pcre_str st, nums st).

(** *** The pattern cache *)

(** An entry of the [std::map]: the serialized expression and the ranges, or
    the pair of null pointers that [operator[]] puts in for a new key. *)
Definition cache_entry : Type := option (regex * list int_pair).

Abbreviation pattern_cache := (gmap (list ascii) cache_entry).

(** [ec_glob_cached_pattern(pattern, re, nums)]: a fetch when [re] is null,
    a store otherwise.  Serializing and decoding an expression gives the
    expression back. *)
Definition ec_glob_cached_pattern (m : pattern_cache) (pattern : list ascii)
    (re : option regex) (nums : list int_pair) : cache_entry * pattern_cache :=
  match pattern with
  | [] => (None, m)
  | _ :: _ =>
      match re with
      | None =>
          let entry := default None (m !! pattern) in
          (entry, <[pattern := entry]> m)
      | Some r => (None, <[pattern := Some (r, nums)]> m)
      end
  end.

(** *** Matching *)

Inductive glob_result : Type :=
| GLOB_MATCH                  (* 0 *)
| EC_GLOB_NOMATCH
| GLOB_ERROR (code : Z)       (* -1, -2, or the negative code of the engine *)
| GLOB_UNDEFINED              (* the C code leaves its buffers *)
| GLOB_UNMODELLED.            (* the expression is outside the modelled engine *)

(** What [ec_glob] depends on besides its arguments: whether the engine
    gives the search up, and whether [strndup] finds memory in the turn of
    the range loop for group [i]. *)
Record resources : Type := {
  gives_up : engine_limits;
  strndup_ok : nat -> bool
}.

(** An engine that never gives up and an allocator that never fails. *)
Definition enough : resources :=
  {| gives_up := fun _ _ => None; strndup_ok := fun _ => true |}.

(** How the loop over the ranges ends: [p] is null (every range was
    passed), a [break] left [p] non-null, [strndup] returned null, or the
    offsets are those of a group that took no part in the match, which the
    code would add to [string]. *)
Inductive ranges_result : Type :=
| RangesPassed
| RangesBreak
| RangesNoMemory
| RangesUndefined.

(** "Whether the numbers are in the desired range?"  Range [p] is looked up
    in the ovector at group [i], starting from 1. *)
Fixpoint check_ranges (mem : nat -> bool) (string : list ascii) (caps : captures)
    (i : nat) (nums : list int_pair) : ranges_result :=
  match nums with
  | [] => RangesPassed
  | (num1, num2) :: rest =>
      match cap_lookup i caps with
      | None => RangesUndefined
      | Some (b, e) =>
          let substring_start := skipn b string in
          match substring_start with
          | "0"%char :: _ => RangesBreak
          | _ =>
              if mem i then
                let num := ec_atoi (firstn (e - b) substring_start) in
                if (num <? num1)%Z || (num2 <? num)%Z then RangesBreak
                else check_ranges mem string caps (S i) rest
              else RangesNoMemory
          end
      end
  end.

(** The part of [ec_glob] that runs on a cache miss: translate, compile. *)
Definition compile_pattern (pattern : list ascii)
    : glob_result + (regex * list int_pair) :=
  match ec_glob_number_pattern with
  | Ok nre =>
      match translate nre pattern with
      | TOk (str, nums) =>
          match pcre2_compile str with
          | Ok re => inr (re, nums)
          | Rejected => inl (GLOB_ERROR (-1))
          | Unmodelled => inl GLOB_UNMODELLED
          end
      | TBufferExceeded => inl (GLOB_ERROR (-1))
      | TOutOfBounds => inl GLOB_UNDEFINED
      | TOutOfFuel => inl GLOB_UNMODELLED
      end
  | _ => inl (GLOB_ERROR (-1))
  end.

(** The part after the expression is at hand: match, then check the ranges.
    A code of the engine other than PCRE2_ERROR_NOMATCH is returned as it
    is ([ret = rc]); a failed [strndup] gives -2. *)
Definition run_match (env : resources) (re : regex) (nums : list int_pair)
    (string : list ascii) : glob_result :=
  match pcre2_match_limited (gives_up env) re string with
  | MatchError rc => GLOB_ERROR rc
  | NoMatch => EC_GLOB_NOMATCH
  | Matched caps =>
      match check_ranges (strndup_ok env) string caps 1 nums with
      | RangesPassed => GLOB_MATCH
      | RangesBreak => EC_GLOB_NOMATCH
      | RangesNoMemory => GLOB_ERROR (-2)
      | RangesUndefined => GLOB_UNDEFINED
      end
  end.

(** [int ec_glob(const char *pattern, const char *string)], with the pattern
    cache passed in and out.  [strcpy(l_pattern, pattern)] comes first and is
    unchecked. *)
Definition ec_glob (env : resources) (m : pattern_cache) (pattern string : list ascii)
    : glob_result * pattern_cache :=
  if (BUF_SIZE <? S (length pattern))%nat then (GLOB_UNDEFINED, m)
  else
    let '(cached, m1) := ec_glob_cached_pattern m pattern None [] in
    match cached with
    | Some (re, nums) => (run_match env re nums string, m1)
    | None =>
        match compile_pattern pattern with
        | inl e => (e, m1)
        | inr (re, nums) =>
            (run_match env re nums string,
             snd (ec_glob_cached_pattern m1 pattern (Some re) nums))
        end
    end.

(** The entry point in a process that has compiled nothing yet. *)
Definition glob_match_in (env : resources) (pattern string : list ascii)
    : glob_result :=
  fst (ec_glob env ∅ pattern string).

(** The same when the engine and the allocator have what they need. *)
Definition glob_match (pattern string : list ascii) : glob_result :=
  glob_match_in enough pattern string.

End Glob.

(* ===================================================================== *)
(** ** [ini.c] *)
(* ===================================================================== *)

Module Ini.

Definition MAX_LINE : nat := 5000.

(** The limits and switches that [ini.c] takes from [global.h] and [ini.h];
    the headers are not among the sources, so they are parameters here. *)
Record config : Type := {
  MAX_SECTION_NAME : nat;
  MAX_PROPERTY_NAME : nat;
  MAX_PROPERTY_VALUE : nat;
  INI_ALLOW_BOM : bool;
  INI_ALLOW_MULTILINE : bool
}.

Definition MAX_SECTION (cfg : config) : nat := MAX_SECTION_NAME cfg.
Definition MAX_NAME (cfg : config) : nat := MAX_PROPERTY_NAME cfg.

Fixpoint drop_while (f : ascii -> bool) (s : list ascii) : list ascii :=
  match s with
  | x :: s' => if f x then drop_while f s' else s
  | [] => []
  end.

(** [rstrip]: [p] walks back from the end while it sees white space. *)
Definition rstrip (s : list ascii) : list ascii :=
  rev (drop_while C.isspace (rev s)).

(** [lskip]: the first character that is not white space. *)
Definition lskip (s : list ascii) : list ascii := drop_while C.isspace s.

Definition is_comment_char (x : ascii) : bool :=
  Ascii.eqb x ";" || Ascii.eqb x "#".

(** [find_char_or_comment(s, c)], as an offset into [s]; [was_whitespace]
    starts as 0.  With [c] the NUL character it runs to the end of the
    string or to a comment. *)
Fixpoint find_char_or_comment_from (was_whitespace : bool) (s : list ascii)
    (c : ascii) : nat :=
  match s with
  | [] => 0
  | x :: s' =>
      if Ascii.eqb x c || (was_whitespace && is_comment_char x) then 0
      else S (find_char_or_comment_from (C.isspace x) s' c)
  end.

Definition find_char_or_comment (s : list ascii) (c : ascii) : nat :=
  find_char_or_comment_from false s c.

(** [find_last_char_or_comment(s, c)], as an offset into [s]: [i] is the
    offset of the character looked at, [last_char] starts at [s] itself. *)
Fixpoint find_last_from (was_whitespace : bool) (s : list ascii) (c : ascii)
    (i last_char : nat) : nat :=
  match s with
  | [] => last_char
  | x :: s' =>
      if was_whitespace && is_comment_char x then last_char
      else find_last_from (C.isspace x) s' c (S i)
             (if Ascii.eqb x c then i else last_char)
  end.

Definition find_last_char_or_comment (s : list ascii) (c : ascii) : nat :=
  find_last_from false s c 0 0.

(** [strncpy0(dest, src, size)]: what [dest] holds afterwards. *)
Definition strncpy0 (src : list ascii) (size : nat) : list ascii :=
  firstn (size - 1) src.

(** [s[i]], the NUL character at and after the end. *)
Definition char_at (s : list ascii) (i : nat) : ascii := nth i s zero.

Definition BOM : list ascii :=
  [ascii_of_nat 239; ascii_of_nat 187; ascii_of_nat 191].

(** [strchr(p, '\n')]: the line at [p], and [nextLine + 1] if there is a
    newline. *)
Fixpoint split_line (p : list ascii) : list ascii * option (list ascii) :=
  match p with
  | [] => ([], None)
  | x :: p' =>
      if Ascii.eqb x C.newline then ([], Some p')
      else let '(l, n) := split_line p' in (x :: l, n)
  end.

Section Parser.

Variable cfg : config.

(** The handler and its [user] pointer: what the handler does to the data
    behind the pointer is a state it threads; [true] is a non-zero return. *)
Variable U : Type.
Variable handler : U -> list ascii -> list ascii -> list ascii -> U * bool.

(** The locals of [ini_parse_file] that live across lines. *)
Record pstate : Type := {
  section : list ascii;
  prev_name : list ascii;
  lineno : nat;
  error : nat;
  user : U
}.

(** How the body of the [while] loop was left: by reaching its end, where
    [p] moves to the next line, or by [continue], where it does not. *)
Inductive flow : Type := Next | Again.

Definition set_error (st : pstate) : pstate :=
  {| section := section st; prev_name := prev_name st; lineno := lineno st;
     error := if (error st =? 0)%nat then lineno st else error st;
     user := user st |}.

(** [if (!handler(user, section, name, value) && !error) error = lineno;] *)
Definition call_handler (st : pstate) (name value : list ascii) : pstate :=
  let '(u, ok) := handler (user st) (section st) name value in
  let st' := {| section := section st; prev_name := prev_name st;
                lineno := lineno st; error := error st; user := u |} in
  if ok then st' else set_error st'.

Definition set_prev_name (n : list ascii) (st : pstate) : pstate :=
  {| section := section st; prev_name := n; lineno := lineno st;
     error := error st; user := user st |}.

Definition enter_section (s : list ascii) (st : pstate) : pstate :=
  {| section := s; prev_name := []; lineno := lineno st;
     error := error st; user := user st |}.

Definition bump_lineno (st : pstate) : pstate :=
  {| section := section st; prev_name := prev_name st; lineno := S (lineno st);
     error := error st; user := user st |}.

(** The body of the loop from [lineno++] on; [line] is the buffer as
    [snprintf] filled it. *)
Definition process_line (line : list ascii) (st0 : pstate) : flow * pstate :=
  let st := bump_lineno st0 in
  let bom := INI_ALLOW_BOM cfg && (lineno st =? 1)%nat && C.starts_with BOM line in
  let after_bom := if bom then skipn 3 line else line in
  let stripped := rstrip after_bom in
  let start := lskip stripped in
  let moved := bom || (length start <? length stripped)%nat in   (* start > line *)
  match start with
  | [] => (Next, st)
  | x :: rest =>
      if is_comment_char x then (Next, st)
      else if INI_ALLOW_MULTILINE cfg
              && negb (match prev_name st with [] => true | _ => false end)
              && moved then
        (Next, call_handler st (prev_name st) start)
      else if Ascii.eqb x "[" then
        let e := find_last_char_or_comment rest "]" in
        if Ascii.eqb (char_at rest e) "]" then
          if (MAX_SECTION_NAME cfg <? e)%nat then (Again, st)
          else (Next, enter_section (strncpy0 (firstn e rest) (MAX_SECTION cfg + 1)) st)
        else (Next, set_error st)
      else
        let e1 := find_char_or_comment start "=" in
        let e := if Ascii.eqb (char_at start e1) "=" then e1
                 else find_char_or_comment start ":" in
        if Ascii.eqb (char_at start e) "=" || Ascii.eqb (char_at start e) ":" then
          let name := rstrip (firstn e start) in
          let value0 := lskip (skipn (S e) start) in
          let e2 := find_char_or_comment value0 zero in
          let value := rstrip (if is_comment_char (char_at value0 e2)
                               then firstn e2 value0 else value0) in
          if (MAX_PROPERTY_NAME cfg <? length name)%nat
             || (MAX_PROPERTY_VALUE cfg <? length value)%nat then (Again, st)
          else
            (Next, call_handler (set_prev_name (strncpy0 name (MAX_NAME cfg + 1)) st)
                     name value)
        else (Next, set_error st)
  end.

(** [while (0 != *p) { ... }]: [None] when the fuel runs out before the loop
    is left. *)
Fixpoint ini_parse_loop (fuel : nat) (p : list ascii) (st : pstate) : option pstate :=
  match p with
  | [] => Some st
  | _ :: _ =>
      match fuel with
      | 0 => None
      | S fuel' =>
          let '(text, nextLine) := split_line p in
          let line := firstn (MAX_LINE - 1) text in
          match process_line line st with
          | (Again, st') => ini_parse_loop fuel' p st'
          | (Next, st') =>
              match nextLine with
              | None => Some st'
              | Some p' => ini_parse_loop fuel' p' st'
              end
          end
      end
  end.

Definition init_pstate (u : U) : pstate :=
  {| section := []; prev_name := []; lineno := 0; error := 0; user := u |}.

(** [ini_parse_file(file, handler, user)]: the value returned, 0 or the
    number of the first line in error, and what the handler left behind. *)
Definition ini_parse_file (fuel : nat) (file : list ascii) (u : U) : option (nat * U) :=
  match ini_parse_loop fuel file (init_pstate u) with
  | Some st => Some (error st, user st)
  | None => None
  end.

End Parser.

Arguments section {U} _.
Arguments prev_name {U} _.
Arguments lineno {U} _.
Arguments error {U} _.
Arguments user {U} _.

(** *** The file content cache *)

(** The file system, the [std::map] behind [ini_data_for_file] (a null entry
    is what [operator[]] creates and what an invalidation leaves), the
    files read from disk so far, and the names the invalidation callback
    was given. *)
Record world : Type := {
  fs : gmap (list ascii) (list ascii);
  file_cache : gmap (list ascii) (option (list ascii));
  disk_reads : list (list ascii);
  invalidated : list (list ascii)
}.

(** [ini_data_from_file(filename)]: open, fstat, read. *)
Definition ini_data_from_file (filename : list ascii) (w : world)
    : option (list ascii) * world :=
  match fs w !! filename with
  | None => (None, w)
  | Some data =>
      (Some data,
       {| fs := fs w; file_cache := file_cache w;
          disk_reads := disk_reads w ++ [filename];
          invalidated := invalidated w |})
  end.

(** [ini_data_for_file(filename, data)]: a fetch when [data] is null, a
    store (which returns null) otherwise. *)
Definition ini_data_for_file (filename : list ascii) (data : option (list ascii))
    (w : world) : option (list ascii) * world :=
  match data with
  | None =>
      let entry := default None (file_cache w !! filename) in
      (entry,
       {| fs := fs w; file_cache := <[filename := entry]> (file_cache w);
          disk_reads := disk_reads w; invalidated := invalidated w |})
  | Some d =>
      (None,
       {| fs := fs w; file_cache := <[filename := Some d]> (file_cache w);
          disk_reads := disk_reads w; invalidated := invalidated w |})
  end.

(** The event handler of the dispatch source of a cached file. *)
Definition vnode_event (filename : list ascii) (w : world) : world :=
  {| fs := fs w; file_cache := <[filename := None]> (file_cache w);
     disk_reads := disk_reads w;
     invalidated := invalidated w ++ [filename] |}.

(** [ini_parse(filename, handler, user)]: -1 when the file cannot be read. *)
Definition ini_parse (cfg : config) {U : Type}
    (handler : U -> list ascii -> list ascii -> list ascii -> U * bool)
    (fuel : nat) (filename : list ascii) (u : U) (w : world)
    : option (Z * U * world) :=
  let '(cached, w1) := ini_data_for_file filename None w in
  let '(data, wasCached, w2) :=
    match cached with
    | Some d => (Some d, true, w1)
    | None => let '(d, w') := ini_data_from_file filename w1 in (d, false, w')
    end in
  match data with
  | None => Some ((-1)%Z, u, w2)
  | Some d =>
      match ini_parse_file cfg U handler fuel d u with
      | None => None
      | Some (err, u') =>
          Some (Z.of_nat err, u',
                if (err =? 0)%nat && negb wasCached
                then snd (ini_data_for_file filename (Some d) w2)
                else w2)
      end
  end.

End Ini.

(* ===================================================================== *)
(** ** Specification-level notions *)
(* ===================================================================== *)


(** The expression that matches the text [w] character by character, as
    [pcre2_compile] builds it for a run of literals closed by [$]. *)
Definition literal_regex (w : list ascii) : Pcre.regex :=
  fold_right (fun c r => Pcre.RSeq (Pcre.RChar c) r)
             (Pcre.RSeq Pcre.REol Pcre.REmpty) w.

(** A pattern of [n] copies of one character. *)
Definition run_of (c : ascii) (n : nat) : list ascii := repeat c n.

(** Letters, digits, braces and commas: the characters of a pattern such
    as [a{b]. *)
Definition plain_char (x : ascii) : bool :=
  C.isalnum x || Ascii.eqb x "{" || Ascii.eqb x "}" || Ascii.eqb x ",".

(** How the translation writes such a character when braces are literal. *)
Definition escaped (x : ascii) : list ascii :=
  if C.isalnum x then [x] else ["\"%char; x].

(** The characters that mean something to the translation or to the
    engine. *)
Definition special (x : ascii) : bool :=
  existsb (Ascii.eqb x) (cs "\?*[]-{},/()|.^$+").

(** The text does not start with a quantifier. *)
Definition no_quant_head (s : list ascii) : bool :=
  match s with
  | [] => true
  | h :: _ => negb (Ascii.eqb h "*" || Ascii.eqb h "+" || Ascii.eqb h "?" || Ascii.eqb h "{")
  end.

(** Two states of the translation with the same number ranges and the same
    brace nesting. *)
Definition same_braces (st st' : Glob.tstate) : Prop :=
  Glob.nums st' = Glob.nums st /\ Glob.brace_level st' = Glob.brace_level st.

(** A section line whose name is one character longer than the limit. *)
Definition long_section_line (cfg : Ini.config) : list ascii :=
  "["%char :: repeat "a"%char (S (Ini.MAX_SECTION_NAME cfg)) ++ ["]"%char].

(** A property line whose name is one character longer than the limit. *)
Definition long_name_line (cfg : Ini.config) : list ascii :=
  repeat "a"%char (S (Ini.MAX_PROPERTY_NAME cfg)) ++ cs "=v".

(** Limits as EditorConfig sets them, for the examples: a section name of
    4096 characters, a property name of 1024, a value of 4096. *)
Definition editorconfig_limits : Ini.config :=
  {| Ini.MAX_SECTION_NAME := 4096; Ini.MAX_PROPERTY_NAME := 1024;
     Ini.MAX_PROPERTY_VALUE := 4096; Ini.INI_ALLOW_BOM := true;
     Ini.INI_ALLOW_MULTILINE := false |}.

(** A handler that notes every triple it is given; it refuses the names in
    [bad]. *)
Definition recorder (bad : list (list ascii))
    (u : list (list ascii * list ascii * list ascii))
    (section name value : list ascii)
    : list (list ascii * list ascii * list ascii) * bool :=
  (u ++ [(section, name, value)],
   negb (existsb (fun b => C.starts_with b name && C.starts_with name b) bad)).

(** A world with one file and nothing cached. *)
Definition one_file (filename data : list ascii) : Ini.world :=
  {| Ini.fs := {[ filename := data ]}; Ini.file_cache := ∅;
     Ini.disk_reads := []; Ini.invalidated := [] |}.

(** *** Notions for the further properties *)


(** The length of the longest line of a text: [cur] characters of the
    current line have been seen. *)
Fixpoint longest_line (cur : nat) (p : list ascii) : nat :=
  match p with
  | [] => cur
  | x :: p' =>
      if Ascii.eqb x C.newline then Nat.max cur (longest_line 0 p')
      else longest_line (S cur) p'
  end.

(** The lines of a text: the pieces between newline characters.  A newline
    at the end of the text does not open one more line. *)
Fixpoint text_lines (p : list ascii) : list (list ascii) :=
  match p with
  | [] => []
  | x :: p' =>
      if Ascii.eqb x C.newline then [] :: text_lines p'
      else match text_lines p' with
           | [] => [[x]]
           | l :: ls => (x :: l) :: ls
           end
  end.

(** What the lines of a text leave behind, one after the other: each line is
    cut to [MAX_LINE - 1] characters and given to the body of the loop. *)
Definition handle_lines (cfg : Ini.config) (U : Type)
    (handler : U -> list ascii -> list ascii -> list ascii -> U * bool)
    (lines : list (list ascii)) (st : Ini.pstate U) : Ini.pstate U :=
  fold_left
    (fun st line =>
       snd (Ini.process_line cfg U handler (firstn (Ini.MAX_LINE - 1) line) st))
    lines st.

(** The text made of the lines [ls], each closed by a newline. *)
Definition unlines (ls : list (list ascii)) : list ascii :=
  flat_map (fun l => l ++ [C.newline]) ls.

(** *** Patterns made of tokens *)

(** A character that the translation treats as itself wherever it stands
    outside brackets: anything but the backslash, the two wildcards, the
    brackets and the braces. *)
Definition ordinary (x : ascii) : bool :=
  negb (Ascii.eqb x "\" || Ascii.eqb x "?" || Ascii.eqb x "*" || Ascii.eqb x "["
        || Ascii.eqb x "]" || Ascii.eqb x "{" || Ascii.eqb x "}").

(** The loop that [Pcre.mt] runs for a repetition, under a name of its
    own. *)
Definition rep_loop (r1 : Pcre.regex) (lo : nat) (hi : option nat) (k : Pcre.kont)
    : nat -> nat -> nat -> list ascii -> Pcre.captures -> option Pcre.captures :=
  fix loop (fuel n pos : nat) (s : list ascii) (caps : Pcre.captures) {struct fuel}
    : option Pcre.captures :=
    let leave := if (lo <=? n)%nat then k pos s caps else None in
    match fuel with
    | 0 => leave
    | S fuel' =>
        if Pcre.at_max hi n then leave
        else
          match Pcre.mt r1 pos s caps (fun pos' s' caps' =>
                  if (pos' =? pos)%nat then k pos' s' caps'
                  else loop fuel' (S n) pos' s' caps') with
          | Some c => Some c
          | None => leave
          end
    end.

(** An expression that takes exactly one character, those that satisfy
    [P]. *)
Definition one_char (a : Pcre.regex) (P : ascii -> bool) : Prop :=
  forall pos s caps (k : Pcre.kont),
    Pcre.mt a pos s caps k =
      match s with
      | x :: s' => if P x then k (S pos) s' caps else None
      | [] => None
      end.

(** The expression of [kNumberPattern] after its [^]. *)
Definition number_body : Pcre.regex :=
  Eval vm_compute in
    match Glob.number_regex with
    | Pcre.RSeq _ r => r
    | r => r
    end.

(** The two one-character classes of [kNumberPattern]. *)
Definition is_sign (x : ascii) : bool := Ascii.eqb x "+" || Ascii.eqb x "-".

(** A run of literal characters in front of the expression [r]. *)
Definition lit_seq (w : list ascii) (r : Pcre.regex) : Pcre.regex :=
  fold_right (fun c acc => Pcre.RSeq (Pcre.RChar c) acc) r w.
























(** *** Patterns made of tokens and of choices between sequences of tokens *)


















(** *** Numeric ranges *)






(** What is inside the group that the translation writes for a range:
    [[\+\-]?\d+]. *)
Definition numeral_regex : Pcre.regex :=
  Pcre.RSeq (Pcre.RRepeat 0 (Some 1) (Pcre.RClass false [Pcre.CChar "+"; Pcre.CChar "-"]))
    (Pcre.RSeq (Pcre.RRepeat 1 None (Pcre.RClass false [Pcre.CDigit])) Pcre.REmpty).


(** *** Room in the buffers *)

(** One turn of the translation loop went well: it ended with new locals,
    and what it wrote and what it left to read are paid for by the weight
    [W] of what was there to read, three characters of expression and one
    character of [l_pattern] for each unit. *)
Definition safe_result (st : Glob.tstate) (W : nat)
    (r : Glob.tres (list ascii * Glob.tstate)) : Prop :=
  exists c' st',
    r = Glob.TOk (c', st') /\
    (Glob.p_pcre st' + 3 * Glob.weight c' <= Glob.p_pcre st + 3 * W)%nat /\
    (Glob.l_len st' + Glob.weight c' <= Glob.l_len st + W)%nat /\
    (Glob.weight c' < W)%nat.

(* ===================================================================== *)
(** ** Properties of [ec_glob] *)
(* ===================================================================== *)

Section GlobFacts.

Import Pcre Glob.

Lemma number_pattern_compiles : ec_glob_number_pattern = Ok number_regex.
Proof. vm_compute. reflexivity. Qed.

(** What [ec_atoi] returns is an [int]. *)
Lemma ec_atoi_int (s : list ascii) : (INT_MIN <= ec_atoi s <= INT_MAX)%Z.
Proof.
  unfold ec_atoi, to_int, INT_MIN, INT_MAX.
  pose proof (Z.mod_pos_bound (numeral_value s + 2 ^ 31) (2 ^ 32) ltac:(lia)). lia.
Qed.

(** In a fresh process the outcome of [ec_glob] is that of compiling the
    pattern and running the match. *)
Lemma glob_match_in_fresh (env : resources) (pattern string : list ascii) :
  (S (length pattern) <= BUF_SIZE)%nat ->
  glob_match_in env pattern string =
    match compile_pattern pattern with
    | inl e => e
    | inr (re, nums) => run_match env re nums string
    end.
Proof.
  intros Hlen. unfold glob_match_in, ec_glob.
  destruct (Nat.ltb_spec BUF_SIZE (S (length pattern))) as [Hlt | _]; [lia |].
  destruct pattern as [| x pattern]; simpl.
  - destruct (compile_pattern []) as [e | [re nums]]; reflexivity.
  - rewrite lookup_empty. simpl.
    destruct (compile_pattern (x :: pattern)) as [e | [re nums]]; reflexivity.
Qed.

Lemma glob_match_fresh (pattern string : list ascii) :
  (S (length pattern) <= BUF_SIZE)%nat ->
  glob_match pattern string =
    match compile_pattern pattern with
    | inl e => e
    | inr (re, nums) => run_match enough re nums string
    end.
Proof. apply glob_match_in_fresh. Qed.

(** With resources in plenty the engine answers with what the search
    finds. *)
Lemma run_match_enough (re : regex) (nums : list int_pair) (string : list ascii) :
  run_match enough re nums string =
    match pcre2_match re string with
    | None => EC_GLOB_NOMATCH
    | Some caps =>
        match check_ranges (fun _ => true) string caps 1 nums with
        | RangesPassed => GLOB_MATCH
        | RangesBreak => EC_GLOB_NOMATCH
        | RangesNoMemory => GLOB_ERROR (-2)
        | RangesUndefined => GLOB_UNDEFINED
        end
    end.
Proof.
  unfold run_match, pcre2_match_limited, engine_error. cbn [enough gives_up strndup_ok].
  destruct (pcre2_match re string); reflexivity.
Qed.

(** *** Matching a run of literals *)

Lemma mt_literal (w : list ascii) :
  forall pos s caps (k : kont) r,
    mt (literal_regex w) pos s caps k = Some r <->
    exists tl, s = w ++ tl /\ (tl = [] \/ tl = [C.newline]) /\
               k (pos + length w)%nat tl caps = Some r.
Proof.
  induction w as [| c w IH]; intros pos s caps k r.
  - cbn [literal_regex fold_right mt length app]. rewrite Nat.add_0_r. split.
    + destruct s as [| x [| y s]].
      * intros H. exists []. auto.
      * destruct (Ascii.eqb_spec x C.newline) as [-> |]; [| discriminate].
        intros H. exists [C.newline]. auto.
      * discriminate.
    + intros (tl & -> & [-> | ->] & H); [exact H |].
      cbn. exact H.
  - cbn [literal_regex fold_right mt length app].
    change (fold_right (fun c r => RSeq (RChar c) r) (RSeq REol REmpty) w)
      with (literal_regex w).
    split.
    + destruct s as [| x s]; [discriminate |].
      destruct (Ascii.eqb_spec x c) as [-> |]; [| discriminate].
      intros H. apply IH in H. destruct H as (tl & -> & Htl & H).
      exists tl. split; [reflexivity |]. split; [exact Htl |].
      rewrite <- Nat.add_succ_comm. exact H.
    + intros (tl & -> & Htl & H). rewrite Ascii.eqb_refl.
      apply IH. exists tl. split; [reflexivity |]. split; [exact Htl |].
      rewrite Nat.add_succ_comm. exact H.
Qed.

Lemma search_not_at_start (r : regex) (s : list ascii) :
  forall pos, search (RSeq RBol r) (S pos) s = None.
Proof.
  induction s as [| x s IH]; intros pos; cbn [search mt]; cbn [Nat.eqb].
  - reflexivity.
  - apply IH.
Qed.

Lemma search_anchored (r : regex) (s : list ascii) :
  pcre2_match (RSeq RBol r) s =
    mt r 0 s [] (fun pos' _ caps => Some ((0, (0, pos')) :: caps)%nat).
Proof.
  unfold pcre2_match. destruct s as [| x s]; cbn [search mt Nat.eqb].
  - destruct (mt r 0 [] [] _); reflexivity.
  - rewrite search_not_at_start.
    destruct (mt r 0 (x :: s) [] _); reflexivity.
Qed.

(** An anchored run of literals matches the text itself and the text
    followed by one newline, nothing else. *)
Lemma literal_match (w s : list ascii) :
  run_match enough (RSeq RBol (literal_regex w)) [] s = GLOB_MATCH <->
  s = w \/ s = w ++ [C.newline].
Proof.
  rewrite run_match_enough. rewrite search_anchored.
  destruct (mt (literal_regex w) 0 s [] _) as [caps |] eqn:E.
  - apply mt_literal in E. destruct E as (tl & -> & Htl & _).
    cbn [check_ranges]. split; [intros _ | reflexivity].
    destruct Htl as [-> | ->]; [left; apply app_nil_r | right; reflexivity].
  - split; [discriminate |]. intros Hs. exfalso.
    assert (H : exists r, mt (literal_regex w) 0 s []
                  (fun pos' _ caps => Some ((0, (0, pos')) :: caps)%nat) = Some r).
    { destruct Hs as [-> | ->]; eexists; apply mt_literal.
      - exists []. rewrite app_nil_r. split; [reflexivity |]. split; [left; reflexivity |].
        reflexivity.
      - exists [C.newline]. split; [reflexivity |]. split; [right; reflexivity |].
        reflexivity. }
    destruct H as [r H]. rewrite H in E. discriminate.
Qed.

Lemma literal_no_match (w s : list ascii) :
  run_match enough (RSeq RBol (literal_regex w)) [] s <> GLOB_MATCH ->
  run_match enough (RSeq RBol (literal_regex w)) [] s = EC_GLOB_NOMATCH.
Proof.
  rewrite run_match_enough. destruct (pcre2_match _ s); [| reflexivity].
  cbn [check_ranges]. congruence.
Qed.

(** *** Patterns of letters, digits, braces and commas *)

Lemma alnum_not_special (x : ascii) : C.isalnum x = true -> special x = false.
Proof.
  destruct x as [[] [] [] [] [] [] [] []]; vm_compute; intros H;
    first [discriminate H | reflexivity].
Qed.

Lemma special_spec (x y : ascii) :
  special x = false -> In y (cs "\?*[]-{},/()|.^$+") -> Ascii.eqb x y = false.
Proof.
  unfold special. intros H Hy.
  destruct (Ascii.eqb x y) eqn:E; [| reflexivity].
  rewrite <- H. symmetry. apply existsb_exists. exists y. split; assumption.
Qed.

Ltac not_special H :=
  apply (special_spec _ _ H); vm_compute; tauto.

Lemma plain_char_cases (x : ascii) :
  plain_char x = true ->
  C.isalnum x = true \/ x = "{"%char \/ x = "}"%char \/ x = ","%char.
Proof.
  unfold plain_char. intros H.
  destruct (C.isalnum x); [left; reflexivity | right].
  destruct (Ascii.eqb_spec x "{"%char); [auto |].
  destruct (Ascii.eqb_spec x "}"%char); [auto |].
  destruct (Ascii.eqb_spec x ","%char); [auto | discriminate].
Qed.

(** **** Their translation *)

Lemma emit_emit (st : tstate) (a b : list ascii) :
  emit (emit st a) b = emit st (a ++ b).
Proof.
  unfold emit. simpl. rewrite <- app_assoc, length_app, Nat.add_assoc. reflexivity.
Qed.

Lemma put_ok (st : tstate) (x : ascii) :
  (p_pcre st < BUF_SIZE)%nat -> put st x = TOk (emit st [x]).
Proof.
  intros H. unfold put.
  destruct (Nat.leb_spec BUF_SIZE (p_pcre st)); [lia | reflexivity].
Qed.

Lemma STRING_CAT_ok (st : tstate) (str : list ascii) :
  (p_pcre st + length str < BUF_SIZE)%nat -> STRING_CAT st str = TOk (emit st str).
Proof.
  intros H. unfold STRING_CAT.
  destruct (Nat.leb_spec BUF_SIZE (p_pcre st + length str)); [lia | reflexivity].
Qed.

Lemma translate_step_plain (re : regex) (x : ascii) (c1 : list ascii) (st : tstate) :
  plain_char x = true ->
  (brace_level st <= 0)%Z ->
  (p_pcre st + 2 < BUF_SIZE)%nat ->
  translate_step false re x c1 st = TOk (c1, emit st (escaped x)).
Proof.
  intros Hx Hb Hp.
  assert (Hlvl : (0 <? brace_level st)%Z = false) by (apply Z.ltb_ge; exact Hb).
  destruct (plain_char_cases x Hx) as [Ha | [-> | [-> | ->]]].
  - pose proof (alnum_not_special x Ha) as Hs.
    unfold translate_step, escaped.
    replace (Ascii.eqb x "\") with false by (symmetry; not_special Hs).
    replace (Ascii.eqb x "?") with false by (symmetry; not_special Hs).
    replace (Ascii.eqb x "*") with false by (symmetry; not_special Hs).
    replace (Ascii.eqb x "[") with false by (symmetry; not_special Hs).
    replace (Ascii.eqb x "]") with false by (symmetry; not_special Hs).
    replace (Ascii.eqb x "-") with false by (symmetry; not_special Hs).
    replace (Ascii.eqb x "{") with false by (symmetry; not_special Hs).
    replace (Ascii.eqb x "}") with false by (symmetry; not_special Hs).
    replace (Ascii.eqb x ",") with false by (symmetry; not_special Hs).
    replace (Ascii.eqb x "/") with false by (symmetry; not_special Hs).
    rewrite Ha. rewrite put_ok by lia. reflexivity.
  - unfold translate_step, escaped. cbn [Ascii.eqb Bool.eqb negb].
    change (C.isalnum "{") with false. cbv match.
    rewrite STRING_CAT_ok by (simpl; lia). reflexivity.
  - unfold translate_step, escaped. cbn [Ascii.eqb Bool.eqb negb].
    change (C.isalnum "}") with false. cbv match.
    rewrite STRING_CAT_ok by (simpl; lia). reflexivity.
  - unfold translate_step, escaped. cbn [Ascii.eqb Bool.eqb negb].
    change (C.isalnum ",") with false. cbv match. rewrite Hlvl.
    rewrite STRING_CAT_ok by (simpl; lia). reflexivity.
Qed.

Lemma escaped_length (x : ascii) : (length (escaped x) <= 2)%nat.
Proof. unfold escaped. destruct (C.isalnum x); simpl; lia. Qed.

Lemma translate_loop_plain (re : regex) (c : list ascii) :
  Forall (fun x => plain_char x = true) c ->
  forall fuel st,
    (length c <= fuel)%nat ->
    (brace_level st <= 0)%Z ->
    (p_pcre st + 2 * length c + 1 < BUF_SIZE)%nat ->
    translate_loop fuel false re c st =
      TOk (emit st (flat_map escaped c ++ cs "$")).
Proof.
  induction 1 as [| x c Hx _ IH]; intros fuel st Hf Hb Hp.
  - destruct fuel; cbn [translate_loop]; apply put_ok; simpl in Hp; lia.
  - destruct fuel as [| fuel]; [simpl in Hf; lia |].
    cbn [translate_loop]. cbn [length] in Hp, Hf.
    rewrite translate_step_plain by (try assumption; lia).
    cbn [tbind fst snd]. rewrite IH.
    + rewrite emit_emit. cbn [flat_map]. rewrite <- app_assoc. reflexivity.
    + lia.
    + exact Hb.
    + pose proof (escaped_length x). cbn [emit p_pcre]. lia.
Qed.

(** **** Their compilation *)


Lemma parse_quant_none (a : regex) (s : list ascii) :
  no_quant_head s = true -> parse_quant a s = Ok (a, s).
Proof.
  destruct s as [| h s]; [reflexivity |].
  unfold no_quant_head, parse_quant. intros H. apply negb_true_iff in H.
  apply orb_false_iff in H. destruct H as [H H4].
  apply orb_false_iff in H. destruct H as [H H3].
  apply orb_false_iff in H. destruct H as [H1 H2].
  rewrite H1, H2, H3, H4. reflexivity.
Qed.

Lemma no_quant_head_escaped (c tl : list ascii) :
  Forall (fun x => plain_char x = true) c ->
  no_quant_head tl = true ->
  no_quant_head (flat_map escaped c ++ tl) = true.
Proof.
  intros Hc Htl. destruct Hc as [| x c Hx _]; [exact Htl |].
  cbn [flat_map]. unfold escaped.
  destruct (C.isalnum x) eqn:Ha; [| reflexivity].
  pose proof (alnum_not_special x Ha) as Hs.
  cbn [app no_quant_head].
  replace (Ascii.eqb x "*") with false by (symmetry; not_special Hs).
  replace (Ascii.eqb x "+") with false by (symmetry; not_special Hs).
  replace (Ascii.eqb x "?") with false by (symmetry; not_special Hs).
  replace (Ascii.eqb x "{") with false by (symmetry; not_special Hs).
  reflexivity.
Qed.

Lemma parse_seq_plain_step (x : ascii) (rest : list ascii) (f ncap : nat) :
  plain_char x = true ->
  no_quant_head rest = true ->
  parse_seq (S (S f)) ncap (escaped x ++ rest) =
    obind (parse_seq (S f) ncap rest)
      (fun '(r, n2, rest2) => Ok (RSeq (RChar x) r, n2, rest2)).
Proof.
  intros Hx Hq. unfold escaped.
  destruct (C.isalnum x) eqn:Ha.
  - pose proof (alnum_not_special x Ha) as Hs.
    cbn [app parse_seq parse_atom].
    replace (Ascii.eqb x "|") with false by (symmetry; not_special Hs).
    replace (Ascii.eqb x ")") with false by (symmetry; not_special Hs).
    replace (Ascii.eqb x "(") with false by (symmetry; not_special Hs).
    replace (Ascii.eqb x "[") with false by (symmetry; not_special Hs).
    replace (Ascii.eqb x "\") with false by (symmetry; not_special Hs).
    replace (Ascii.eqb x ".") with false by (symmetry; not_special Hs).
    replace (Ascii.eqb x "^") with false by (symmetry; not_special Hs).
    replace (Ascii.eqb x "$") with false by (symmetry; not_special Hs).
    replace (Ascii.eqb x "*") with false by (symmetry; not_special Hs).
    replace (Ascii.eqb x "+") with false by (symmetry; not_special Hs).
    replace (Ascii.eqb x "?") with false by (symmetry; not_special Hs).
    replace (Ascii.eqb x "{") with false by (symmetry; not_special Hs).
    cbn [orb obind]. rewrite parse_quant_none by exact Hq. reflexivity.
  - cbn [app parse_seq parse_atom].
    change (Ascii.eqb "\" "|") with false. change (Ascii.eqb "\" ")") with false.
    change (Ascii.eqb "\" "(") with false. change (Ascii.eqb "\" "[") with false.
    change (Ascii.eqb "\" "\") with true.
    cbn [orb]. cbv match. rewrite Ha. cbn [obind].
    rewrite parse_quant_none by exact Hq. reflexivity.
Qed.

Lemma parse_seq_plain (c : list ascii) :
  Forall (fun x => plain_char x = true) c ->
  forall fuel ncap,
    (length c + 2 <= fuel)%nat ->
    parse_seq fuel ncap (flat_map escaped c ++ cs "$") =
      Ok (literal_regex c, ncap, []).
Proof.
  induction 1 as [| x c Hx Hc IH]; intros fuel ncap Hf.
  - destruct fuel as [| [| f]]; [simpl in Hf; lia | simpl in Hf; lia |].
    reflexivity.
  - destruct fuel as [| [| f]]; [simpl in Hf; lia | simpl in Hf; lia |].
    cbn [flat_map]. rewrite <- app_assoc.
    rewrite parse_seq_plain_step;
      [| exact Hx | apply no_quant_head_escaped; [exact Hc | reflexivity]].
    rewrite IH by (simpl in Hf; lia). reflexivity.
Qed.

Lemma parse_alt_unfold (fuel ncap : nat) (s : list ascii) :
  parse_alt (S fuel) ncap s =
    obind (parse_seq fuel ncap s) (fun '(r1, n1, rest) =>
      match rest with
      | "|"%char :: rest' =>
          obind (parse_alt fuel n1 rest') (fun '(r2, n2, rest2) =>
          Ok (RAlt r1 r2, n2, rest2))
      | _ => Ok (r1, n1, rest)
      end).
Proof. reflexivity. Qed.

Lemma parse_seq_bol (rest : list ascii) (f ncap : nat) :
  no_quant_head rest = true ->
  parse_seq (S (S f)) ncap ("^"%char :: rest) =
    obind (parse_seq (S f) ncap rest)
      (fun '(r, n2, rest2) => Ok (RSeq RBol r, n2, rest2)).
Proof.
  intros Hq. cbn [parse_seq parse_atom].
  change (Ascii.eqb "^" "|") with false. change (Ascii.eqb "^" ")") with false.
  change (Ascii.eqb "^" "(") with false. change (Ascii.eqb "^" "[") with false.
  change (Ascii.eqb "^" "\") with false. change (Ascii.eqb "^" ".") with false.
  change (Ascii.eqb "^" "^") with true.
  cbn [orb]. cbv match. cbn [obind].
  rewrite parse_quant_none by exact Hq. reflexivity.
Qed.

Lemma compile_plain (c : list ascii) :
  Forall (fun x => plain_char x = true) c ->
  pcre2_compile (cs "^" ++ flat_map escaped c ++ cs "$") =
    Ok (RSeq RBol (literal_regex c)).
Proof.
  intros Hc. unfold pcre2_compile.
  set (s := cs "^" ++ flat_map escaped c ++ cs "$").
  assert (Hlen : (length c + 2 <= length s)%nat).
  { unfold s. rewrite !length_app. simpl.
    assert (length c <= length (flat_map escaped c))%nat; [| lia].
    clear. induction c as [| x c IH]; simpl; [lia |].
    rewrite length_app. unfold escaped at 1. destruct (C.isalnum x); simpl; lia. }
  destruct (3 * length s + 3)%nat as [| [| [| f]]] eqn:Ef; [lia | lia | lia |].
  unfold s.
  change (cs "^" ++ flat_map escaped c ++ cs "$")
    with ("^"%char :: (flat_map escaped c ++ cs "$")).
  rewrite parse_alt_unfold.
  rewrite parse_seq_bol by (apply no_quant_head_escaped; [exact Hc | reflexivity]).
  rewrite parse_seq_plain by (try exact Hc; lia).
  reflexivity.
Qed.

(** **** Putting the three together *)

Lemma weight_ge_length (c : list ascii) : (length c <= weight c)%nat.
Proof.
  induction c as [| x c IH]; simpl; [lia |].
  destruct (Ascii.eqb x "\"); lia.
Qed.

Lemma flat_map_escaped_length (c : list ascii) :
  (length (flat_map escaped c) <= 2 * length c)%nat.
Proof.
  induction c as [| x c IH]; simpl; [lia |].
  rewrite length_app. pose proof (escaped_length x). lia.
Qed.

Lemma compile_pattern_plain (pattern : list ascii) :
  Forall (fun x => plain_char x = true) pattern ->
  are_braces_paired pattern = false ->
  (2 * length pattern + 2 < BUF_SIZE)%nat ->
  compile_pattern pattern = inr (RSeq RBol (literal_regex pattern), []).
Proof.
  intros Hc Hp Hlen. unfold compile_pattern.
  rewrite number_pattern_compiles.
  unfold translate. rewrite Hp.
  rewrite translate_loop_plain;
    [| exact Hc | pose proof (weight_ge_length pattern); lia
     | simpl; lia | simpl; lia].
  cbn [tbind emit p_pcre pcre_str nums init_state].
  pose proof (flat_map_escaped_length pattern) as Hl.
  destruct (Nat.leb_spec BUF_SIZE (1 + length (flat_map escaped pattern ++ cs "$"))) as [H | _].
  { rewrite length_app in H. simpl in H. lia. }
  rewrite compile_plain by exact Hc. reflexivity.
Qed.

(** **** What every turn of the loop keeps when braces are literal *)

Lemma tbind_ok {A B : Type} (x : tres A) (f : A -> tres B) (b : B) :
  tbind x f = TOk b -> exists a, x = TOk a /\ f a = TOk b.
Proof. destruct x; simpl; intros H; try discriminate. eauto. Qed.


Lemma put_same (st st' : tstate) (x : ascii) :
  put st x = TOk st' -> same_braces st st'.
Proof.
  unfold put. destruct (BUF_SIZE <=? p_pcre st)%nat; [discriminate |].
  intros H. injection H as <-. split; reflexivity.
Qed.

Lemma STRING_CAT_same (st st' : tstate) (s : list ascii) :
  STRING_CAT st s = TOk st' -> same_braces st st'.
Proof.
  unfold STRING_CAT. destruct (BUF_SIZE <=? p_pcre st + length s)%nat; [discriminate |].
  intros H. injection H as <-. split; reflexivity.
Qed.

Lemma strcat_raw_same (st st' : tstate) (s : list ascii) :
  strcat_raw st s = TOk st' -> same_braces st st'.
Proof.
  unfold strcat_raw. destruct (BUF_SIZE <=? p_pcre st + length s)%nat; [discriminate |].
  intros H. injection H as <-. split; reflexivity.
Qed.

Lemma same_braces_trans (a b c : tstate) :
  same_braces a b -> same_braces b c -> same_braces a c.
Proof. unfold same_braces. intros [-> ->] [-> ->]. split; reflexivity. Qed.

Ltac step_inv :=
  repeat match goal with
    | H : tbind _ _ = TOk _ |- _ =>
        apply tbind_ok in H; let a := fresh "st" in let H1 := fresh "H" in
        destruct H as (a & H1 & H)
    | H : TOk _ = TOk _ |- _ => injection H as <- <-
    | H : put _ _ = TOk _ |- _ => apply put_same in H
    | H : STRING_CAT _ _ = TOk _ |- _ => apply STRING_CAT_same in H
    | H : strcat_raw _ _ = TOk _ |- _ => apply strcat_raw_same in H
    end.

Lemma translate_step_unpaired (re : regex) (x : ascii) (c1 c' : list ascii)
    (st st' : tstate) :
  translate_step false re x c1 st = TOk (c', st') -> same_braces st st'.
Proof.
  unfold translate_step. cbn [negb].
  repeat match goal with
    | |- context [if ?b then _ else _] => destruct b
    | |- context [match ?l with [] => _ | _ :: _ => _ end] => destruct l
    | |- context [match ?o with Some _ => _ | None => _ end] => destruct o
    | |- context [match ?a with Ascii _ _ _ _ _ _ _ _ => _ end] => destruct a
    end;
  intros H; step_inv;
  unfold same_braces in *; simpl in *; intuition congruence.
Qed.

Lemma translate_loop_unpaired (re : regex) :
  forall fuel c st st',
    translate_loop fuel false re c st = TOk st' -> same_braces st st'.
Proof.
  induction fuel as [| fuel IH]; intros c st st' H.
  - destruct c; [apply put_same in H; exact H | discriminate].
  - destruct c as [| x c1]; [apply put_same in H; exact H |].
    cbn [translate_loop] in H. apply tbind_ok in H.
    destruct H as ([c' st1] & Hs & H). simpl in H.
    apply translate_step_unpaired in Hs. apply IH in H.
    eapply same_braces_trans; eassumption.
Qed.

(** **** The loop always comes to its end *)

Lemma weight_app (a b : list ascii) : weight (a ++ b) = (weight a + weight b)%nat.
Proof. induction a as [| x a IH]; simpl; [reflexivity |]. rewrite IH. lia. Qed.

Lemma weight_skipn (k : nat) (c : list ascii) : (weight (skipn k c) <= weight c)%nat.
Proof.
  revert c. induction k as [| k IH]; intros c; [rewrite skipn_O; lia |].
  destruct c as [| x c]; [rewrite skipn_nil; lia |].
  change (skipn (S k) (x :: c)) with (skipn k c).
  specialize (IH c). cbn [weight]. destruct (Ascii.eqb x "\"); lia.
Qed.

Lemma weight_insert (n : nat) (c : list ascii) :
  weight (firstn n c ++ "\"%char :: skipn n c) = S (weight c).
Proof.
  rewrite weight_app. cbn [weight]. change (Ascii.eqb "\" "\") with true.
  cbv match.
  rewrite <- (firstn_skipn n c) at 3. rewrite weight_app. lia.
Qed.

Lemma put_no_fuel (st : tstate) (x : ascii) : put st x <> TOutOfFuel.
Proof. unfold put. destruct (BUF_SIZE <=? p_pcre st)%nat; discriminate. Qed.

Lemma tbind_no_fuel {A B : Type} (x : tres A) (f : A -> tres B) :
  x <> TOutOfFuel -> (forall a, x = TOk a -> f a <> TOutOfFuel) ->
  tbind x f <> TOutOfFuel.
Proof. destruct x; simpl; intros H1 H2; try discriminate; [apply H2; reflexivity | congruence]. Qed.

Ltac no_fuel :=
  repeat first
    [ apply tbind_no_fuel; [| intros ? _]
    | apply put_no_fuel
    | discriminate
    | unfold STRING_CAT; match goal with |- context [if ?b then _ else _] => destruct b end
    | unfold strcat_raw; match goal with |- context [if ?b then _ else _] => destruct b end
    | unfold grow_pattern; match goal with |- context [if ?b then _ else _] => destruct b end ].

Lemma translate_step_no_fuel (paired : bool) (re : regex) (x : ascii)
    (c1 : list ascii) (st : tstate) :
  translate_step paired re x c1 st <> TOutOfFuel.
Proof.
  unfold translate_step.
  repeat match goal with
    | |- context [if ?b then _ else _] => destruct b
    | |- context [match ?l with [] => _ | _ :: _ => _ end] => destruct l
    | |- context [match ?o with Some _ => _ | None => _ end] => destruct o
    | |- context [match ?a with Ascii _ _ _ _ _ _ _ _ => _ end] => destruct a
    end; no_fuel.
Qed.

Lemma translate_step_lighter (paired : bool) (re : regex) (x : ascii)
    (c1 c' : list ascii) (st st' : tstate) :
  translate_step paired re x c1 st = TOk (c', st') ->
  (weight c' < weight (x :: c1))%nat.
Proof.
  unfold translate_step.
  destruct (Ascii.eqb x "\") eqn:Ex.
  - cbn [weight]. rewrite Ex.
    destruct c1 as [| y c2]; intros H; step_inv.
    + simpl. lia.
    + cbn [weight]. destruct (Ascii.eqb y "\"); lia.
  - cbn [weight]. rewrite Ex.
    assert (Hgoal : (weight c' <= S (weight c1))%nat -> (weight c' < 2 + weight c1)%nat) by lia.
    intros H. apply Hgoal. clear Hgoal. revert H.
    pose proof (weight_skipn 1 c1) as W1.
    pose proof (weight_skipn 3 c1) as W3.
    repeat match goal with
      | |- context [if ?b then _ else _] => destruct b
      | |- context [match ?l with [] => _ | _ :: _ => _ end] => destruct l
      | |- context [match ?o with Some _ => _ | None => _ end] => destruct o
      | |- context [match ?a with Ascii _ _ _ _ _ _ _ _ => _ end] => destruct a
      end;
    intros H; step_inv;
    try (rewrite weight_insert);
    try match goal with
      | |- context [weight (skipn ?k ?c)] => pose proof (weight_skipn k c)
      end;
    cbn [weight] in *; first [discriminate | lia].
Qed.

Lemma translate_loop_ends (paired : bool) (re : regex) :
  forall fuel c st,
    (weight c < fuel)%nat -> translate_loop fuel paired re c st <> TOutOfFuel.
Proof.
  induction fuel as [| fuel IH]; intros c st Hf; [lia |].
  destruct c as [| x c1]; [apply put_no_fuel |].
  cbn [translate_loop]. apply tbind_no_fuel; [apply translate_step_no_fuel |].
  intros [c' st'] Hs. cbn [fst snd]. apply IH.
  apply translate_step_lighter in Hs. lia.
Qed.

(** [ec_glob] never stops for lack of fuel: it has the translation, an
    error code, or a buffer overrun. *)
Lemma translate_total (re : regex) (pattern : list ascii) :
  translate re pattern <> TOutOfFuel.
Proof.
  unfold translate. apply tbind_no_fuel.
  - apply translate_loop_ends. lia.
  - intros st _. destruct (BUF_SIZE <=? p_pcre st)%nat; discriminate.
Qed.

(** C1: the range list and the capturing groups do not stay aligned once the
    pattern has the /**/ construct, which the translation writes as a
    capturing group of its own.  For [a/**/{1..5}] the one range is checked
    against group 1, the text matched by /**/, while the number is in
    group 2: candidate [a/3] is refused although 3 lies in 1..5, and
    [a/**/{0..0}] accepts [a/7]. *)
Theorem slash_stars_group_takes_the_range_slot :
  (exists re caps,
      compile_pattern (cs "a/**/{1..5}") = inr (re, [(1, 5)%Z]) /\
      pcre2_match re (cs "a/3") = Some caps /\
      cap_lookup 1 caps = Some (1, 2)%nat /\
      cap_lookup 2 caps = Some (2, 3)%nat) /\
  glob_match (cs "a/**/{1..5}") (cs "a/3") = EC_GLOB_NOMATCH /\
  glob_match (cs "a/**/{0..0}") (cs "a/7") = GLOB_MATCH.
Proof.
  split; [| split; vm_compute; reflexivity].
  eexists. eexists. split; [vm_compute; reflexivity |].
  split; [vm_compute; reflexivity |]. split; reflexivity.
Qed.

(** C2: the three examples of the claim hold, but the zero test looks at the
    first character only: the single character [0] is refused for the
    range 0..5, while [-0], which parses to the same number, is accepted. *)
Theorem lone_zero_is_rejected :
  glob_match (cs "{1..5}") (cs "3") = GLOB_MATCH /\
  glob_match (cs "{1..5}") (cs "6") = EC_GLOB_NOMATCH /\
  glob_match (cs "{1..5}") (cs "03") = EC_GLOB_NOMATCH /\
  glob_match (cs "{0..5}") (cs "0") = EC_GLOB_NOMATCH /\
  glob_match (cs "{0..5}") (cs "-0") = GLOB_MATCH.
Proof. repeat split; vm_compute; reflexivity. Qed.

(** C5: a bracket run with a slash in it is copied into the expression as it
    stands, only its two brackets are escaped: [[a/.]] becomes the expression
    [^\[a/.\]$].  A dot in the run is still the engine's wildcard, so the
    pattern [[a/.]] matches the candidate [[a/b]], a text other than its
    own. *)
Theorem slash_bracket_run_keeps_engine_metacharacters :
  translate number_regex (cs "[a/.]") = TOk (cs "^\[a/.\]$", []) /\
  glob_match (cs "[a/.]") (cs "[a/b]") = GLOB_MATCH /\
  glob_match (cs "[a/b]") (cs "[a/b]") = GLOB_MATCH.
Proof.
  repeat split; vm_compute; reflexivity.
Qed.

(** C7: only STRING_CAT tests the end of [pcre_str].  A run of [PATTERN_MAX]
    question marks is stopped by it with -1, but for a run of [PATTERN_MAX]
    dots, each written as a backslash and the dot by two plain stores, the
    last store lands one past the end of the buffer. *)
Theorem plain_stores_run_past_the_buffer :
  (forall string, glob_match (run_of "?" PATTERN_MAX) string = GLOB_ERROR (-1)) /\
  (forall string, glob_match (run_of "." PATTERN_MAX) string = GLOB_UNDEFINED) /\
  translate number_regex (run_of "." PATTERN_MAX) = TOutOfBounds.
Proof.
  split; [| split].
  - intros string. rewrite glob_match_fresh.
    + assert (H : compile_pattern (run_of "?" PATTERN_MAX) = inl (GLOB_ERROR (-1)))
        by (vm_compute; reflexivity).
      rewrite H. reflexivity.
    + vm_compute. lia.
  - intros string. rewrite glob_match_fresh.
    + assert (H : compile_pattern (run_of "." PATTERN_MAX) = inl GLOB_UNDEFINED)
        by (vm_compute; reflexivity).
      rewrite H. reflexivity.
    + vm_compute. lia.
  - vm_compute. reflexivity.
Qed.

(** C4, as amended: for a pattern whose unescaped braces are not balanced,
    the translation records no number range and opens no alternation group
    (the range list is empty and the nesting counter is 0 when the loop
    ends), and a brace or a comma that the loop comes to is written as an
    escaped literal.  A pattern of letters, digits, braces and commas with
    unbalanced braces that fits the buffer, such as [a{b], matches the
    candidate equal to it, that candidate followed by one newline, and
    nothing else. *)
Theorem unbalanced_braces_are_literal (pattern : list ascii) :
  are_braces_paired pattern = false ->
  (forall re fuel st',
      translate_loop fuel (are_braces_paired pattern) re pattern (init_state pattern)
        = TOk st' ->
      nums st' = [] /\ brace_level st' = 0%Z) /\
  (forall re x c1 st,
      (x = "{"%char \/ x = "}"%char \/ (x = ","%char /\ brace_level st = 0%Z)) ->
      translate_step (are_braces_paired pattern) re x c1 st =
        tbind (STRING_CAT st ["\"%char; x]) (fun st1 => TOk (c1, st1))) /\
  (Forall (fun x => plain_char x = true) pattern ->
   (2 * length pattern + 2 < BUF_SIZE)%nat ->
   forall string,
     glob_match pattern string = GLOB_MATCH <->
     string = pattern \/ string = pattern ++ [C.newline]).
Proof.
  intros Hp. rewrite Hp. split; [| split].
  - intros re fuel st' H. apply translate_loop_unpaired in H.
    destruct H as [H1 H2]. rewrite H1, H2. split; reflexivity.
  - intros re x c1 st [-> | [-> | [-> Hb]]]; try reflexivity.
    unfold translate_step. cbn [Ascii.eqb Bool.eqb]. cbv match. rewrite Hb. reflexivity.
  - intros Hc Hlen string.
    rewrite glob_match_fresh by lia.
    rewrite compile_pattern_plain by assumption.
    apply literal_match.
Qed.

(** The pattern [a{b] of the claim. *)
Lemma unbalanced_braces_are_literal_witness :
  are_braces_paired (cs "a{b") = false /\
  (glob_match (cs "a{b") (cs "a{bc") = GLOB_MATCH <->
   cs "a{bc" = cs "a{b" \/ cs "a{bc" = cs "a{b" ++ [C.newline]).
Proof.
  split; [reflexivity |].
  apply (unbalanced_braces_are_literal (cs "a{b")).
  - reflexivity.
  - repeat constructor.
  - vm_compute. lia.
Defined.

(** C4 as stated fails: [a{b] also matches a candidate other than [a{b],
    since [$] is satisfied just before a newline that ends the subject. *)
Lemma unbalanced_pattern_matches_with_newline :
  are_braces_paired (cs "a{b") = false /\
  glob_match (cs "a{b") (cs "a{b" ++ [C.newline]) = GLOB_MATCH /\
  cs "a{b" ++ [C.newline] <> cs "a{b".
Proof. split; [reflexivity |]. split; [vm_compute; reflexivity | discriminate]. Qed.

(** C10, as amended: the empty brace pair is the {single} case: [{}] is
    translated to [^\{\}$], both braces escaped, and matches the candidate
    [{}], the candidate [{}] followed by one newline, and nothing else. *)
Theorem empty_braces_are_literal :
  translate number_regex (cs "{}") = TOk (cs "^\{\}$", []) /\
  forall string,
    glob_match (cs "{}") string = GLOB_MATCH <->
    string = cs "{}" \/ string = cs "{}" ++ [C.newline].
Proof.
  split.
  - vm_compute. reflexivity.
  - intros string. rewrite glob_match_fresh by (vm_compute; lia).
    assert (H : compile_pattern (cs "{}") = inr (RSeq RBol (literal_regex (cs "{}")), []))
      by (vm_compute; reflexivity).
    rewrite H. apply literal_match.
Qed.

(** C10 as stated fails: [{}] matches a candidate other than [{}]. *)
Lemma empty_braces_match_with_newline :
  glob_match (cs "{}") (cs "{}" ++ [C.newline]) = GLOB_MATCH /\
  cs "{}" ++ [C.newline] <> cs "{}".
Proof. split; [vm_compute; reflexivity | discriminate]. Qed.

End GlobFacts.

(* ===================================================================== *)
(** ** Properties of the INI parser *)
(* ===================================================================== *)

Section IniFacts.

Import Ini.

(** *** White space at both ends *)

Lemma drop_while_app_stop (f : ascii -> bool) (a : list ascii) (x : ascii) (b : list ascii) :
  f x = false ->
  drop_while f (a ++ x :: b) = drop_while f a ++ x :: b.
Proof.
  intros Hx. induction a as [| y a IH]; simpl.
  - rewrite Hx. reflexivity.
  - destruct (f y); [exact IH | reflexivity].
Qed.

Lemma drop_while_all (f : ascii -> bool) (a : list ascii) :
  Forall (fun x => f x = true) a -> drop_while f a = [].
Proof.
  induction 1 as [| x a Hx _ IH]; simpl; [reflexivity |].
  rewrite Hx. exact IH.
Qed.

Lemma drop_while_In (f : ascii -> bool) (s : list ascii) (x : ascii) :
  In x (drop_while f s) -> In x s.
Proof.
  induction s as [| y s IH]; simpl; [tauto |].
  destruct (f y); simpl; tauto.
Qed.


Lemma drop_while_fixed (f : ascii -> bool) (x : ascii) (s : list ascii) :
  f x = false -> drop_while f (x :: s) = x :: s.
Proof. intros H. simpl. rewrite H. reflexivity. Qed.

(** [rstrip] leaves alone what stands before a character that is not white
    space. *)
Lemma rstrip_app_stop (a : list ascii) (x : ascii) (b : list ascii) :
  C.isspace x = false ->
  rstrip (a ++ x :: b) = a ++ x :: rstrip b.
Proof.
  intros Hx. unfold rstrip.
  rewrite rev_app_distr. simpl. rewrite <- app_assoc. simpl.
  rewrite drop_while_app_stop by exact Hx.
  rewrite rev_app_distr. simpl. rewrite rev_involutive, <- app_assoc. reflexivity.
Qed.

Lemma rstrip_nil : rstrip [] = [].
Proof. reflexivity. Qed.

Lemma rstrip_all (s : list ascii) :
  Forall (fun x => C.isspace x = true) s -> rstrip s = [].
Proof.
  intros H. unfold rstrip. rewrite drop_while_all; [reflexivity |].
  apply Forall_rev. exact H.
Qed.

Lemma rstrip_In (s : list ascii) (x : ascii) : In x (rstrip s) -> In x s.
Proof.
  unfold rstrip. intros H. apply in_rev in H. apply drop_while_In in H.
  apply in_rev in H. exact H.
Qed.





(** *** The two searches *)

Lemma find_char_stops (c : ascii) (a b : list ascii) :
  Forall (fun x => Ascii.eqb x c = false /\ is_comment_char x = false) a ->
  forall ws, find_char_or_comment_from ws (a ++ c :: b) c = length a.
Proof.
  induction 1 as [| x a [Hx Hc] _ IH]; intros ws; simpl.
  - rewrite Ascii.eqb_refl. reflexivity.
  - rewrite Hx, Hc, andb_false_r. simpl. rewrite IH. reflexivity.
Qed.


Lemma char_at_middle (a : list ascii) (x : ascii) (b : list ascii) :
  char_at (a ++ x :: b) (length a) = x.
Proof. unfold char_at. apply nth_middle. Qed.


Lemma firstn_exact (a b : list ascii) : firstn (length a) (a ++ b) = a.
Proof.
  induction a as [| x a IH]; simpl; [destruct b; reflexivity |].
  rewrite IH. reflexivity.
Qed.





(** A line on which the body of the loop is left by [continue] is read
    again and again: [p] never moves past it. *)
Lemma loop_never_leaves (cfg : config) (U : Type)
    (handler : U -> list ascii -> list ascii -> list ascii -> U * bool)
    (p text : list ascii) (nextLine : option (list ascii)) :
  p <> [] ->
  split_line p = (text, nextLine) ->
  (forall st, fst (process_line cfg U handler (firstn (MAX_LINE - 1) text) st) = Again) ->
  forall fuel st, ini_parse_loop cfg U handler fuel p st = None.
Proof.
  intros Hp Hsplit Hagain fuel.
  induction fuel as [| fuel IH]; intros st.
  - destruct p; [congruence | reflexivity].
  - destruct p as [| x p']; [congruence |].
    cbn [ini_parse_loop]. rewrite Hsplit.
    specialize (Hagain st).
    destruct (process_line cfg U handler (firstn (MAX_LINE - 1) text) st) as [f st'].
    simpl in Hagain. subst f. apply IH.
Qed.

Lemma split_line_run (c : ascii) (n : nat) (rest : list ascii) :
  Ascii.eqb c C.newline = false ->
  split_line (repeat c n ++ rest) =
    (repeat c n ++ fst (split_line rest), snd (split_line rest)).
Proof.
  intros Hc. induction n as [| n IH]; simpl.
  - destruct (split_line rest); reflexivity.
  - rewrite Hc, IH. reflexivity.
Qed.


Lemma find_last_run (n : nat) (rest : list ascii) :
  forall i last,
    find_last_from false (repeat "a"%char n ++ rest) "]" i last =
    find_last_from false rest "]" (i + n) last.
Proof.
  induction n as [| n IH]; intros i last.
  - simpl. f_equal. lia.
  - cbn [repeat app find_last_from andb].
    change (C.isspace "a") with false. change (Ascii.eqb "a" "]") with false.
    cbv match. rewrite IH. f_equal. lia.
Qed.


Lemma long_section_line_again (cfg : config) (U : Type)
    (handler : U -> list ascii -> list ascii -> list ascii -> U * bool) (st : pstate U) :
  fst (process_line cfg U handler (long_section_line cfg) st) = Again.
Proof.
  unfold long_section_line.
  remember (MAX_SECTION_NAME cfg) as n eqn:En.
  assert (He : find_last_char_or_comment (repeat "a"%char (S n) ++ ["]"%char]) "]" = S n).
  { unfold find_last_char_or_comment. rewrite find_last_run. reflexivity. }
  assert (Hc : char_at (repeat "a"%char (S n) ++ ["]"%char]) (S n) = "]"%char).
  { rewrite <- (repeat_length "a"%char (S n)) at 2. apply char_at_middle. }
  assert (Hr : rstrip ("["%char :: repeat "a"%char (S n) ++ ["]"%char])
               = "["%char :: repeat "a"%char (S n) ++ ["]"%char]).
  { change ("["%char :: repeat "a"%char (S n) ++ ["]"%char])
      with (("["%char :: repeat "a"%char (S n)) ++ "]"%char :: []).
    rewrite rstrip_app_stop by reflexivity. reflexivity. }
  assert (Hlt : (n <? S n)%nat = true) by (apply Nat.ltb_lt; lia).
  generalize dependent (repeat "a"%char (S n)). intros run He Hc Hr.
  unfold process_line. cbv zeta. rewrite <- ?En.
  assert (Hb : INI_ALLOW_BOM cfg && (lineno (bump_lineno U st) =? 1)%nat
               && C.starts_with BOM ("["%char :: run ++ ["]"%char]) = false)
    by apply andb_false_r.
  rewrite Hb. cbv beta match. simpl orb. rewrite Hr.
  assert (Hl : lskip ("["%char :: run ++ ["]"%char]) = "["%char :: run ++ ["]"%char])
    by reflexivity.
  rewrite !Hl. cbv beta match.
  change (is_comment_char "[") with false. cbv match.
  rewrite Nat.ltb_irrefl, andb_false_r.
  change (Ascii.eqb "[" "[") with true. cbv match.
  rewrite He, Hc. change (Ascii.eqb "]" "]") with true. cbv match.
  rewrite Hlt. reflexivity.
Qed.


Lemma run_of_a (n : nat) :
  Forall (fun x => Ascii.eqb x "=" = false /\ is_comment_char x = false)
         (repeat "a"%char n).
Proof. induction n; simpl; constructor; [split; reflexivity | assumption]. Qed.

Lemma rstrip_run (n : nat) : rstrip (repeat "a"%char (S n)) = repeat "a"%char (S n).
Proof.
  cbn [repeat]. rewrite repeat_cons.
  rewrite rstrip_app_stop by reflexivity. reflexivity.
Qed.

Lemma long_name_line_again (cfg : config) (U : Type)
    (handler : U -> list ascii -> list ascii -> list ascii -> U * bool) (st : pstate U) :
  fst (process_line cfg U handler (long_name_line cfg) st) = Again.
Proof.
  unfold long_name_line.
  remember (MAX_PROPERTY_NAME cfg) as n eqn:En.
  assert (He : find_char_or_comment (repeat "a"%char (S n) ++ cs "=v") "=" = S n).
  { unfold find_char_or_comment. change (cs "=v") with ("="%char :: cs "v").
    rewrite find_char_stops by apply run_of_a. apply repeat_length. }
  assert (Hc : char_at (repeat "a"%char (S n) ++ cs "=v") (S n) = "="%char).
  { rewrite <- (repeat_length "a"%char (S n)) at 2. apply char_at_middle. }
  assert (Hr : rstrip (repeat "a"%char (S n) ++ cs "=v") = repeat "a"%char (S n) ++ cs "=v").
  { change (cs "=v") with ("="%char :: cs "v").
    rewrite rstrip_app_stop by reflexivity. reflexivity. }
  assert (Hl : lskip (repeat "a"%char (S n) ++ cs "=v") = repeat "a"%char (S n) ++ cs "=v")
    by reflexivity.
  assert (Hf : firstn (S n) (repeat "a"%char (S n) ++ cs "=v") = repeat "a"%char (S n)).
  { rewrite <- (repeat_length "a"%char (S n)) at 1. apply firstn_exact. }
  assert (Hn : rstrip (repeat "a"%char (S n)) = repeat "a"%char (S n)) by apply rstrip_run.
  assert (Hlen : length (repeat "a"%char (S n)) = S n) by apply repeat_length.
  assert (Hbom : C.starts_with BOM (repeat "a"%char (S n) ++ cs "=v") = false) by reflexivity.
  assert (Hhd : exists r, repeat "a"%char (S n) ++ cs "=v" = "a"%char :: r)
    by (eexists; reflexivity).
  assert (Hlt : (n <? S n)%nat = true) by (apply Nat.ltb_lt; lia).
  generalize dependent (repeat "a"%char (S n)). intros run He Hc Hr Hl Hf Hn Hlen Hbom Hhd.
  destruct Hhd as [r Hhd]. rewrite Hhd in *.
  unfold process_line. cbv zeta. rewrite <- ?En.
  rewrite Hbom, andb_false_r. cbv beta match. simpl orb. rewrite Hr, !Hl.
  cbv beta match.
  change (is_comment_char "a") with false. cbv match.
  rewrite Nat.ltb_irrefl, andb_false_r.
  change (Ascii.eqb "a" "[") with false. cbv match.
  rewrite He, Hc. change (Ascii.eqb "=" "=") with true. cbv match.
  rewrite Hc. change (Ascii.eqb "=" "=") with true. cbv beta match delta [orb].
  rewrite Hf, Hn, Hlen, Hlt. reflexivity.
Qed.

(** *** The file content cache *)

(** A request for a file whose bytes are in the cache parses those bytes
    and leaves the world as it was: nothing is read from disk. *)
Lemma ini_parse_cached (cfg : config) {U : Type}
    (handler : U -> list ascii -> list ascii -> list ascii -> U * bool)
    (fuel : nat) (filename data : list ascii) (u : U) (w : world) :
  file_cache w !! filename = Some (Some data) ->
  ini_parse cfg handler fuel filename u w =
    match ini_parse_file cfg U handler fuel data u with
    | Some (err, u') => Some (Z.of_nat err, u', w)
    | None => None
    end.
Proof.
  intros Hc. unfold ini_parse, ini_data_for_file. rewrite Hc. simpl.
  rewrite (insert_id _ _ _ Hc).
  destruct (ini_parse_file cfg U handler fuel data u) as [[err u'] |]; [| reflexivity].
  rewrite andb_false_r. destruct w; reflexivity.
Qed.

(** A request for a file that is not in the cache reads it from disk; the
    bytes are stored only when the parse returned 0. *)
Lemma ini_parse_uncached (cfg : config) {U : Type}
    (handler : U -> list ascii -> list ascii -> list ascii -> U * bool)
    (fuel : nat) (filename data : list ascii) (u : U) (w : world) :
  default None (file_cache w !! filename) = None ->
  fs w !! filename = Some data ->
  ini_parse cfg handler fuel filename u w =
    match ini_parse_file cfg U handler fuel data u with
    | Some (err, u') =>
        Some (Z.of_nat err, u',
              {| fs := fs w;
                 file_cache := <[filename := if (err =? 0)%nat then Some data else None]>
                                 (file_cache w);
                 disk_reads := disk_reads w ++ [filename];
                 invalidated := invalidated w |})
    | None => None
    end.
Proof.
  intros Hc Hf. unfold ini_parse, ini_data_for_file, ini_data_from_file.
  rewrite Hc. simpl. rewrite Hf.
  destruct (ini_parse_file cfg U handler fuel data u) as [[err u'] |]; [| reflexivity].
  rewrite andb_true_r. destruct (err =? 0)%nat; simpl; [| reflexivity].
  rewrite insert_insert_eq. reflexivity.
Qed.

Lemma split_line_stop (a rest : list ascii) :
  Forall (fun x => Ascii.eqb x C.newline = false) a ->
  split_line (a ++ C.newline :: rest) = (a, Some rest).
Proof.
  induction 1 as [| x a Hx _ IH]; simpl.
  - reflexivity.
  - rewrite Hx, IH. reflexivity.
Qed.

Lemma split_line_last (a : list ascii) :
  Forall (fun x => Ascii.eqb x C.newline = false) a ->
  split_line a = (a, None).
Proof.
  induction 1 as [| x a Hx _ IH]; simpl.
  - reflexivity.
  - rewrite Hx, IH. reflexivity.
Qed.

Lemma run_no_newline (n : nat) :
  Forall (fun x => Ascii.eqb x C.newline = false) (repeat "a"%char n).
Proof. induction n; simpl; constructor; [reflexivity | assumption]. Qed.

Lemma long_section_line_no_newline (cfg : config) :
  Forall (fun x => Ascii.eqb x C.newline = false) (long_section_line cfg).
Proof.
  unfold long_section_line. constructor; [reflexivity |].
  apply Forall_app. split; [apply run_no_newline | repeat constructor].
Qed.

Lemma long_name_line_no_newline (cfg : config) :
  Forall (fun x => Ascii.eqb x C.newline = false) (long_name_line cfg).
Proof.
  unfold long_name_line. apply Forall_app.
  split; [apply run_no_newline | repeat constructor].
Qed.

Lemma long_section_line_length (cfg : config) :
  length (long_section_line cfg) = (MAX_SECTION_NAME cfg + 3)%nat.
Proof.
  unfold long_section_line. cbn [length]. rewrite length_app, repeat_length.
  simpl. lia.
Qed.

Lemma long_name_line_length (cfg : config) :
  length (long_name_line cfg) = (MAX_PROPERTY_NAME cfg + 3)%nat.
Proof.
  unfold long_name_line. rewrite length_app, repeat_length. simpl. lia.
Qed.

(** On a text without oversized fields the scan goes to the end: the
    handler refuses [k] on line 2, line 3 has no separator, line 5 has no
    closing bracket; all three triples are delivered and 2 is returned. *)
Example scan_goes_on_after_errors :
  ini_parse_file editorconfig_limits _ (recorder [cs "k"]) 10
    (cs "[ab]" ++ C.newline :: cs "k=v" ++ C.newline :: cs "no separator"
       ++ C.newline :: cs "z : 1" ++ C.newline :: cs "[cd" ++ C.newline
       :: cs "y=2") []
  = Some (2%nat, [(cs "ab", cs "k", cs "v"); (cs "ab", cs "z", cs "1");
                  (cs "ab", cs "y", cs "2")]).
Proof. vm_compute. reflexivity. Qed.

(** C6: a section line whose name is longer than the limit leaves the loop
    body by [continue], which does not move [p]: the same line is read again
    at every turn.  Whatever the fuel, the parse of such a line followed by
    the valid line [k=v] has no result: the triple is never delivered and no
    line number is returned. *)
Theorem long_section_line_stops_the_scan (cfg : config) (U : Type)
    (handler : U -> list ascii -> list ascii -> list ascii -> U * bool) (u : U) :
  (MAX_SECTION_NAME cfg + 3 < MAX_LINE)%nat ->
  forall fuel,
    ini_parse_file cfg U handler fuel
      (long_section_line cfg ++ C.newline :: cs "k=v") u = None.
Proof.
  intros Hfit fuel. unfold ini_parse_file.
  rewrite (loop_never_leaves cfg U handler _ (long_section_line cfg) (Some (cs "k=v")));
    [reflexivity | | | ].
  - unfold long_section_line. discriminate.
  - apply split_line_stop. apply long_section_line_no_newline.
  - intros st. rewrite firstn_all2.
    + apply long_section_line_again.
    + rewrite long_section_line_length. lia.
Qed.

(** With EditorConfig's limits: 4097 characters in the section name. *)
Lemma long_section_line_stops_the_scan_witness :
  (MAX_SECTION_NAME editorconfig_limits + 3 < MAX_LINE)%nat /\
  ini_parse_file editorconfig_limits _ (recorder []) 1000
    (long_section_line editorconfig_limits ++ C.newline :: cs "k=v") [] = None.
Proof.
  assert (H : (MAX_SECTION_NAME editorconfig_limits + 3 < MAX_LINE)%nat)
    by (apply Nat.ltb_lt; vm_compute; reflexivity).
  split; [exact H |].
  apply (long_section_line_stops_the_scan editorconfig_limits _ (recorder []) [] H 1000).
Defined.

(** C8: an oversized field is not skipped.  On a section line whose name is
    one character over the limit, and on a property line whose name is one
    character over the limit, the loop never moves on: whatever the fuel,
    the parse has no result. *)
Theorem oversized_field_is_read_forever (cfg : config) (U : Type)
    (handler : U -> list ascii -> list ascii -> list ascii -> U * bool) (u : U) :
  (MAX_SECTION_NAME cfg + 3 < MAX_LINE)%nat ->
  (MAX_PROPERTY_NAME cfg + 3 < MAX_LINE)%nat ->
  forall fuel,
    ini_parse_file cfg U handler fuel (long_section_line cfg) u = None /\
    ini_parse_file cfg U handler fuel (long_name_line cfg) u = None.
Proof.
  intros Hs Hn fuel. unfold ini_parse_file. split.
  - rewrite (loop_never_leaves cfg U handler _ (long_section_line cfg) None);
      [reflexivity | | | ].
    + unfold long_section_line. discriminate.
    + apply split_line_last. apply long_section_line_no_newline.
    + intros st. rewrite firstn_all2.
      * apply long_section_line_again.
      * rewrite long_section_line_length. lia.
  - rewrite (loop_never_leaves cfg U handler _ (long_name_line cfg) None);
      [reflexivity | | | ].
    + unfold long_name_line. discriminate.
    + apply split_line_last. apply long_name_line_no_newline.
    + intros st. rewrite firstn_all2.
      * apply long_name_line_again.
      * rewrite long_name_line_length. lia.
Qed.

(** With EditorConfig's limits. *)
Lemma oversized_field_is_read_forever_witness :
  (MAX_SECTION_NAME editorconfig_limits + 3 < MAX_LINE)%nat /\
  (MAX_PROPERTY_NAME editorconfig_limits + 3 < MAX_LINE)%nat /\
  ini_parse_file editorconfig_limits _ (recorder []) 1000
    (long_section_line editorconfig_limits) [] = None /\
  ini_parse_file editorconfig_limits _ (recorder []) 1000
    (long_name_line editorconfig_limits) [] = None.
Proof.
  assert (H1 : (MAX_SECTION_NAME editorconfig_limits + 3 < MAX_LINE)%nat)
    by (apply Nat.ltb_lt; vm_compute; reflexivity).
  assert (H2 : (MAX_PROPERTY_NAME editorconfig_limits + 3 < MAX_LINE)%nat)
    by (apply Nat.ltb_lt; vm_compute; reflexivity).
  split; [exact H1 |]. split; [exact H2 |].
  apply (oversized_field_is_read_forever editorconfig_limits _ (recorder []) [] H1 H2 1000).
Defined.

(** C3, as amended: a request for a file that is not in the cache reads it
    from disk once.  When the parse returns 0 the bytes are stored, and
    every later request for that name parses the stored bytes and leaves the
    world as it is: nothing more is read from disk.  When the parse returns
    a line number, nothing is stored, and the next request reads the file
    from disk again. *)
Theorem clean_parse_fills_the_cache (cfg : config) (U : Type)
    (handler : U -> list ascii -> list ascii -> list ascii -> U * bool)
    (fuel : nat) (filename data : list ascii) (u u' : U) (w w' : world) (err : Z) :
  default None (file_cache w !! filename) = None ->
  fs w !! filename = Some data ->
  ini_parse cfg handler fuel filename u w = Some (err, u', w') ->
  disk_reads w' = disk_reads w ++ [filename] /\
  (err = 0%Z ->
     file_cache w' !! filename = Some (Some data) /\
     forall (V : Type) (handler2 : V -> list ascii -> list ascii -> list ascii -> V * bool)
            (fuel2 : nat) (v : V),
       ini_parse cfg handler2 fuel2 filename v w' =
         match ini_parse_file cfg V handler2 fuel2 data v with
         | Some (err2, v') => Some (Z.of_nat err2, v', w')
         | None => None
         end) /\
  (err <> 0%Z ->
     default None (file_cache w' !! filename) = None /\
     forall (V : Type) (handler2 : V -> list ascii -> list ascii -> list ascii -> V * bool)
            (fuel2 : nat) (v v' : V) (err2 : Z) (w2 : world),
       ini_parse cfg handler2 fuel2 filename v w' = Some (err2, v', w2) ->
       disk_reads w2 = disk_reads w' ++ [filename]).
Proof.
  intros Hc Hf H.
  rewrite (ini_parse_uncached cfg handler fuel filename data u w Hc Hf) in H.
  destruct (ini_parse_file cfg U handler fuel data u) as [[e u1] |]; [| discriminate].
  injection H as <- <- <-. cbn [disk_reads file_cache fs].
  split; [reflexivity |]. split.
  - intros He. assert (e = 0)%nat as -> by lia. cbn [Nat.eqb].
    assert (Hl : <[filename := Some data]> (file_cache w) !! filename = Some (Some data))
      by apply lookup_insert_eq.
    split; [exact Hl |].
    intros V handler2 fuel2 v. apply ini_parse_cached. exact Hl.
  - intros He. destruct e as [| e]; [lia |]. cbn [Nat.eqb].
    assert (Hl : default None (<[filename := None]> (file_cache w) !! filename) = None)
      by (rewrite lookup_insert_eq; reflexivity).
    split; [exact Hl |].
    intros V handler2 fuel2 v v' err2 w2 H2.
    rewrite (ini_parse_uncached cfg handler2 fuel2 filename data v
               {| fs := fs w; file_cache := <[filename := None]> (file_cache w);
                  disk_reads := disk_reads w ++ [filename];
                  invalidated := invalidated w |} Hl Hf) in H2.
    destruct (ini_parse_file cfg V handler2 fuel2 data v) as [[e2 v2] |]; [| discriminate].
    injection H2 as _ _ <-. reflexivity.
Qed.

(** A first request for a well-formed [.editorconfig]. *)
Lemma clean_parse_fills_the_cache_witness :
  exists w',
    ini_parse editorconfig_limits (recorder []) 10 (cs ".editorconfig") []
      (one_file (cs ".editorconfig") (cs "root = true"))
    = Some (0%Z, [([], cs "root", cs "true")], w') /\
    disk_reads w' = [cs ".editorconfig"] /\
    file_cache w' !! cs ".editorconfig" = Some (Some (cs "root = true")).
Proof.
  destruct (ini_parse editorconfig_limits (recorder []) 10 (cs ".editorconfig") []
              (one_file (cs ".editorconfig") (cs "root = true")))
    as [[[err u'] w'] |] eqn:E; [| vm_compute in E; discriminate E].
  assert (Hr : err = 0%Z /\ u' = [([], cs "root", cs "true")]).
  { vm_compute in E. injection E as <- <- _. split; reflexivity. }
  destruct Hr as [-> ->]. exists w'. split; [reflexivity |].
  destruct (clean_parse_fills_the_cache editorconfig_limits _ (recorder []) 10
              (cs ".editorconfig") (cs "root = true") [] _
              (one_file (cs ".editorconfig") (cs "root = true")) w' 0%Z
              eq_refl eq_refl E) as (H1 & H2 & _).
  split; [exact H1 |]. apply H2. reflexivity.
Defined.

(** C3 as stated fails: a file whose parse reports a syntax error is read
    from disk by the first request and again by the second; the cache holds
    a null entry for it in between. *)
Lemma failed_parse_is_read_again :
  exists u1 w1 u2 w2,
    ini_parse editorconfig_limits (recorder []) 10 (cs ".editorconfig") []
      (one_file (cs ".editorconfig") (cs "no separator here")) = Some (1%Z, u1, w1) /\
    file_cache w1 !! cs ".editorconfig" = Some None /\
    ini_parse editorconfig_limits (recorder []) 10 (cs ".editorconfig") [] w1
      = Some (1%Z, u2, w2) /\
    disk_reads w2 = [cs ".editorconfig"; cs ".editorconfig"].
Proof.
  do 4 eexists. split; [vm_compute; reflexivity |].
  split; [vm_compute; reflexivity |].
  split; vm_compute; reflexivity.
Qed.

(** A line of an [.editorconfig], the fifth of its file. *)
End IniFacts.

(* ===================================================================== *)
(** ** Further properties of the two caches *)
(* ===================================================================== *)

Section CacheMore.
Import Ini.

(** X1: [ini_parse] of a file that cannot be read and is not cached returns -1; the handler is not called, nothing is read and nothing is cached. *)
Theorem unreadable_file_gives_minus_one (cfg : config) (U : Type)
    (handler : U -> list ascii -> list ascii -> list ascii -> U * bool)
    (fuel : nat) (filename : list ascii) (u : U) (w : world) :
  fs w !! filename = None ->
  default None (file_cache w !! filename) = None ->
  exists w',
    ini_parse cfg handler fuel filename u w = Some ((-1)%Z, u, w') /\
    fs w' = fs w /\ disk_reads w' = disk_reads w /\
    default None (file_cache w' !! filename) = None.
Proof.
  intros Hf Hc. unfold ini_parse, ini_data_for_file, ini_data_from_file.
  rewrite Hc. cbn [fs]. rewrite Hf. eexists. split; [reflexivity |].
  cbn [fs disk_reads file_cache]. rewrite lookup_insert_eq. auto.
Qed.

(** X2: after the watcher's event for a file, the next [ini_parse] of it reads the file from disk again, whatever the cache held, and caches it again if the parse is clean. *)
Theorem invalidation_forces_a_fresh_read (cfg : config) (U : Type)
    (handler : U -> list ascii -> list ascii -> list ascii -> U * bool)
    (fuel : nat) (filename data : list ascii) (u : U) (w : world) :
  fs w !! filename = Some data ->
  ini_parse cfg handler fuel filename u (vnode_event filename w) =
    match ini_parse_file cfg U handler fuel data u with
    | Some (err, u') =>
        Some (Z.of_nat err, u',
              {| fs := fs w;
                 file_cache := <[filename := if (err =? 0)%nat then Some data else None]>
                                 (file_cache w);
                 disk_reads := disk_reads w ++ [filename];
                 invalidated := invalidated w ++ [filename] |})
    | None => None
    end.
Proof.
  intros Hf.
  rewrite (ini_parse_uncached cfg handler fuel filename data u (vnode_event filename w)).
  - destruct (ini_parse_file cfg U handler fuel data u) as [[err u'] |]; [| reflexivity].
    cbn [vnode_event fs file_cache disk_reads invalidated].
    rewrite insert_insert_eq. reflexivity.
  - cbn [vnode_event file_cache]. rewrite lookup_insert_eq. reflexivity.
  - exact Hf.
Qed.

(** X3: [ini_parse] of one file leaves the cache entries of every other file, the file system and the record of invalidations as they were. *)
Theorem other_files_are_left_alone (cfg : config) (U : Type)
    (handler : U -> list ascii -> list ascii -> list ascii -> U * bool)
    (fuel : nat) (filename other : list ascii) (u u' : U) (w w' : world) (err : Z) :
  other <> filename ->
  ini_parse cfg handler fuel filename u w = Some (err, u', w') ->
  file_cache w' !! other = file_cache w !! other /\
  fs w' = fs w /\ invalidated w' = invalidated w.
Proof.
  intros Hne H. unfold ini_parse, ini_data_for_file, ini_data_from_file in H.
  cbn [fs file_cache] in H.
  destruct (default None (file_cache w !! filename)) as [d |].
  - destruct (ini_parse_file cfg U handler fuel d u) as [[e u1] |]; [| discriminate].
    rewrite andb_false_r in H. injection H as _ _ <-.
    cbn [file_cache fs invalidated]. rewrite lookup_insert_ne by congruence. auto.
  - destruct (fs w !! filename) as [d |].
    + destruct (ini_parse_file cfg U handler fuel d u) as [[e u1] |]; [| discriminate].
      injection H as _ _ <-.
      destruct (e =? 0)%nat; cbn [andb negb snd file_cache fs invalidated];
        repeat (rewrite lookup_insert_ne by congruence); auto.
    + injection H as _ _ <-. cbn [file_cache fs invalidated].
      rewrite lookup_insert_ne by congruence. auto.
Qed.

Lemma unreadable_file_gives_minus_one_witness :
  exists w',
    ini_parse editorconfig_limits (recorder []) 10 (cs "/a/.editorconfig") []
      (one_file (cs "/.editorconfig") (cs "root = true")) = Some ((-1)%Z, [], w') /\
    fs w' = fs (one_file (cs "/.editorconfig") (cs "root = true")) /\
    disk_reads w' = disk_reads (one_file (cs "/.editorconfig") (cs "root = true")) /\
    default None (file_cache w' !! cs "/a/.editorconfig") = None.
Proof.
  apply (unreadable_file_gives_minus_one editorconfig_limits _ (recorder []) 10
           (cs "/a/.editorconfig") []
           (one_file (cs "/.editorconfig") (cs "root = true"))).
  - vm_compute. reflexivity.
  - vm_compute. reflexivity.
Defined.

Lemma invalidation_forces_a_fresh_read_witness :
  ini_parse editorconfig_limits (recorder []) 10 (cs ".editorconfig") []
    (vnode_event (cs ".editorconfig") (one_file (cs ".editorconfig") (cs "root = true"))) =
  match ini_parse_file editorconfig_limits _ (recorder []) 10 (cs "root = true") [] with
  | Some (err, u') =>
      Some (Z.of_nat err, u',
            {| fs := fs (one_file (cs ".editorconfig") (cs "root = true"));
               file_cache :=
                 <[cs ".editorconfig" := if (err =? 0)%nat then Some (cs "root = true")
                                          else None]>
                   (file_cache (one_file (cs ".editorconfig") (cs "root = true")));
               disk_reads :=
                 disk_reads (one_file (cs ".editorconfig") (cs "root = true"))
                 ++ [cs ".editorconfig"];
               invalidated :=
                 invalidated (one_file (cs ".editorconfig") (cs "root = true"))
                 ++ [cs ".editorconfig"] |})
  | None => None
  end.
Proof.
  apply (invalidation_forces_a_fresh_read editorconfig_limits _ (recorder []) 10
           (cs ".editorconfig") (cs "root = true") []
           (one_file (cs ".editorconfig") (cs "root = true"))).
  vm_compute. reflexivity.
Defined.

Lemma other_files_are_left_alone_witness :
  exists w',
    ini_parse editorconfig_limits (recorder []) 10 (cs ".editorconfig") []
      (one_file (cs ".editorconfig") (cs "root = true"))
    = Some (0%Z, [([], cs "root", cs "true")], w') /\
    file_cache w' !! cs "/a/.editorconfig" =
      file_cache (one_file (cs ".editorconfig") (cs "root = true")) !! cs "/a/.editorconfig" /\
    fs w' = fs (one_file (cs ".editorconfig") (cs "root = true")) /\
    invalidated w' = invalidated (one_file (cs ".editorconfig") (cs "root = true")).
Proof.
  destruct (ini_parse editorconfig_limits (recorder []) 10 (cs ".editorconfig") []
              (one_file (cs ".editorconfig") (cs "root = true")))
    as [[[err u'] w'] |] eqn:E; [| vm_compute in E; discriminate E].
  assert (Hr : err = 0%Z /\ u' = [([], cs "root", cs "true")]).
  { vm_compute in E. injection E as <- <- _. split; reflexivity. }
  destruct Hr as [-> ->]. exists w'. split; [reflexivity |].
  apply (other_files_are_left_alone editorconfig_limits _ (recorder []) 10
           (cs ".editorconfig") (cs "/a/.editorconfig") [] [([], cs "root", cs "true")]
           (one_file (cs ".editorconfig") (cs "root = true")) w' 0%Z).
  - discriminate.
  - exact E.
Defined.

End CacheMore.

Section GlobCache.
Import Pcre Glob.






End GlobCache.

(* ===================================================================== *)
(** ** Further properties of [ini_parse_file] *)
(* ===================================================================== *)

Section IniMore.

Import Ini.

(** *** White space again *)

Lemma rstrip_app_space (a ws : list ascii) :
  Forall (fun x => C.isspace x = true) ws -> rstrip (a ++ ws) = rstrip a.
Proof.
  intros H. unfold rstrip. rewrite rev_app_distr. f_equal.
  apply Forall_rev in H. induction H as [| x l Hx _ IH]; simpl; [reflexivity |].
  rewrite Hx. exact IH.
Qed.

Lemma starts_with_app_space (p l ws : list ascii) :
  Forall (fun x => C.isspace x = false) p ->
  Forall (fun x => C.isspace x = true) ws ->
  C.starts_with p (l ++ ws) = C.starts_with p l.
Proof.
  intros Hp Hws. revert l. induction Hp as [| a p Ha _ IH]; intros l; [reflexivity |].
  destruct l as [| b l]; simpl.
  - destruct Hws as [| w ws Hw _]; [reflexivity |]. simpl.
    destruct (Ascii.eqb_spec a w) as [-> |]; [congruence | reflexivity].
  - rewrite IH. reflexivity.
Qed.

Lemma starts_with_length (p l : list ascii) :
  C.starts_with p l = true -> (length p <= length l)%nat.
Proof.
  revert l. induction p as [| a p IH]; intros l H; simpl; [lia |].
  destruct l as [| b l]; [discriminate |]. simpl in H.
  apply andb_true_iff in H. destruct H as [_ H]. apply IH in H. simpl. lia.
Qed.

Lemma BOM_not_space : Forall (fun x => C.isspace x = false) BOM.
Proof. repeat constructor. Qed.

(** X6: white space at the end of a line changes nothing. A line followed by white space is processed as the line itself. *)
Theorem trailing_white_space_is_dropped (cfg : config) (U : Type)
    (handler : U -> list ascii -> list ascii -> list ascii -> U * bool)
    (line ws : list ascii) (st : pstate U) :
  Forall (fun x => C.isspace x = true) ws ->
  process_line cfg U handler (line ++ ws) st = process_line cfg U handler line st.
Proof.
  intros Hws. unfold process_line. cbv zeta.
  rewrite (starts_with_app_space BOM line ws BOM_not_space Hws).
  destruct (INI_ALLOW_BOM cfg && (lineno (bump_lineno U st) =? 1)%nat
            && C.starts_with BOM line) eqn:Hb.
  - apply andb_true_iff in Hb. destruct Hb as [_ Hb].
    apply starts_with_length in Hb. change (length BOM) with 3%nat in Hb.
    rewrite skipn_app.
    replace (3 - length line)%nat with 0%nat by lia.
    rewrite skipn_O. rewrite (rstrip_app_space _ ws Hws). reflexivity.
  - rewrite (rstrip_app_space _ ws Hws). reflexivity.
Qed.


(** *** One line at a time *)

Lemma bom_off (cfg : config) (U : Type) (st : pstate U) (line : list ascii) :
  (INI_ALLOW_BOM cfg = false \/ lineno st <> 0%nat \/ C.starts_with BOM line = false) ->
  INI_ALLOW_BOM cfg && (lineno (bump_lineno U st) =? 1)%nat && C.starts_with BOM line
  = false.
Proof.
  intros [-> | [Hn | ->]]; [reflexivity | | apply andb_false_r].
  change (lineno (bump_lineno U st)) with (S (lineno st)).
  destruct (lineno st) as [| n]; [congruence |].
  change (S (S n) =? 1)%nat with false. rewrite andb_false_r. reflexivity.
Qed.

Lemma starts_with_BOM_head (x : ascii) (l : list ascii) :
  Ascii.eqb (ascii_of_nat 239) x = false -> C.starts_with BOM (x :: l) = false.
Proof. intros H. unfold BOM. cbn [C.starts_with]. rewrite H. reflexivity. Qed.

Lemma space_not_BOM (x : ascii) :
  C.isspace x = true -> Ascii.eqb (ascii_of_nat 239) x = false.
Proof.
  intros H. destruct (Ascii.eqb_spec (ascii_of_nat 239) x) as [<- |]; [| reflexivity].
  discriminate H.
Qed.

Lemma comment_not_BOM (x : ascii) :
  is_comment_char x = true -> Ascii.eqb (ascii_of_nat 239) x = false.
Proof.
  intros H. destruct (Ascii.eqb_spec (ascii_of_nat 239) x) as [<- |]; [| reflexivity].
  discriminate H.
Qed.

Lemma comment_not_space (x : ascii) : is_comment_char x = true -> C.isspace x = false.
Proof.
  unfold is_comment_char. intros H. apply orb_true_iff in H.
  destruct H as [H | H]; apply Ascii.eqb_eq in H; subst; reflexivity.
Qed.

Lemma lskip_app_space (ws s : list ascii) :
  Forall (fun x => C.isspace x = true) ws -> lskip (ws ++ s) = lskip s.
Proof.
  unfold lskip. induction 1 as [| x ws Hx _ IH]; simpl; [reflexivity |].
  rewrite Hx. exact IH.
Qed.

(** The pointer [start] of a line that has white space, then a character
    that is none, then anything. *)
Lemma start_of_line (ws : list ascii) (x : ascii) (rest : list ascii) :
  Forall (fun y => C.isspace y = true) ws ->
  C.isspace x = false ->
  rstrip (ws ++ x :: rest) = ws ++ x :: rstrip rest /\
  lskip (ws ++ x :: rstrip rest) = x :: rstrip rest.
Proof.
  intros Hws Hx. split.
  - apply rstrip_app_stop. exact Hx.
  - rewrite (lskip_app_space ws _ Hws). unfold lskip. apply drop_while_fixed. exact Hx.
Qed.

Lemma moved_iff (ws : list ascii) (s : list ascii) :
  (length s <? length (ws ++ s))%nat = negb match ws with [] => true | _ => false end.
Proof.
  destruct ws as [| w ws]; simpl app.
  - apply Nat.ltb_irrefl.
  - apply Nat.ltb_lt. cbn [length]. rewrite length_app. lia.
Qed.

(** X7: a blank line and a line whose first non-blank character is [;] or [#] only advance the line counter. *)
Theorem blank_and_comment_lines_are_passed_over (cfg : config) (U : Type)
    (handler : U -> list ascii -> list ascii -> list ascii -> U * bool)
    (ws rest : list ascii) (st : pstate U) :
  Forall (fun x => C.isspace x = true) ws ->
  (rest = [] \/ exists m tl, rest = m :: tl /\ is_comment_char m = true) ->
  process_line cfg U handler (ws ++ rest) st = (Next, bump_lineno U st).
Proof.
  intros Hws Hrest.
  assert (Hb : C.starts_with BOM (ws ++ rest) = false).
  { destruct ws as [| w ws'].
    - destruct Hrest as [-> | (m & tl & -> & Hm)]; [reflexivity |].
      apply starts_with_BOM_head, comment_not_BOM, Hm.
    - inversion Hws; subst. apply starts_with_BOM_head, space_not_BOM. assumption. }
  unfold process_line. cbv zeta. rewrite Hb, andb_false_r. cbv beta match.
  destruct Hrest as [-> | (m & tl & -> & Hm)].
  - rewrite app_nil_r, (rstrip_all ws Hws). reflexivity.
  - destruct (start_of_line ws m tl Hws (comment_not_space m Hm)) as [-> ->].
    cbv beta match. rewrite Hm. reflexivity.
Qed.

Lemma char_at_not (s : list ascii) (d : ascii) (i : nat) :
  Ascii.eqb zero d = false ->
  Forall (fun y => Ascii.eqb y d = false) s ->
  Ascii.eqb (char_at s i) d = false.
Proof.
  intros Hz Hs. unfold char_at. revert i.
  induction Hs as [| y s Hy _ IH]; intros [| i]; simpl; auto.
Qed.

Lemma Forall_start (P : ascii -> Prop) (ws : list ascii) (x : ascii) (rest : list ascii) :
  Forall P (ws ++ x :: rest) -> Forall P (x :: rstrip rest).
Proof.
  intros H. apply Forall_app in H. destruct H as [_ H].
  inversion H; subst. constructor; [assumption |].
  apply List.Forall_forall. intros y Hy. apply rstrip_In in Hy.
  rewrite List.Forall_forall in H3. apply H3. exact Hy.
Qed.

(** X8: a line that is not blank, not a comment, not a section line and not a continuation, and has neither [=] nor [:], is an error. Its number is recorded unless an error is recorded already; the handler is not called. *)
Theorem line_without_separator_is_an_error (cfg : config) (U : Type)
    (handler : U -> list ascii -> list ascii -> list ascii -> U * bool)
    (ws : list ascii) (x : ascii) (rest : list ascii) (st : pstate U) :
  Forall (fun y => C.isspace y = true) ws ->
  C.isspace x = false ->
  is_comment_char x = false ->
  x <> "["%char ->
  Forall (fun y => Ascii.eqb y "=" = false /\ Ascii.eqb y ":" = false) (ws ++ x :: rest) ->
  (INI_ALLOW_MULTILINE cfg = false \/ prev_name st = [] \/ ws = []) ->
  (INI_ALLOW_BOM cfg = false \/ lineno st <> 0%nat \/
   C.starts_with BOM (ws ++ x :: rest) = false) ->
  process_line cfg U handler (ws ++ x :: rest) st =
    (Next,
     {| section := section st; prev_name := prev_name st; lineno := S (lineno st);
        error := if (error st =? 0)%nat then S (lineno st) else error st;
        user := user st |}).
Proof.
  intros Hws Hx Hc Hbr Hno Hml Hbom.
  unfold process_line. cbv zeta. rewrite (bom_off cfg U st _ Hbom). cbv beta match.
  simpl orb.
  destruct (start_of_line ws x rest Hws Hx) as [-> Hs]. rewrite !Hs. cbv beta match.
  rewrite Hc.
  assert (Hm : INI_ALLOW_MULTILINE cfg
            && negb match prev_name (bump_lineno U st) with [] => true | _ => false end
            && (length (x :: rstrip rest) <? length (ws ++ x :: rstrip rest))%nat = false).
  { change (prev_name (bump_lineno U st)) with (prev_name st).
    destruct Hml as [-> | [-> | ->]]; [reflexivity | | ].
    - simpl negb. rewrite andb_false_r. reflexivity.
    - simpl app. rewrite Nat.ltb_irrefl. apply andb_false_r. }
  rewrite Hm.
  assert (Hx2 : Ascii.eqb x "[" = false) by (apply Ascii.eqb_neq; exact Hbr).
  rewrite Hx2.
  pose proof (Forall_start _ ws x rest Hno) as Hs2.
  assert (He : forall i, Ascii.eqb (char_at (x :: rstrip rest) i) "=" = false).
  { intros i. apply char_at_not; [reflexivity |].
    eapply List.Forall_impl; [| exact Hs2]. intros y [H _]. exact H. }
  assert (Hcol : forall i, Ascii.eqb (char_at (x :: rstrip rest) i) ":" = false).
  { intros i. apply char_at_not; [reflexivity |].
    eapply List.Forall_impl; [| exact Hs2]. intros y [_ H]. exact H. }
  rewrite He. rewrite He, Hcol. reflexivity.
Qed.

Lemma find_last_none (c : ascii) (t : list ascii) :
  Forall (fun y => Ascii.eqb y c = false) t ->
  forall ws i last, find_last_from ws t c i last = last.
Proof.
  induction 1 as [| y t Hy _ IH]; intros ws i last; simpl; [reflexivity |].
  rewrite Hy. destruct (ws && is_comment_char y); [reflexivity | apply IH].
Qed.

Lemma find_last_skip (c : ascii) (s : list ascii) :
  is_comment_char c = false ->
  Forall (fun y => is_comment_char y = false) s ->
  forall ws i last t,
    find_last_from ws (s ++ c :: t) c i last =
    find_last_from (C.isspace c) t c (S (i + length s)) (i + length s)%nat.
Proof.
  intros Hc. induction 1 as [| y s Hy _ IH]; intros ws i last t.
  - cbn [app find_last_from length]. rewrite Hc, andb_false_r, Ascii.eqb_refl.
    rewrite Nat.add_0_r. reflexivity.
  - cbn [app find_last_from length]. rewrite Hy, andb_false_r.
    rewrite IH. rewrite <- !Nat.add_succ_comm. reflexivity.
Qed.

Lemma multiline_off (cfg : config) (U : Type) (st : pstate U) (ws s : list ascii) :
  (INI_ALLOW_MULTILINE cfg = false \/ prev_name st = [] \/ ws = []) ->
  INI_ALLOW_MULTILINE cfg
  && negb match prev_name (bump_lineno U st) with [] => true | _ => false end
  && (length s <? length (ws ++ s))%nat = false.
Proof.
  change (prev_name (bump_lineno U st)) with (prev_name st).
  intros [-> | [-> | ->]]; [reflexivity | | ].
  - simpl negb. rewrite andb_false_r. reflexivity.
  - simpl app. rewrite Nat.ltb_irrefl. apply andb_false_r.
Qed.

(** X9: a section line sets the section to the text between the opening bracket and the LAST closing bracket of the line, as it stands, and forgets the previous name. The handler is not called and no error is recorded. *)
Theorem section_line_sets_the_section (cfg : config) (U : Type)
    (handler : U -> list ascii -> list ascii -> list ascii -> U * bool)
    (ws name tl : list ascii) (st : pstate U) :
  Forall (fun y => C.isspace y = true) ws ->
  Forall (fun y => is_comment_char y = false) name ->
  Forall (fun y => Ascii.eqb y "]" = false) tl ->
  (length name <= MAX_SECTION_NAME cfg)%nat ->
  (INI_ALLOW_MULTILINE cfg = false \/ prev_name st = [] \/ ws = []) ->
  (INI_ALLOW_BOM cfg = false \/ lineno st <> 0%nat \/
   C.starts_with BOM (ws ++ "["%char :: name ++ "]"%char :: tl) = false) ->
  process_line cfg U handler (ws ++ "["%char :: name ++ "]"%char :: tl) st =
    (Next,
     {| section := name; prev_name := []; lineno := S (lineno st);
        error := error st; user := user st |}).
Proof.
  intros Hws Hname Htl Hlen Hml Hbom.
  unfold process_line. cbv zeta. rewrite (bom_off cfg U st _ Hbom). cbv beta match.
  simpl orb.
  destruct (start_of_line ws "[" (name ++ "]"%char :: tl) Hws eq_refl) as [-> Hs].
  rewrite !Hs. cbv beta match.
  change (is_comment_char "[") with false. cbv match.
  rewrite (multiline_off cfg U st ws _ Hml).
  change (Ascii.eqb "[" "[") with true. cbv match.
  rewrite (rstrip_app_stop name "]" tl eq_refl).
  assert (He : find_last_char_or_comment (name ++ "]"%char :: rstrip tl) "]"
               = length name).
  { unfold find_last_char_or_comment.
    rewrite find_last_skip by (try reflexivity; exact Hname).
    apply find_last_none. apply List.Forall_forall. intros y Hy.
    apply rstrip_In in Hy. rewrite List.Forall_forall in Htl. apply Htl. exact Hy. }
  rewrite He, char_at_middle. change (Ascii.eqb "]" "]") with true. cbv match.
  assert (Hlt : (MAX_SECTION_NAME cfg <? length name)%nat = false)
    by (apply Nat.ltb_ge; exact Hlen).
  rewrite Hlt. rewrite firstn_exact.
  unfold strncpy0, MAX_SECTION. rewrite Nat.add_sub, firstn_all2 by exact Hlen.
  reflexivity.
Qed.


(** X11: with INI_ALLOW_MULTILINE, an indented line that follows a property is handed to the handler as a further value of that property, without its indentation and trailing white space, whatever it contains. *)
Theorem indented_line_continues_the_value (cfg : config) (U : Type)
    (handler : U -> list ascii -> list ascii -> list ascii -> U * bool)
    (w : ascii) (ws : list ascii) (x : ascii) (rest : list ascii) (st : pstate U) :
  INI_ALLOW_MULTILINE cfg = true ->
  prev_name st <> [] ->
  Forall (fun y => C.isspace y = true) (w :: ws) ->
  C.isspace x = false ->
  is_comment_char x = false ->
  process_line cfg U handler (w :: ws ++ x :: rest) st =
    (Next,
     {| section := section st; prev_name := prev_name st; lineno := S (lineno st);
        error := if snd (handler (user st) (section st) (prev_name st) (x :: rstrip rest))
                 then error st
                 else if (error st =? 0)%nat then S (lineno st) else error st;
        user := fst (handler (user st) (section st) (prev_name st) (x :: rstrip rest)) |}).
Proof.
  intros Hml Hprev Hws Hx Hc.
  assert (Hb : C.starts_with BOM (w :: ws ++ x :: rest) = false).
  { inversion Hws; subst. apply starts_with_BOM_head, space_not_BOM. assumption. }
  unfold process_line. cbv zeta. rewrite Hb, andb_false_r. cbv beta match. simpl orb.
  change (w :: ws ++ x :: rest) with ((w :: ws) ++ x :: rest).
  destruct (start_of_line (w :: ws) x rest Hws Hx) as [-> Hs].
  rewrite !Hs. cbv beta match. rewrite Hc, Hml.
  change (prev_name (bump_lineno U st)) with (prev_name st).
  assert (Hp : negb match prev_name st with [] => true | _ => false end = true)
    by (destruct (prev_name st); [congruence | reflexivity]).
  rewrite Hp, moved_iff. cbn [negb andb].
  unfold call_handler. cbn [user section prev_name bump_lineno lineno error].
  destruct (handler (user st) (section st) (prev_name st) (x :: rstrip rest)) as [u ok].
  destruct ok; reflexivity.
Qed.






(** *** The whole text *)

Lemma call_handler_keeps_error (cfg : config) (U : Type)
    (handler : U -> list ascii -> list ascii -> list ascii -> U * bool)
    (st : pstate U) (name value : list ascii) :
  error st <> 0%nat -> error (call_handler U handler st name value) = error st.
Proof.
  intros H. unfold call_handler.
  destruct (handler (user st) (section st) name value) as [u ok].
  destruct ok; [reflexivity |]. unfold set_error. cbn [error].
  destruct (Nat.eqb_spec (error st) 0); [contradiction | reflexivity].
Qed.

Lemma process_line_keeps_error (cfg : config) (U : Type)
    (handler : U -> list ascii -> list ascii -> list ascii -> U * bool)
    (line : list ascii) (st : pstate U) :
  error st <> 0%nat ->
  error (snd (process_line cfg U handler line st)) = error st.
Proof.
  intros H. unfold process_line. cbv zeta.
  assert (Hset : error (set_error U (bump_lineno U st)) = error st).
  { unfold set_error. cbn [error bump_lineno].
    destruct (Nat.eqb_spec (error st) 0); [contradiction | reflexivity]. }
  repeat match goal with
    | |- context [match ?l with [] => _ | _ :: _ => _ end] => destruct l
    | |- context [if ?b then _ else _] => destruct b
    end; cbn [snd];
  first [ reflexivity | exact Hset
        | rewrite (call_handler_keeps_error cfg) by exact H; reflexivity ].
Qed.

Lemma drop_while_length (f : ascii -> bool) (s : list ascii) :
  (length (drop_while f s) <= length s)%nat.
Proof.
  induction s as [| x s IH]; simpl; [lia |]. destruct (f x); simpl; lia.
Qed.

Lemma rstrip_length (s : list ascii) : (length (rstrip s) <= length s)%nat.
Proof.
  unfold rstrip. rewrite length_rev.
  pose proof (drop_while_length C.isspace (rev s)) as H. rewrite length_rev in H. exact H.
Qed.

Lemma lskip_length (s : list ascii) : (length (lskip s) <= length s)%nat.
Proof. apply drop_while_length. Qed.

Lemma firstn_shorter (n : nat) (s : list ascii) : (length (firstn n s) <= length s)%nat.
Proof. rewrite length_firstn. lia. Qed.

Lemma find_last_bound (c : ascii) (s : list ascii) :
  forall ws i last,
    (last <= i + length s)%nat ->
    (find_last_from ws s c i last <= i + length s)%nat.
Proof.
  induction s as [| x s IH]; intros ws i last H; cbn [find_last_from length] in *.
  - exact H.
  - destruct (ws && is_comment_char x); [exact H |].
    specialize (IH (C.isspace x) (S i) (if Ascii.eqb x c then i else last)).
    rewrite <- Nat.add_succ_comm. apply IH.
    destruct (Ascii.eqb x c); lia.
Qed.

(** A line that is not longer than any of the three limits never takes the
    [continue]. *)
Lemma short_line_moves_on (cfg : config) (U : Type)
    (handler : U -> list ascii -> list ascii -> list ascii -> U * bool)
    (line : list ascii) (st : pstate U) :
  (length line <= MAX_SECTION_NAME cfg)%nat ->
  (length line <= MAX_PROPERTY_NAME cfg)%nat ->
  (length line <= MAX_PROPERTY_VALUE cfg)%nat ->
  fst (process_line cfg U handler line st) = Next.
Proof.
  intros H1 H2 H3. unfold process_line. cbv zeta.
  set (after_bom := if INI_ALLOW_BOM cfg && (lineno (bump_lineno U st) =? 1)%nat
                       && C.starts_with BOM line then skipn 3 line else line).
  assert (Ha : (length after_bom <= length line)%nat).
  { unfold after_bom. destruct (_ && _ && _); [rewrite length_skipn; lia | lia]. }
  clearbody after_bom.
  pose proof (rstrip_length after_bom) as Hr.
  pose proof (lskip_length (rstrip after_bom)) as Hl.
  destruct (lskip (rstrip after_bom)) as [| x rest]; [reflexivity |].
  cbn [length] in Hl.
  destruct (is_comment_char x); [reflexivity |].
  destruct (_ && _ && _); [reflexivity |].
  destruct (Ascii.eqb x "[").
  - destruct (Ascii.eqb _ "]"); [| reflexivity].
    destruct (Nat.ltb_spec (MAX_SECTION_NAME cfg) (find_last_char_or_comment rest "]"))
      as [Hlt | _]; [| reflexivity].
    exfalso. unfold find_last_char_or_comment in Hlt.
    pose proof (find_last_bound "]" rest false 0 0 ltac:(lia)). lia.
  - destruct (_ || _); [| reflexivity].
    match goal with
    | |- context [(MAX_PROPERTY_NAME cfg <? length ?n)%nat] =>
        assert (Hn : (length n <= length (x :: rest))%nat)
          by (etransitivity; [apply rstrip_length | apply firstn_shorter]);
        destruct (Nat.ltb_spec (MAX_PROPERTY_NAME cfg) (length n)) as [Hlt | _];
          [exfalso; cbn [length] in Hn; lia |]
    end.
    match goal with
    | |- context [(MAX_PROPERTY_VALUE cfg <? length (rstrip ?v))%nat] =>
        assert (Hv : (length (rstrip v) <= length (x :: rest))%nat)
    end.
    { etransitivity; [apply rstrip_length |].
      match goal with
      | |- context [lskip (skipn ?k (x :: rest))] =>
          assert (Hs : (length (lskip (skipn k (x :: rest))) <= length (x :: rest))%nat)
            by (etransitivity; [apply lskip_length | rewrite length_skipn; lia])
      end.
      destruct (is_comment_char _);
        [etransitivity; [apply firstn_shorter | exact Hs] | exact Hs]. }
    match goal with
    | |- context [(MAX_PROPERTY_VALUE cfg <? ?n)%nat] =>
        destruct (Nat.ltb_spec (MAX_PROPERTY_VALUE cfg) n) as [Hlt | _];
          [exfalso; cbn [length] in Hv; lia | reflexivity]
    end.
Qed.

Lemma split_line_measures (p : list ascii) :
  forall cur l nx,
    split_line p = (l, nx) ->
    (cur + length l <= longest_line cur p)%nat /\
    forall p', nx = Some p' ->
      (longest_line 0 p' <= longest_line cur p)%nat /\ (length p' < length p)%nat.
Proof.
  induction p as [| x p IH]; intros cur l nx H; cbn [split_line longest_line] in *.
  - injection H as <- <-. split; [simpl; lia | discriminate].
  - destruct (Ascii.eqb x C.newline).
    + injection H as <- <-. split; [simpl; lia |].
      intros p' E. injection E as <-. split; [lia | simpl; lia].
    + destruct (split_line p) as [l0 n0] eqn:E0. injection H as <- <-.
      destruct (IH (S cur) l0 n0 eq_refl) as [H1 H2]. split; [simpl; lia |].
      intros p' E. destruct (H2 p' E). split; [lia | simpl; lia].
Qed.

Lemma split_line_lines (p : list ascii) :
  p <> [] ->
  text_lines p =
  fst (split_line p) ::
  match snd (split_line p) with Some p' => text_lines p' | None => [] end.
Proof.
  induction p as [| x p IH]; intros Hp; [congruence |].
  cbn [text_lines split_line].
  destruct (Ascii.eqb x C.newline); [reflexivity |].
  destruct p as [| y p]; [reflexivity |].
  rewrite IH by discriminate.
  destruct (split_line (y :: p)) as [l0 n0]. reflexivity.
Qed.

Lemma longest_line_lines (p : list ascii) :
  forall cur l, In l (text_lines p) -> (length l <= longest_line cur p)%nat.
Proof.
  induction p as [| x p IH]; intros cur l Hin; [destruct Hin |].
  cbn [text_lines longest_line] in *.
  destruct (Ascii.eqb x C.newline).
  - destruct Hin as [<- | Hin]; [simpl; lia |].
    specialize (IH 0%nat l Hin). lia.
  - assert (Hm : forall q c, (c <= longest_line c q)%nat).
    { clear. induction q as [| y q IHq]; intros c; cbn [longest_line]; [lia |].
      destruct (Ascii.eqb y C.newline); [lia |]. specialize (IHq (S c)). lia. }
    assert (Hmono : forall q c d, (c <= d)%nat -> (longest_line c q <= longest_line d q)%nat).
    { clear. induction q as [| y q IHq]; intros c d Hcd; cbn [longest_line]; [lia |].
      destruct (Ascii.eqb y C.newline); [lia |]. apply IHq. lia. }
    assert (Hhead : forall q c l0 ls, text_lines q = l0 :: ls ->
                      (c + length l0 <= longest_line c q)%nat).
    { clear - Hm. induction q as [| y q IHq]; intros c l0 ls E; [discriminate |].
      cbn [text_lines longest_line] in *.
      destruct (Ascii.eqb y C.newline).
      - injection E as <- _. simpl. lia.
      - destruct (text_lines q) as [| l1 ls1] eqn:Eq.
        + injection E as <- _. cbn [length]. specialize (Hm q (S c)). lia.
        + injection E as <- _. cbn [length]. specialize (IHq (S c) l1 ls1 eq_refl). lia. }
    destruct (text_lines p) as [| l1 ls1] eqn:E.
    + destruct Hin as [<- | []]. cbn [length]. specialize (Hm p (S cur)). lia.
    + destruct Hin as [<- | Hin].
      * cbn [length]. specialize (Hhead p (S cur) l1 ls1 E). lia.
      * specialize (IH 0%nat l (or_intror Hin)).
        specialize (Hmono p 0%nat (S cur)). lia.
Qed.

(** X14: [ini_parse_file] handles a text line by line. On every text whose lines are no longer than the three limits it returns, after one turn of its loop for each line, with what the lines leave behind when the body of the loop is run on them in order: the lines are the pieces between newline characters, and a newline at the end of the text does not open one more line. *)
Theorem text_is_handled_line_by_line (cfg : config) (U : Type)
    (handler : U -> list ascii -> list ascii -> list ascii -> U * bool)
    (fuel : nat) (text : list ascii) (u : U) :
  (longest_line 0 text <= MAX_SECTION_NAME cfg)%nat ->
  (longest_line 0 text <= MAX_PROPERTY_NAME cfg)%nat ->
  (longest_line 0 text <= MAX_PROPERTY_VALUE cfg)%nat ->
  (length (text_lines text) <= fuel)%nat ->
  ini_parse_file cfg U handler fuel text u =
  Some (error (handle_lines cfg U handler (text_lines text) (init_pstate U u)),
        user (handle_lines cfg U handler (text_lines text) (init_pstate U u))).
Proof.
  intros H1 H2 H3 Hf.
  assert (H : forall fuel p st0,
             (forall l, In l (text_lines p) ->
                (length l <= MAX_SECTION_NAME cfg)%nat /\
                (length l <= MAX_PROPERTY_NAME cfg)%nat /\
                (length l <= MAX_PROPERTY_VALUE cfg)%nat) ->
             (length (text_lines p) <= fuel)%nat ->
             ini_parse_loop cfg U handler fuel p st0 =
             Some (handle_lines cfg U handler (text_lines p) st0)).
  { clear. induction fuel as [| fuel IH]; intros p st0 Hl Hf.
    - destruct p as [| x p]; [reflexivity |].
      rewrite split_line_lines in Hf by discriminate. simpl in Hf. lia.
    - destruct p as [| x p']; [reflexivity |].
      cbn [ini_parse_loop].
      rewrite split_line_lines in Hl, Hf |- * by discriminate.
      destruct (split_line (x :: p')) as [l nx]. cbn [fst snd] in *.
      unfold handle_lines. cbn [fold_left]. fold (handle_lines cfg U handler).
      destruct (Hl l (or_introl eq_refl)) as (Ha & Hb & Hc).
      pose proof (short_line_moves_on cfg U handler (firstn (MAX_LINE - 1) l) st0) as Hs.
      pose proof (firstn_shorter (MAX_LINE - 1) l) as Hfl.
      destruct (process_line cfg U handler (firstn (MAX_LINE - 1) l) st0) as [f st1].
      cbn [fst snd] in *. rewrite Hs by lia.
      destruct nx as [p1 |]; [| reflexivity].
      apply IH.
      + intros l' Hin. apply Hl. right. exact Hin.
      + cbn [length] in Hf. lia. }
  unfold ini_parse_file. rewrite H; [reflexivity | | exact Hf].
  intros l Hin. pose proof (longest_line_lines text 0%nat l Hin). lia.
Qed.

(** **** The loop, line by line, for lines that let it move on *)

Lemma ini_parse_loop_lines (cfg : config) (U : Type)
    (handler : U -> list ascii -> list ascii -> list ascii -> U * bool) :
  forall fuel p st0,
    (forall pre l post,
       text_lines p = pre ++ l :: post ->
       fst (process_line cfg U handler (firstn (MAX_LINE - 1) l)
              (handle_lines cfg U handler pre st0)) = Next) ->
    (length (text_lines p) <= fuel)%nat ->
    ini_parse_loop cfg U handler fuel p st0 =
      Some (handle_lines cfg U handler (text_lines p) st0).
Proof.
  induction fuel as [| fuel IH]; intros p st0 Hl Hf.
  - destruct p as [| x p]; [reflexivity |].
    rewrite split_line_lines in Hf by discriminate. simpl in Hf. lia.
  - destruct p as [| x p']; [reflexivity |].
    cbn [ini_parse_loop].
    rewrite split_line_lines in Hl, Hf |- * by discriminate.
    destruct (split_line (x :: p')) as [l nx]. cbn [fst snd] in *.
    unfold handle_lines. cbn [fold_left]. fold (handle_lines cfg U handler).
    pose proof (Hl [] l _ eq_refl) as Hs. cbn [handle_lines fold_left] in Hs.
    change (handle_lines cfg U handler [] st0) with st0 in Hs.
    destruct (process_line cfg U handler (firstn (MAX_LINE - 1) l) st0) as [f st1] eqn:E.
    cbn [fst snd] in *. rewrite Hs.
    destruct nx as [p1 |]; [| reflexivity].
    apply IH.
    + intros pre l' post Ht.
      specialize (Hl (l :: pre) l' post). rewrite Ht in Hl. specialize (Hl eq_refl).
      unfold handle_lines in Hl. cbn [fold_left] in Hl. rewrite E in Hl. exact Hl.
    + cbn [length] in Hf. lia.
Qed.

Lemma text_lines_line (l more : list ascii) :
  ~ In C.newline l ->
  text_lines (l ++ C.newline :: more) = l :: text_lines more.
Proof.
  induction l as [| x l IH]; intros Hn.
  - cbn [app text_lines]. rewrite Ascii.eqb_refl. reflexivity.
  - cbn [app text_lines].
    destruct (Ascii.eqb_spec x C.newline) as [-> | _];
      [exfalso; apply Hn; left; reflexivity |].
    rewrite IH by (intros Hin; apply Hn; right; exact Hin). reflexivity.
Qed.

Lemma text_lines_unlines (ls : list (list ascii)) (rest : list ascii) :
  Forall (fun l => ~ In C.newline l) ls ->
  text_lines (unlines ls ++ rest) = ls ++ text_lines rest.
Proof.
  induction 1 as [| l ls Hl _ IH]; [reflexivity |].
  unfold unlines in *. cbn [flat_map]. rewrite <- !app_assoc. cbn [app].
  rewrite text_lines_line by exact Hl. rewrite IH. reflexivity.
Qed.


Lemma handle_lines_cons (cfg : config) (U : Type)
    (handler : U -> list ascii -> list ascii -> list ascii -> U * bool)
    (l : list ascii) (ls : list (list ascii)) (st : pstate U) :
  handle_lines cfg U handler (l :: ls) st =
  handle_lines cfg U handler ls
    (snd (process_line cfg U handler (firstn (MAX_LINE - 1) l) st)).
Proof. reflexivity. Qed.

Lemma handle_lines_app (cfg : config) (U : Type)
    (handler : U -> list ascii -> list ascii -> list ascii -> U * bool)
    (l1 l2 : list (list ascii)) (st : pstate U) :
  handle_lines cfg U handler (l1 ++ l2) st =
  handle_lines cfg U handler l2 (handle_lines cfg U handler l1 st).
Proof. unfold handle_lines. apply fold_left_app. Qed.

(** **** The number of the line and the error *)

Lemma call_handler_lineno (U : Type)
    (handler : U -> list ascii -> list ascii -> list ascii -> U * bool)
    (st : pstate U) (name value : list ascii) :
  lineno (call_handler U handler st name value) = lineno st /\
  (error (call_handler U handler st name value) = error st \/
   error st = 0%nat /\ error (call_handler U handler st name value) = lineno st).
Proof.
  unfold call_handler.
  destruct (handler (user st) (section st) name value) as [u ok].
  destruct ok; cbn [lineno error set_error]; [auto |].
  destruct (Nat.eqb_spec (error st) 0); auto.
Qed.

Lemma process_line_lineno (cfg : config) (U : Type)
    (handler : U -> list ascii -> list ascii -> list ascii -> U * bool)
    (line : list ascii) (st : pstate U) :
  lineno (snd (process_line cfg U handler line st)) = S (lineno st) /\
  (error (snd (process_line cfg U handler line st)) = error st \/
   error st = 0%nat /\ error (snd (process_line cfg U handler line st)) = S (lineno st)).
Proof.
  unfold process_line. cbv zeta.
  assert (Hset : lineno (set_error U (bump_lineno U st)) = S (lineno st) /\
                 (error (set_error U (bump_lineno U st)) = error st \/
                  error st = 0%nat /\
                  error (set_error U (bump_lineno U st)) = S (lineno st))).
  { unfold set_error. cbn [error lineno bump_lineno].
    destruct (Nat.eqb_spec (error st) 0); auto. }
  assert (Hcall : forall st1 name value,
            lineno st1 = S (lineno st) -> error st1 = error st ->
            lineno (call_handler U handler st1 name value) = S (lineno st) /\
            (error (call_handler U handler st1 name value) = error st \/
             error st = 0%nat /\
             error (call_handler U handler st1 name value) = S (lineno st))).
  { intros st1 name value Hl He.
    destruct (call_handler_lineno U handler st1 name value) as [H1 H2].
    rewrite H1, Hl. split; [reflexivity |].
    destruct H2 as [H2 | [H2 H3]]; [left; congruence | right; split; congruence]. }
  repeat match goal with
    | |- context [match ?l with [] => _ | _ :: _ => _ end] => destruct l
    | |- context [if ?b then _ else _] => destruct b
    end; cbn [snd];
  first [ exact Hset
        | apply Hcall; reflexivity
        | split; [reflexivity | left; reflexivity] ].
Qed.

Lemma handle_lines_lineno (cfg : config) (U : Type)
    (handler : U -> list ascii -> list ascii -> list ascii -> U * bool)
    (ls : list (list ascii)) :
  forall st, lineno (handle_lines cfg U handler ls st) = (lineno st + length ls)%nat.
Proof.
  induction ls as [| l ls IH]; intros st; [cbn; lia |].
  rewrite handle_lines_cons. rewrite IH.
  destruct (process_line_lineno cfg U handler (firstn (MAX_LINE - 1) l) st) as [-> _].
  cbn [length]. lia.
Qed.

Lemma handle_lines_keep_error (cfg : config) (U : Type)
    (handler : U -> list ascii -> list ascii -> list ascii -> U * bool)
    (ls : list (list ascii)) :
  forall st, error st <> 0%nat ->
    error (handle_lines cfg U handler ls st) = error st.
Proof.
  induction ls as [| l ls IH]; intros st He; [reflexivity |].
  rewrite handle_lines_cons.
  pose proof (process_line_keeps_error cfg U handler (firstn (MAX_LINE - 1) l) st He) as Hk.
  rewrite IH by congruence. exact Hk.
Qed.

(** X13: the value returned is the number of the FIRST line in error. In a text whose lines are within the limits, if the lines before a line leave the error at 0 and that line sets it (a syntax error or a refusal by the handler), [ini_parse_file] returns the number of that line, whatever comes after it: no later error overwrites it. *)
Theorem first_error_is_never_overwritten (cfg : config) (U : Type)
    (handler : U -> list ascii -> list ascii -> list ascii -> U * bool)
    (fuel : nat) (before : list (list ascii)) (bad after : list ascii) (u : U) :
  Forall (fun l => ~ In C.newline l) (before ++ [bad]) ->
  (longest_line 0 (unlines (before ++ [bad]) ++ after) <= MAX_SECTION_NAME cfg)%nat ->
  (longest_line 0 (unlines (before ++ [bad]) ++ after) <= MAX_PROPERTY_NAME cfg)%nat ->
  (longest_line 0 (unlines (before ++ [bad]) ++ after) <= MAX_PROPERTY_VALUE cfg)%nat ->
  (length (text_lines (unlines (before ++ [bad]) ++ after)) <= fuel)%nat ->
  error (handle_lines cfg U handler before (init_pstate U u)) = 0%nat ->
  error (handle_lines cfg U handler (before ++ [bad]) (init_pstate U u)) <> 0%nat ->
  exists u',
    ini_parse_file cfg U handler fuel (unlines (before ++ [bad]) ++ after) u =
      Some (S (length before), u').
Proof.
  intros Hnl H1 H2 H3 Hf Hok Hbad.
  set (text := unlines (before ++ [bad]) ++ after) in *.
  assert (Hshort : forall l, In l (text_lines text) ->
             forall st, fst (process_line cfg U handler (firstn (MAX_LINE - 1) l) st) = Next).
  { intros l Hin st. pose proof (longest_line_lines text 0%nat l Hin) as Hl.
    pose proof (firstn_shorter (MAX_LINE - 1) l).
    apply short_line_moves_on; lia. }
  unfold ini_parse_file.
  rewrite ini_parse_loop_lines; [| | exact Hf].
  - eexists. f_equal. f_equal.
    unfold text. rewrite text_lines_unlines by exact Hnl.
    rewrite !handle_lines_app.
    rewrite handle_lines_app in Hbad.
    set (st := handle_lines cfg U handler before (init_pstate U u)) in *.
    assert (Hn : lineno st = length before)
      by (unfold st; rewrite handle_lines_lineno; reflexivity).
    rewrite handle_lines_keep_error by exact Hbad.
    unfold handle_lines in *. cbn [fold_left] in *.
    destruct (process_line_lineno cfg U handler (firstn (MAX_LINE - 1) bad) st)
      as [_ [He | [_ He]]]; [congruence | rewrite He, Hn; reflexivity].
  - intros pre l post Ht. apply Hshort. rewrite Ht. apply in_elt.
Qed.

(** **** A property line in a text *)




Lemma split_line_prefix (p : list ascii) :
  forall l nx, split_line p = (l, nx) -> exists r, p = l ++ r.
Proof.
  induction p as [| x p IH]; intros l nx H; cbn [split_line] in H.
  - injection H as <- <-. exists []. reflexivity.
  - destruct (Ascii.eqb x C.newline).
    + injection H as <- <-. exists (x :: p). reflexivity.
    + destruct (split_line p) as [l0 n0]. injection H as <- <-.
      destruct (IH l0 n0 eq_refl) as [r ->]. exists r. reflexivity.
Qed.

Lemma starts_with_app_true (p l r : list ascii) :
  C.starts_with p l = true -> C.starts_with p (l ++ r) = true.
Proof.
  revert l. induction p as [| a p IH]; intros l H; [reflexivity |].
  destruct l as [| b l]; [discriminate |]. cbn [C.starts_with app] in *.
  apply andb_true_iff in H. destruct H as [-> H]. apply IH. exact H.
Qed.

Lemma process_line_behind_BOM (cfg : config) (U : Type)
    (handler : U -> list ascii -> list ascii -> list ascii -> U * bool)
    (line : list ascii) (u : U) :
  INI_ALLOW_BOM cfg = true ->
  C.starts_with BOM line = false ->
  process_line cfg U handler (BOM ++ line) (init_pstate U u) =
  process_line cfg U handler line (init_pstate U u).
Proof.
  intros Hb Hl. unfold process_line. cbv zeta. rewrite Hb, Hl.
  change (lineno (bump_lineno U (init_pstate U u)) =? 1)%nat with true.
  assert (Hs : C.starts_with BOM (BOM ++ line) = true).
  { unfold BOM. cbn [app C.starts_with]. rewrite !Ascii.eqb_refl. reflexivity. }
  rewrite Hs. cbn [andb orb].
  change (skipn 3 (BOM ++ line)) with line.
  change (prev_name (bump_lineno U (init_pstate U u))) with (@nil ascii).
  cbn [negb]. rewrite !andb_false_r. reflexivity.
Qed.

(** X15: with INI_ALLOW_BOM, a UTF-8 byte-order mark in front of the text changes nothing: the result and the handler calls are those of the text without it. *)
Theorem byte_order_mark_is_skipped (cfg : config) (U : Type)
    (handler : U -> list ascii -> list ascii -> list ascii -> U * bool)
    (fuel : nat) (text : list ascii) (u : U) :
  INI_ALLOW_BOM cfg = true ->
  C.starts_with BOM text = false ->
  (length (fst (split_line text)) + 3 < MAX_LINE)%nat ->
  (length (fst (split_line text)) <= MAX_SECTION_NAME cfg)%nat ->
  (length (fst (split_line text)) <= MAX_PROPERTY_NAME cfg)%nat ->
  (length (fst (split_line text)) <= MAX_PROPERTY_VALUE cfg)%nat ->
  ini_parse_file cfg U handler (S fuel) (BOM ++ text) u =
  ini_parse_file cfg U handler (S fuel) text u.
Proof.
  intros Hb Ht Hlen H1 H2 H3. unfold ini_parse_file.
  destruct (split_line text) as [l1 nx] eqn:E. cbn [fst] in *.
  assert (Hl1 : C.starts_with BOM l1 = false).
  { destruct (C.starts_with BOM l1) eqn:El; [| reflexivity].
    destruct (split_line_prefix text l1 nx E) as [r ->].
    rewrite (starts_with_app_true _ _ r El) in Ht. discriminate. }
  assert (Hsplit : split_line (BOM ++ text) = (BOM ++ l1, nx)).
  { unfold BOM. cbn [app split_line].
    change (Ascii.eqb (ascii_of_nat 239) C.newline) with false.
    change (Ascii.eqb (ascii_of_nat 187) C.newline) with false.
    change (Ascii.eqb (ascii_of_nat 191) C.newline) with false.
    cbv match. rewrite E. reflexivity. }
  change (BOM ++ text) with (ascii_of_nat 239 :: ([ascii_of_nat 187; ascii_of_nat 191] ++ text)).
  cbn [ini_parse_loop].
  change (ascii_of_nat 239 :: ([ascii_of_nat 187; ascii_of_nat 191] ++ text)) with (BOM ++ text).
  rewrite Hsplit.
  rewrite (firstn_all2 (n := MAX_LINE - 1) (BOM ++ l1))
    by (rewrite length_app; change (length BOM) with 3%nat; lia).
  rewrite process_line_behind_BOM by assumption.
  pose proof (short_line_moves_on cfg U handler l1 (init_pstate U u) H1 H2 H3) as Hn.
  destruct text as [| x t].
  - cbn [split_line] in E. injection E as <- <-.
    destruct (process_line cfg U handler [] (init_pstate U u)) as [f st1] eqn:Ep.
    cbn [fst] in Hn. subst f.
    unfold process_line in Ep. cbv zeta in Ep. rewrite andb_false_r in Ep.
    cbn in Ep. injection Ep as <-. reflexivity.
  - cbn [ini_parse_loop]. rewrite E.
    rewrite (firstn_all2 (n := MAX_LINE - 1) l1) by lia.
    destruct (process_line cfg U handler l1 (init_pstate U u)) as [f st1].
    cbn [fst] in Hn. subst f. reflexivity.
Qed.

(** **** The same, on lines of an [.editorconfig] *)

Lemma trailing_white_space_is_dropped_witness :
  process_line editorconfig_limits _ (recorder []) (cs "root = true" ++ cs "   ")
    (init_pstate _ []) =
  process_line editorconfig_limits _ (recorder []) (cs "root = true") (init_pstate _ []).
Proof.
  apply (trailing_white_space_is_dropped editorconfig_limits _ (recorder [])
           (cs "root = true") (cs "   ") (init_pstate _ [])).
  repeat constructor.
Defined.

Lemma blank_and_comment_lines_are_passed_over_witness :
  process_line editorconfig_limits _ (recorder []) (cs "  " ++ cs "; a note")
    (init_pstate _ []) =
  (Next, bump_lineno _ (init_pstate _ [])).
Proof.
  apply (blank_and_comment_lines_are_passed_over editorconfig_limits _ (recorder [])
           (cs "  ") (cs "; a note") (init_pstate _ [])).
  - repeat constructor.
  - right. exists ";"%char, (cs " a note"). split; reflexivity.
Defined.

Lemma line_without_separator_is_an_error_witness :
  process_line editorconfig_limits _ (recorder []) ([] ++ "n"%char :: cs "o separator")
    {| section := cs "*"; prev_name := []; lineno := 6; error := 0; user := [] |} =
  (Next,
   {| section := cs "*"; prev_name := []; lineno := 7; error := 7; user := [] |}).
Proof.
  apply (line_without_separator_is_an_error editorconfig_limits _ (recorder [])
           [] "n"%char (cs "o separator")
           {| section := cs "*"; prev_name := []; lineno := 6; error := 0; user := [] |}).
  - constructor.
  - reflexivity.
  - reflexivity.
  - discriminate.
  - repeat constructor.
  - left. reflexivity.
  - right. left. discriminate.
Defined.

Lemma section_line_sets_the_section_witness :
  process_line editorconfig_limits _ (recorder [])
    ([] ++ "["%char :: cs "*.c" ++ "]"%char :: [])
    {| section := cs "*"; prev_name := cs "root"; lineno := 2; error := 0; user := [] |} =
  (Next,
   {| section := cs "*.c"; prev_name := []; lineno := 3; error := 0; user := [] |}).
Proof.
  apply (section_line_sets_the_section editorconfig_limits _ (recorder [])
           [] (cs "*.c") []
           {| section := cs "*"; prev_name := cs "root"; lineno := 2; error := 0;
              user := [] |}).
  - constructor.
  - repeat constructor.
  - constructor.
  - vm_compute. lia.
  - left. reflexivity.
  - right. left. discriminate.
Defined.


Lemma indented_line_continues_the_value_witness :
  process_line
    {| MAX_SECTION_NAME := 4096; MAX_PROPERTY_NAME := 1024; MAX_PROPERTY_VALUE := 4096;
       INI_ALLOW_BOM := true; INI_ALLOW_MULTILINE := true |} _ (recorder [])
    (" "%char :: cs " " ++ "m"%char :: cs "ore  ")
    {| section := cs "*"; prev_name := cs "key"; lineno := 2; error := 0; user := [] |} =
  (Next,
   {| section := cs "*"; prev_name := cs "key"; lineno := 3; error := 0;
      user := [(cs "*", cs "key", cs "more")] |}).
Proof.
  apply (indented_line_continues_the_value
           {| MAX_SECTION_NAME := 4096; MAX_PROPERTY_NAME := 1024;
              MAX_PROPERTY_VALUE := 4096; INI_ALLOW_BOM := true;
              INI_ALLOW_MULTILINE := true |} _ (recorder [])
           " "%char (cs " ") "m"%char (cs "ore  ")
           {| section := cs "*"; prev_name := cs "key"; lineno := 2; error := 0;
              user := [] |}).
  - reflexivity.
  - discriminate.
  - repeat constructor.
  - reflexivity.
  - reflexivity.
Defined.


Lemma first_error_is_never_overwritten_witness :
  exists u',
    ini_parse_file editorconfig_limits _ (recorder [cs "bad"]) 5
      (unlines ([cs "a=b"] ++ [cs "no separator"]) ++ cs "bad=1" ++ C.newline :: cs "[x")
      [] = Some (S (length [cs "a=b"]), u').
Proof.
  apply (first_error_is_never_overwritten editorconfig_limits _ (recorder [cs "bad"]) 5
           [cs "a=b"] (cs "no separator") (cs "bad=1" ++ C.newline :: cs "[x") []).
  - repeat constructor; vm_compute; intuition discriminate.
  - vm_compute. lia.
  - vm_compute. lia.
  - vm_compute. lia.
  - vm_compute. lia.
  - vm_compute. reflexivity.
  - vm_compute. discriminate.
Defined.


Lemma text_is_handled_line_by_line_witness :
  ini_parse_file editorconfig_limits _ (recorder []) 2
    (cs "root = true" ++ C.newline :: cs "[*]" ++ [C.newline]) [] =
  Some (error (handle_lines editorconfig_limits _ (recorder [])
                 [cs "root = true"; cs "[*]"] (init_pstate _ [])),
        user (handle_lines editorconfig_limits _ (recorder [])
                [cs "root = true"; cs "[*]"] (init_pstate _ []))).
Proof.
  apply (text_is_handled_line_by_line editorconfig_limits _ (recorder []) 2
           (cs "root = true" ++ C.newline :: cs "[*]" ++ [C.newline]) []).
  - vm_compute. lia.
  - vm_compute. lia.
  - vm_compute. lia.
  - vm_compute. lia.
Defined.

Lemma byte_order_mark_is_skipped_witness :
  ini_parse_file editorconfig_limits _ (recorder []) (S 9) (BOM ++ cs "root = true") [] =
  ini_parse_file editorconfig_limits _ (recorder []) (S 9) (cs "root = true") [].
Proof.
  apply (byte_order_mark_is_skipped editorconfig_limits _ (recorder []) 9
           (cs "root = true") []).
  - reflexivity.
  - reflexivity.
  - vm_compute. lia.
  - vm_compute. lia.
  - vm_compute. lia.
  - vm_compute. lia.
Defined.

End IniMore.

(* ===================================================================== *)
(** ** Further properties of [ec_glob]: patterns made of tokens and choices *)
(* ===================================================================== *)

Section EngineMore.
Import Pcre.

Lemma mt_repeat (lo : nat) (hi : option nat) (r1 : regex) (pos : nat)
    (s : list ascii) (caps : captures) (k : kont) :
  mt (RRepeat lo hi r1) pos s caps k = rep_loop r1 lo hi k (S (length s)) 0 pos s caps.
Proof. reflexivity. Qed.






(** **** A greedy run of one-character matches *)

Lemma S_neq (pos : nat) : (S pos =? pos)%nat = false.
Proof. apply Nat.eqb_neq. lia. Qed.

Lemma rep_loop_step (a : regex) (P : ascii -> bool) (lo : nat) (k : kont) :
  one_char a P ->
  forall fuel n pos s caps,
    rep_loop a lo None k (S fuel) n pos s caps =
      match
        match s with
        | x :: s' => if P x then rep_loop a lo None k fuel (S n) (S pos) s' caps else None
        | [] => None
        end
      with
      | Some c => Some c
      | None => if (lo <=? n)%nat then k pos s caps else None
      end.
Proof.
  intros Ha fuel n pos s caps. cbn [rep_loop at_max]. rewrite Ha.
  destruct s as [| x s']; [reflexivity |].
  destruct (P x); [| reflexivity]. rewrite S_neq. reflexivity.
Qed.


(** Whatever the loop answers, the continuation gave it after some run. *)
Lemma rep_loop_sound (a : regex) (P : ascii -> bool) (lo : nat) (k : kont) :
  one_char a P ->
  forall fuel n pos s caps res,
    rep_loop a lo None k fuel n pos s caps = Some res ->
    exists pre s', s = pre ++ s' /\ Forall (fun x => P x = true) pre /\
                   (lo <= n + length pre)%nat /\
                   k (pos + length pre)%nat s' caps = Some res.
Proof.
  intros Ha. induction fuel as [| fuel IH]; intros n pos s caps res H.
  - cbn [rep_loop] in H. destruct (Nat.leb_spec lo n); [| discriminate].
    exists [], s. cbn [app length]. rewrite !Nat.add_0_r. auto.
  - rewrite (rep_loop_step a P lo k Ha) in H.
    assert (Hleave : (if (lo <=? n)%nat then k pos s caps else None) = Some res ->
              exists pre s', s = pre ++ s' /\ Forall (fun x => P x = true) pre /\
                   (lo <= n + length pre)%nat /\
                   k (pos + length pre)%nat s' caps = Some res).
    { intros E. destruct (Nat.leb_spec lo n); [| discriminate].
      exists [], s. cbn [app length]. rewrite !Nat.add_0_r. auto. }
    destruct s as [| x s']; [apply Hleave; exact H |].
    destruct (P x) eqn:Px; [| apply Hleave; exact H].
    destruct (rep_loop a lo None k fuel (S n) (S pos) s' caps) as [c |] eqn:E;
      [| apply Hleave; exact H].
    injection H as <-. apply IH in E.
    destruct E as (pre & s'' & -> & Hp & Hlo & Hk).
    exists (x :: pre), s''. cbn [app length]. split; [reflexivity |].
    split; [constructor; assumption |]. split; [lia |].
    rewrite <- Nat.add_succ_comm. exact Hk.
Qed.



(** **** Sequences that start with one character, an optional character, a run *)

Lemma mt_seq_char (c : ascii) (r : regex) (pos : nat) (s : list ascii)
    (caps : captures) (k : kont) (res : captures) :
  mt (RSeq (RChar c) r) pos s caps k = Some res ->
  exists s', s = c :: s' /\ mt r (S pos) s' caps k = Some res.
Proof.
  cbn [mt]. destruct s as [| x s']; [discriminate |].
  destruct (Ascii.eqb_spec x c) as [-> | Hne]; [| discriminate].
  intros H. exists s'. auto.
Qed.

Lemma mt_optional (a : regex) (P : ascii -> bool) (pos : nat) (s : list ascii)
    (caps : captures) (k : kont) :
  one_char a P ->
  mt (RRepeat 0 (Some 1) a) pos s caps k =
    match
      match s with
      | x :: s' => if P x then k (S pos) s' caps else None
      | [] => None
      end
    with
    | Some c => Some c
    | None => k pos s caps
    end.
Proof.
  intros Ha. rewrite mt_repeat. cbn [rep_loop at_max Nat.leb]. rewrite Ha.
  destruct s as [| x s']; [reflexivity |].
  destruct (P x); [| reflexivity]. rewrite S_neq. reflexivity.
Qed.

Lemma mt_seq_optional (a : regex) (P : ascii -> bool) (r : regex) (pos : nat)
    (s : list ascii) (caps : captures) (k : kont) (res : captures) :
  one_char a P ->
  mt (RSeq (RRepeat 0 (Some 1) a) r) pos s caps k = Some res ->
  exists pre s', s = pre ++ s' /\ (pre = [] \/ exists x, pre = [x] /\ P x = true) /\
                 mt r (pos + length pre) s' caps k = Some res.
Proof.
  intros Ha.
  change (mt (RSeq (RRepeat 0 (Some 1) a) r) pos s caps k)
    with (mt (RRepeat 0 (Some 1) a) pos s caps
            (fun pos' s' caps' => mt r pos' s' caps' k)).
  rewrite (mt_optional a P) by exact Ha.
  assert (Hskip : mt r pos s caps k = Some res ->
            exists pre s', s = pre ++ s' /\ (pre = [] \/ exists x, pre = [x] /\ P x = true) /\
                 mt r (pos + length pre) s' caps k = Some res).
  { intros H. exists [], s. cbn [app length]. rewrite Nat.add_0_r. auto. }
  destruct s as [| x s']; [exact Hskip |].
  destruct (P x) eqn:Px; [| exact Hskip].
  destruct (mt r (S pos) s' caps k) as [c |] eqn:E; [| exact Hskip].
  intros H. injection H as <-. exists [x], s'. cbn [app length].
  rewrite Nat.add_1_r. split; [reflexivity |]. split; [right; exists x; auto | exact E].
Qed.

Lemma mt_seq_run (a : regex) (P : ascii -> bool) (lo : nat) (r : regex) (pos : nat)
    (s : list ascii) (caps : captures) (k : kont) (res : captures) :
  one_char a P ->
  mt (RSeq (RRepeat lo None a) r) pos s caps k = Some res ->
  exists pre s', s = pre ++ s' /\ Forall (fun x => P x = true) pre /\
                 (lo <= length pre)%nat /\
                 mt r (pos + length pre) s' caps k = Some res.
Proof.
  intros Ha H.
  change (mt (RSeq (RRepeat lo None a) r) pos s caps k)
    with (mt (RRepeat lo None a) pos s caps (fun pos' s' caps' => mt r pos' s' caps' k)) in H.
  rewrite mt_repeat in H. apply (rep_loop_sound a P lo _ Ha) in H.
  destruct H as (pre & s' & -> & Hp & Hlo & Hk). exists pre, s'. auto.
Qed.

(** **** The expression that recognises a numeric range *)

Lemma number_regex_split : Glob.number_regex = RSeq RBol number_body.
Proof. reflexivity. Qed.

Lemma one_char_sign : one_char (RClass false [CChar "+"; CChar "-"]) is_sign.
Proof.
  intros pos s caps k. cbn [mt]. destruct s as [| x s']; [reflexivity |].
  unfold is_sign. cbn [class_mem existsb citem_mem xorb]. rewrite orb_false_r.
  reflexivity.
Qed.

Lemma one_char_digit : one_char (RClass false [CDigit]) C.isdigit.
Proof.
  intros pos s caps k. cbn [mt]. destruct s as [| x s']; [reflexivity |].
  cbn [class_mem existsb citem_mem xorb]. rewrite orb_false_r. reflexivity.
Qed.

(** What the expression matches starts with a brace and has two dots in a
    row. *)
Lemma number_match_dots (pos : nat) (s : list ascii) (caps : captures) (k : kont)
    (res : captures) :
  mt number_body pos s caps k = Some res ->
  exists a b, s = "{"%char :: a ++ "."%char :: "."%char :: b.
Proof.
  unfold number_body. intros H.
  apply mt_seq_char in H. destruct H as (s1 & -> & H).
  apply (mt_seq_optional _ _ _ _ _ _ _ _ one_char_sign) in H.
  destruct H as (sg & s2 & -> & _ & H).
  apply (mt_seq_run _ _ _ _ _ _ _ _ _ one_char_digit) in H.
  destruct H as (ds & s3 & -> & _ & _ & H).
  apply mt_seq_char in H. destruct H as (s4 & -> & H).
  apply mt_seq_char in H. destruct H as (s5 & -> & H).
  exists (sg ++ ds), s5. rewrite <- app_assoc. reflexivity.
Qed.


End EngineMore.

Section TokenTranslation.
Import Pcre Glob.

Lemma ordinary_facts (x : ascii) :
  ordinary x = true ->
  Ascii.eqb x "\" = false /\ Ascii.eqb x "?" = false /\ Ascii.eqb x "*" = false /\
  Ascii.eqb x "[" = false /\ Ascii.eqb x "]" = false /\ Ascii.eqb x "{" = false /\
  Ascii.eqb x "}" = false.
Proof.
  unfold ordinary. intros H. apply negb_true_iff in H.
  repeat (apply orb_false_iff in H; destruct H as [H ?]). auto 10.
Qed.

Lemma alnum_ordinary (x : ascii) : C.isalnum x = true -> ordinary x = true.
Proof.
  destruct x as [[] [] [] [] [] [] [] []]; vm_compute; intros H;
    first [discriminate H | reflexivity].
Qed.

Lemma alnum_plain (x : ascii) :
  C.isalnum x = true ->
  Ascii.eqb x "-" = false /\ Ascii.eqb x "," = false /\ Ascii.eqb x "/" = false /\
  Ascii.eqb x "!" = false /\ Ascii.eqb x "^" = false.
Proof.
  destruct x as [[] [] [] [] [] [] [] []]; vm_compute; intros H;
    first [discriminate H | auto].
Qed.

(** **** Counting the braces *)

Lemma count_braces_other (x : ascii) (c1 : list ascii) (l r : nat) :
  Ascii.eqb x "\" = false -> Ascii.eqb x "{" = false -> Ascii.eqb x "}" = false ->
  (r <= l)%nat ->
  count_braces l r (x :: c1) = count_braces l r c1.
Proof.
  intros H1 H2 H3 Hle. cbn [count_braces]. rewrite H1, H2, H3.
  assert (Hlt : (l <? r)%nat = false) by (apply Nat.ltb_ge; exact Hle).
  rewrite Hlt. destruct c1; reflexivity.
Qed.

Lemma count_braces_run (c rest : list ascii) (l r : nat) :
  Forall (fun x => Ascii.eqb x "\" = false /\ Ascii.eqb x "{" = false /\
                   Ascii.eqb x "}" = false) c ->
  (r <= l)%nat ->
  count_braces l r (c ++ rest) = count_braces l r rest.
Proof.
  induction 1 as [| x c (H1 & H2 & H3) _ IH]; intros Hle; [reflexivity |].
  cbn [app]. rewrite count_braces_other by assumption. apply IH. exact Hle.
Qed.








Lemma ordinary_plain (w : list ascii) :
  Forall (fun x => ordinary x = true) w ->
  Forall (fun x => Ascii.eqb x "\" = false /\ Ascii.eqb x "{" = false /\
                   Ascii.eqb x "}" = false) w.
Proof.
  intros H. eapply List.Forall_impl; [| exact H]. intros x Hx.
  destruct (ordinary_facts x Hx) as (? & _ & _ & _ & _ & ? & ?). auto.
Qed.



(** **** What a token sees of the text behind it *)







(** **** The braces of a choice *)





(** **** One turn of the loop for each kind of character *)

Lemma translate_step_ordinary (paired : bool) (re : regex) (x : ascii)
    (c1 : list ascii) (st : tstate) :
  ordinary x = true ->
  is_in_bracket st = false ->
  (x = ","%char -> (brace_level st <= 0)%Z) ->
  (p_pcre st + length (escaped x) < BUF_SIZE)%nat ->
  (x = "/"%char -> C.starts_with (cs "**/") c1 = false) ->
  translate_step paired re x c1 st = TOk (c1, emit st (escaped x)).
Proof.
  intros Hx Hbr Hb Hp Hsl.
  destruct (ordinary_facts x Hx) as (H1 & H2 & H3 & H4 & H5 & H6 & H7).
  unfold translate_step. rewrite H1, H2, H3, H4, H5, H6, H7.
  destruct (Ascii.eqb_spec x "-"%char) as [-> | Hm].
  { rewrite Hbr. rewrite STRING_CAT_ok by exact Hp. reflexivity. }
  destruct (Ascii.eqb_spec x ","%char) as [-> | Hc].
  { assert (Hlvl : (0 <? brace_level st)%Z = false)
      by (apply Z.ltb_ge; apply Hb; reflexivity).
    rewrite Hlvl. rewrite STRING_CAT_ok by exact Hp. reflexivity. }
  destruct (Ascii.eqb_spec x "/"%char) as [-> | Hs].
  { change (C.starts_with (cs "/**/") ("/"%char :: c1))
      with (C.starts_with (cs "**/") c1).
    rewrite (Hsl eq_refl). rewrite STRING_CAT_ok by exact Hp. reflexivity. }
  unfold escaped in *. destruct (C.isalnum x).
  - rewrite put_ok by (simpl in Hp; lia). reflexivity.
  - rewrite put_ok by (simpl in Hp; lia). cbn [tbind].
    rewrite put_ok by (cbn [emit p_pcre length] in *; lia).
    cbn [tbind]. rewrite emit_emit. reflexivity.
Qed.

Lemma translate_step_alnum (paired : bool) (re : regex) (x : ascii)
    (c1 : list ascii) (st : tstate) :
  C.isalnum x = true ->
  (p_pcre st < BUF_SIZE)%nat ->
  translate_step paired re x c1 st = TOk (c1, emit st [x]).
Proof.
  intros Hx Hp.
  destruct (ordinary_facts x (alnum_ordinary x Hx)) as (H1 & H2 & H3 & H4 & H5 & H6 & H7).
  destruct (alnum_plain x Hx) as (H8 & H9 & H10 & _).
  unfold translate_step. rewrite H1, H2, H3, H4, H5, H6, H7, H8, H9, H10, Hx.
  rewrite put_ok by exact Hp. reflexivity.
Qed.

Lemma translate_step_dash (paired : bool) (re : regex) (c1 : list ascii) (st : tstate) :
  is_in_bracket st = true ->
  (p_pcre st < BUF_SIZE)%nat ->
  translate_step paired re "-" c1 st = TOk (c1, emit st (cs "-")).
Proof.
  intros Hb Hp. unfold translate_step. cbn [Ascii.eqb Bool.eqb]. cbv match.
  rewrite Hb. rewrite put_ok by exact Hp. reflexivity.
Qed.



Lemma translate_step_star (paired : bool) (re : regex) (c1 : list ascii) (st : tstate) :
  C.starts_with (cs "*") c1 = false ->
  (p_pcre st + 6 < BUF_SIZE)%nat ->
  translate_step paired re "*" c1 st = TOk (c1, emit st (cs "[^\/]*")).
Proof.
  intros Hc Hp.
  assert (E : translate_step paired re "*" c1 st =
              let* st1 := STRING_CAT st (cs "[^\/]*") in TOk (c1, st1)).
  { unfold translate_step. cbn [Ascii.eqb Bool.eqb]. cbv match.
    destruct c1 as [| y c2]; [reflexivity |].
    destruct y as [[] [] [] [] [] [] [] []]; first [discriminate Hc | reflexivity]. }
  rewrite E. rewrite STRING_CAT_ok by exact Hp. reflexivity.
Qed.

(** **** A run of ordinary characters *)

Lemma starts_with_ordinary (x : ascii) (c rest : list ascii) :
  ordinary x = true -> C.starts_with (cs "**/") ((x :: c) ++ rest) = false.
Proof.
  intros Hx. destruct (ordinary_facts x Hx) as (_ & _ & H3 & _).
  cbn [cs list_ascii_of_string app C.starts_with].
  rewrite (Ascii.eqb_sym "*" x), H3. reflexivity.
Qed.

Lemma translate_loop_word (paired : bool) (re : regex) (c : list ascii) :
  Forall (fun x => ordinary x = true) c ->
  forall f rest st,
    is_in_bracket st = false ->
    (In ","%char c -> (brace_level st <= 0)%Z) ->
    (p_pcre st + length (flat_map escaped c) < BUF_SIZE)%nat ->
    (List.last c "a"%char <> "/"%char \/ C.starts_with (cs "**/") rest = false) ->
    translate_loop (length c + f) paired re (c ++ rest) st =
    translate_loop f paired re rest (emit st (flat_map escaped c)).
Proof.
  induction 1 as [| x c Hx Hc IH]; intros f rest st Hbr Hb Hp Hl.
  - cbn [length app flat_map Nat.add]. f_equal.
    unfold emit. rewrite app_nil_r, Nat.add_0_r. destruct st; reflexivity.
  - cbn [length app Nat.add translate_loop]. cbn [flat_map] in Hp.
    rewrite length_app in Hp.
    rewrite translate_step_ordinary; try assumption; try lia.
    + cbn [tbind fst snd]. rewrite IH; try assumption.
      * rewrite emit_emit. reflexivity.
      * intros Hin. apply Hb. right. exact Hin.
      * cbn [emit p_pcre]. lia.
      * destruct c as [| y c'].
        -- left. cbn. discriminate.
        -- exact Hl.
    + intros ->. apply Hb. left. reflexivity.
    + intros ->. destruct c as [| y c'].
      * destruct Hl as [Hl | Hl]; [cbn in Hl; congruence | exact Hl].
      * inversion Hc; subst. apply starts_with_ordinary. assumption.
Qed.

(** **** The members of a bracket expression *)

Lemma translate_loop_members (paired : bool) (re : regex) (c : list ascii) :
  Forall (fun x => C.isalnum x = true \/ x = "-"%char) c ->
  forall f rest st,
    is_in_bracket st = true ->
    (p_pcre st + length c < BUF_SIZE)%nat ->
    translate_loop (length c + f) paired re (c ++ rest) st =
    translate_loop f paired re rest (emit st c).
Proof.
  induction 1 as [| x c Hx Hc IH]; intros f rest st Hbr Hp.
  - cbn [length app Nat.add]. f_equal.
    unfold emit. rewrite app_nil_r, Nat.add_0_r. destruct st; reflexivity.
  - cbn [length app Nat.add translate_loop]. cbn [length] in Hp.
    assert (E : translate_step paired re x (c ++ rest) st = TOk (c ++ rest, emit st [x])).
    { destruct Hx as [Hx | ->];
        [apply translate_step_alnum | apply translate_step_dash]; try assumption; lia. }
    rewrite E. cbn [tbind fst snd]. rewrite IH.
    + rewrite emit_emit. reflexivity.
    + exact Hbr.
    + cbn [emit p_pcre length]. lia.
Qed.







Lemma translate_step_open (paired : bool) (re : regex) (x : ascii) (l : list ascii)
    (st : tstate) :
  is_in_bracket st = false ->
  bracket_has_slash ("["%char :: x :: l) = false ->
  Ascii.eqb x "!" = false ->
  (p_pcre st < BUF_SIZE)%nat ->
  translate_step paired re "[" (x :: l) st = TOk (x :: l, emit (set_bracket true st) ["["%char]).
Proof.
  intros Hbr Hs Hx Hp.
  assert (E : translate_step paired re "[" (x :: l) st =
              let* st1 := put (set_bracket true st) "[" in TOk (x :: l, st1)).
  { unfold translate_step. cbn [Ascii.eqb Bool.eqb]. cbv match. rewrite Hbr, Hs.
    destruct x as [[] [] [] [] [] [] [] []]; first [discriminate Hx | reflexivity]. }
  rewrite E. rewrite put_ok by exact Hp. reflexivity.
Qed.



Lemma translate_loop_S (f : nat) (paired : bool) (re : regex) (x : ascii)
    (c1 : list ascii) (st : tstate) :
  translate_loop (S f) paired re (x :: c1) st =
    let* r := translate_step paired re x c1 st in
    translate_loop f paired re (fst r) (snd r).
Proof. reflexivity. Qed.



(** **** A choice between words *)
















(** **** An escaped character, [/**/], one word in braces *)












End TokenTranslation.

Section TokenTranslationWhole.
Import Pcre Glob.




(** **** A sequence of tokens, then the rest *)


(** **** A choice between sequences of tokens *)













End TokenTranslationWhole.

Section TokenCompilation.
Import Pcre Glob.


Lemma no_quant_head_after_escape (x : ascii) (tl : list ascii) :
  no_quant_head (escaped x ++ tl) = true.
Proof.
  unfold escaped. destruct (C.isalnum x) eqn:Ha; [| reflexivity].
  pose proof (alnum_not_special x Ha) as Hs.
  cbn [app no_quant_head].
  rewrite (special_spec x "*" Hs) by (vm_compute; tauto).
  rewrite (special_spec x "+" Hs) by (vm_compute; tauto).
  rewrite (special_spec x "?" Hs) by (vm_compute; tauto).
  rewrite (special_spec x "{" Hs) by (vm_compute; tauto).
  reflexivity.
Qed.

Lemma parse_seq_escaped_step (x : ascii) (rest : list ascii) (f ncap : nat) :
  no_quant_head rest = true ->
  parse_seq (S (S f)) ncap (escaped x ++ rest) =
    obind (parse_seq (S f) ncap rest)
      (fun '(r, n2, rest2) => Ok (RSeq (RChar x) r, n2, rest2)).
Proof.
  intros Hq. unfold escaped.
  destruct (C.isalnum x) eqn:Ha.
  - pose proof (alnum_not_special x Ha) as Hs.
    cbn [app parse_seq parse_atom].
    rewrite (special_spec x "|" Hs) by (vm_compute; tauto).
    rewrite (special_spec x ")" Hs) by (vm_compute; tauto).
    rewrite (special_spec x "(" Hs) by (vm_compute; tauto).
    rewrite (special_spec x "[" Hs) by (vm_compute; tauto).
    rewrite (special_spec x "\" Hs) by (vm_compute; tauto).
    rewrite (special_spec x "." Hs) by (vm_compute; tauto).
    rewrite (special_spec x "^" Hs) by (vm_compute; tauto).
    rewrite (special_spec x "$" Hs) by (vm_compute; tauto).
    rewrite (special_spec x "*" Hs) by (vm_compute; tauto).
    rewrite (special_spec x "+" Hs) by (vm_compute; tauto).
    rewrite (special_spec x "?" Hs) by (vm_compute; tauto).
    rewrite (special_spec x "{" Hs) by (vm_compute; tauto).
    cbn [orb obind]. rewrite parse_quant_none by exact Hq. reflexivity.
  - cbn [app parse_seq parse_atom].
    change (Ascii.eqb "\" "|") with false. change (Ascii.eqb "\" ")") with false.
    change (Ascii.eqb "\" "(") with false. change (Ascii.eqb "\" "[") with false.
    change (Ascii.eqb "\" "\") with true.
    cbn [orb]. cbv match. rewrite Ha. cbn [obind].
    rewrite parse_quant_none by exact Hq. reflexivity.
Qed.

(** A run of escaped characters in front of [tl]. *)
Lemma parse_seq_word (w : list ascii) :
  forall f ncap tl,
    no_quant_head tl = true ->
    parse_seq (length w + S f) ncap (flat_map escaped w ++ tl) =
      obind (parse_seq (S f) ncap tl)
        (fun '(r, n2, rest2) => Ok (lit_seq w r, n2, rest2)).
Proof.
  induction w as [| x w IH]; intros f ncap tl Hq.
  - cbn [length Nat.add flat_map app lit_seq fold_right].
    destruct (parse_seq (S f) ncap tl) as [[[r n2] rest2] | |]; reflexivity.
  - cbn [length flat_map]. rewrite <- app_assoc.
    replace (S (length w) + S f)%nat with (S (S (length w + f))) by lia.
    rewrite parse_seq_escaped_step.
    + replace (S (length w + f)) with (length w + S f)%nat by lia.
      rewrite IH by exact Hq.
      destruct (parse_seq (S f) ncap tl) as [[[r n2] rest2] | |]; reflexivity.
    + destruct w as [| y w']; [exact Hq |].
      cbn [flat_map]. rewrite <- app_assoc. apply no_quant_head_after_escape.
Qed.

(** **** Bracket expressions *)

Lemma parse_class_items_cons (first : bool) (c : ascii) (s1 : list ascii) :
  parse_class_items first (c :: s1) =
      if (c =c "]") && negb first then Ok ([], s1)
      else if c =c "\" then
        match s1 with
        | [] => Rejected
        | e :: s2 =>
            if C.isalnum e then
              if e =c "d" then
                match s2 with
                | "-"%char :: _ => Unmodelled
                | _ => obind (parse_class_items false s2)
                         (fun '(l, r) => Ok (CDigit :: l, r))
                end
              else Unmodelled
            else
              match s2 with
              | "-"%char :: "]"%char :: _ =>
                  obind (parse_class_items false s2) (fun '(l, r) => Ok (CChar e :: l, r))
              | "-"%char :: "\"%char :: h :: s3 =>
                  if C.isalnum h then Unmodelled
                  else if (C.code h <? C.code e)%nat then Rejected
                  else obind (parse_class_items false s3)
                         (fun '(l, r) => Ok (CRange e h :: l, r))
              | "-"%char :: h :: s3 =>
                  if (h =c "[") || (h =c "\") then Unmodelled
                  else if (C.code h <? C.code e)%nat then Rejected
                  else obind (parse_class_items false s3)
                         (fun '(l, r) => Ok (CRange e h :: l, r))
              | _ => obind (parse_class_items false s2) (fun '(l, r) => Ok (CChar e :: l, r))
              end
        end
      else
        match s1 with
        | "-"%char :: "]"%char :: _ =>
            obind (parse_class_items false s1) (fun '(l, r) => Ok (CChar c :: l, r))
        | "-"%char :: "\"%char :: h :: s3 =>
            if C.isalnum h then Unmodelled
            else if (C.code h <? C.code c)%nat then Rejected
            else obind (parse_class_items false s3)
                   (fun '(l, r) => Ok (CRange c h :: l, r))
        | "-"%char :: h :: s3 =>
            if (h =c "[") || (h =c "\") then Unmodelled
            else if (C.code h <? C.code c)%nat then Rejected
            else obind (parse_class_items false s3)
                   (fun '(l, r) => Ok (CRange c h :: l, r))
        | h :: _ =>
            if (c =c "[") && ((h =c ":") || (h =c ".") || (h =c "=")) then Unmodelled
            else obind (parse_class_items false s1) (fun '(l, r) => Ok (CChar c :: l, r))
        | [] => Rejected
        end.
Proof. reflexivity. Qed.

Lemma parse_class_items_char (first : bool) (c h : ascii) (t : list ascii) :
  C.isalnum c = true ->
  Ascii.eqb h "-" = false ->
  parse_class_items first (c :: h :: t) =
    obind (parse_class_items false (h :: t)) (fun '(l, r) => Ok (CChar c :: l, r)).
Proof.
  intros Hc Hh.
  destruct (ordinary_facts c (alnum_ordinary c Hc)) as (H1 & _ & _ & H4 & H5 & _).
  rewrite parse_class_items_cons. rewrite H5, H1, H4. cbn [andb].
  generalize (parse_class_items false (h :: t)). intros R.
  destruct h as [[] [] [] [] [] [] [] []]; first [discriminate Hh | reflexivity].
Qed.



Lemma parse_class_plain (x : ascii) (l : list ascii) :
  Ascii.eqb x "^" = false ->
  parse_class (x :: l) =
    obind (parse_class_items true (x :: l)) (fun '(l, r) => Ok (RClass false l, r)).
Proof.
  intros Hx. remember (parse_class_items true (x :: l)) as R eqn:ER.
  unfold parse_class. rewrite <- ER.
  destruct x as [[] [] [] [] [] [] [] []]; first [discriminate Hx | reflexivity].
Qed.


(** **** A choice between words *)




(** **** One token, then the rest *)



Lemma word_length_le (w : list ascii) : (length w <= length (flat_map escaped w))%nat.
Proof.
  induction w as [| x w IH]; [cbn; lia |].
  cbn [flat_map length]. rewrite length_app.
  unfold escaped at 1. destruct (C.isalnum x); cbn [length]; lia.
Qed.





(** **** A sequence of tokens, then the rest *)



(** **** A choice between sequences of tokens *)



(** **** One part, then the rest *)







End TokenCompilation.

Section TokenMatching.
Import Pcre Glob.










(** **** A sequence of tokens, a choice, a whole pattern *)






End TokenMatching.

Section TokenPatterns.
Import Pcre Glob.



End TokenPatterns.

(* ===================================================================== *)
(** ** Further properties of [ec_glob]: numeric ranges *)
(* ===================================================================== *)

Section NumericRanges.
Import Pcre Glob.

(** **** Numerals *)










(** **** Numerals that fit an [int] *)










(** **** The expression that recognises a range in the pattern *)






(** **** The turn of the loop at the opening brace of a range *)



(** **** The pattern [w1{a..b}w2]: translation and compilation *)






Lemma parse_range_group (f ncap : nat) (rest : list ascii) :
  parse_atom (8 + f) ncap (cs "([\+\-]?\d+)" ++ rest) =
    Ok (RGroup (Some (S ncap)) numeral_regex, S ncap, rest).
Proof. reflexivity. Qed.


Lemma parse_seq_unfold (fuel ncap : nat) (c : ascii) (s : list ascii) :
  (Ascii.eqb c "|" || Ascii.eqb c ")") = false ->
  parse_seq (S fuel) ncap (c :: s) =
    obind (parse_atom fuel ncap (c :: s)) (fun '(a, n1, rest) =>
    obind (parse_quant a rest) (fun '(q, rest1) =>
    obind (parse_seq fuel n1 rest1) (fun '(r, n2, rest2) =>
    Ok (RSeq q r, n2, rest2)))).
Proof. intros H. cbn [parse_seq]. rewrite H. reflexivity. Qed.




(** **** The match and the check of the range *)











End NumericRanges.

(* ===================================================================== *)
(** ** Further properties of [ec_glob]: room in the buffers *)
(* ===================================================================== *)

Section ShortPatterns.
Import Pcre Glob.

(** **** How one turn ends *)

Lemma safe_cat (st0 st : tstate) (str c' : list ascii) (W : nat) :
  p_pcre st0 = p_pcre st -> l_len st0 = l_len st ->
  (p_pcre st + 3 * W + 1 < BUF_SIZE)%nat ->
  (length str + 3 * weight c' <= 3 * W)%nat ->
  (weight c' < W)%nat ->
  safe_result st W (let* st1 := STRING_CAT st0 str in TOk (c', st1)).
Proof.
  intros Ep El Hp Hs Hw. rewrite STRING_CAT_ok by lia.
  exists c', (emit st0 str). cbn [tbind emit p_pcre l_len]. repeat split; lia.
Qed.

Lemma safe_put (st0 st : tstate) (ch : ascii) (c' : list ascii) (W : nat) :
  p_pcre st0 = p_pcre st -> l_len st0 = l_len st ->
  (p_pcre st + 3 * W + 1 < BUF_SIZE)%nat ->
  (1 + 3 * weight c' <= 3 * W)%nat ->
  (weight c' < W)%nat ->
  safe_result st W (let* st1 := put st0 ch in TOk (c', st1)).
Proof.
  intros Ep El Hp Hs Hw. rewrite put_ok by lia.
  exists c', (emit st0 [ch]). cbn [tbind emit p_pcre l_len length]. repeat split; lia.
Qed.

Lemma safe_put2 (st : tstate) (x y : ascii) (c' : list ascii) (W : nat) :
  (p_pcre st + 3 * W + 1 < BUF_SIZE)%nat ->
  (2 + 3 * weight c' <= 3 * W)%nat ->
  (weight c' < W)%nat ->
  safe_result st W (let* st1 := put st x in let* st2 := put st1 y in TOk (c', st2)).
Proof.
  intros Hp Hs Hw. rewrite put_ok by lia. cbn [tbind].
  rewrite put_ok by (cbn [emit p_pcre length]; lia).
  exists c', (emit (emit st [x]) [y]). cbn [tbind emit p_pcre l_len length].
  repeat split; lia.
Qed.

Lemma safe_raw (st : tstate) (str c' : list ascii) (W : nat) :
  (p_pcre st + 3 * W + 1 < BUF_SIZE)%nat ->
  (length str + 3 * weight c' <= 3 * W)%nat ->
  (weight c' < W)%nat ->
  safe_result st W (let* st1 := strcat_raw st str in TOk (c', st1)).
Proof.
  intros Hp Hs Hw. unfold strcat_raw.
  destruct (Nat.leb_spec BUF_SIZE (p_pcre st + length str)) as [H | _]; [lia |].
  exists c', (emit st str). cbn [tbind emit p_pcre l_len]. repeat split; lia.
Qed.

Lemma safe_exact (st st' : tstate) (c' : list ascii) (W : nat)
    (r : tres (list ascii * tstate)) :
  r = TOk (c', st') ->
  (p_pcre st' + 3 * weight c' <= p_pcre st + 3 * W)%nat ->
  (l_len st' + weight c' <= l_len st + W)%nat ->
  (weight c' < W)%nat ->
  safe_result st W r.
Proof. intros -> H1 H2 H3. exists c', st'. auto. Qed.

(** **** Texts and their weights *)

Lemma weight_firstn_skipn (k : nat) (c : list ascii) :
  weight c = (weight (firstn k c) + weight (skipn k c))%nat.
Proof. rewrite <- (firstn_skipn k c) at 1. apply weight_app. Qed.

Lemma weight_le_double (c : list ascii) : (weight c <= 2 * length c)%nat.
Proof.
  induction c as [| x c IH]; [cbn; lia |].
  cbn [weight length]. destruct (Ascii.eqb x "\"); lia.
Qed.

Lemma strstr_found (a b : list ascii) :
  exists r, C.strstr (a ++ "."%char :: "."%char :: b) (cs "..") = Some r.
Proof.
  induction a as [| x a IH].
  - eexists. cbn [app C.strstr cs list_ascii_of_string C.starts_with].
    rewrite Ascii.eqb_refl. reflexivity.
  - cbn [app C.strstr].
    destruct (C.starts_with (cs "..") (x :: a ++ "."%char :: "."%char :: b));
      [eexists; reflexivity | exact IH].
Qed.

Lemma firstn_prefix (k : nat) (c t : list ascii) :
  firstn k c = t -> c = t ++ skipn k c.
Proof. intros <-. symmetry. apply firstn_skipn. Qed.

(** **** The turn at an opening brace *)

Lemma safe_brace_single (c1 : list ascii) (st : tstate) (n : nat) :
  (p_pcre st + 3 * (2 + weight c1) + 1 < BUF_SIZE)%nat ->
  (l_len st + (2 + weight c1) < BUF_SIZE)%nat ->
  safe_result st (2 + weight c1)
    (match pcre2_match number_regex ("{"%char :: firstn (S n) c1) with
     | None =>
         let* st1 := STRING_CAT st (cs "\{") in
         let* st2 := grow_pattern st1 in
         TOk (firstn n c1 ++ "\"%char :: skipn n c1, st2)
     | Some _ =>
         match C.strstr ("{"%char :: c1) (cs "..") with
         | Some double_dots =>
             let pair := (ec_atoi c1, ec_atoi (skipn 2 double_dots)) in
             let* st1 := STRING_CAT (push_num pair st) (cs "([\+\-]?\d+)") in
             TOk (skipn (S n) c1, st1)
         | None => TOutOfBounds
         end
     end).
Proof.
  intros Hp Hl.
  destruct (pcre2_match number_regex ("{"%char :: firstn (S n) c1)) as [res |] eqn:E.
  - rewrite number_regex_split, search_anchored in E.
    apply number_match_dots in E. destruct E as (a & b & E). injection E as E.
    apply firstn_prefix in E.
    pose proof (weight_skipn (S n) c1) as Hsk.
    remember (skipn (S n) c1) as r eqn:Er.
    assert (Hw : (4 + weight r <= weight c1)%nat).
    { rewrite E. rewrite !weight_app. cbn [weight].
      change (Ascii.eqb "." "\") with false. cbv match. lia. }
    destruct (strstr_found ("{"%char :: a) (b ++ r)) as [dd Hdd].
    assert (E2 : "{"%char :: c1 = ("{"%char :: a) ++ "."%char :: "."%char :: b ++ r).
    { rewrite E. cbn [app]. rewrite <- app_assoc. reflexivity. }
    rewrite E2, Hdd.
    apply safe_cat; try reflexivity; try assumption;
      cbn [cs list_ascii_of_string length]; lia.
  - rewrite STRING_CAT_ok by (cbn [cs list_ascii_of_string length]; lia).
    cbn [tbind]. unfold grow_pattern.
    destruct (Nat.leb_spec BUF_SIZE (S (l_len (emit st (cs "\{"))))) as [H | _];
      [cbn [emit l_len] in H; lia |].
    cbn [tbind]. eapply safe_exact; [reflexivity | | |];
      rewrite weight_insert; cbn [emit p_pcre l_len cs list_ascii_of_string length]; lia.
Qed.

(** **** The turn at an opening bracket *)

Lemma strchr_bound (l : list ascii) (c : ascii) (off : nat) :
  C.strchr l c = Some off -> (off < length l)%nat.
Proof.
  revert off. induction l as [| x l IH]; intros off; cbn [C.strchr]; [discriminate |].
  destruct (Ascii.eqb x c).
  - intros H. injection H as <-. cbn. lia.
  - destruct (C.strchr l c) as [k |]; [| discriminate].
    intros H. injection H as <-. specialize (IH k eq_refl). cbn [length]. lia.
Qed.

Lemma safe_bracket_slash (c1 : list ascii) (st : tstate) :
  (p_pcre st + 3 * (2 + weight c1) + 1 < BUF_SIZE)%nat ->
  safe_result st (2 + weight c1)
    (match C.strchr ("["%char :: c1) "]" with
     | Some off =>
         let* st1 := strcat_raw st (cs "\" ++ firstn off ("["%char :: c1) ++ cs "\]") in
         TOk (skipn (S off) ("["%char :: c1), st1)
     | None =>
         let* st1 := strcat_raw st (cs "\" ++ "["%char :: c1) in
         TOk ([], st1)
     end).
Proof.
  intros Hp. pose proof (weight_ge_length c1) as Hg.
  destruct (C.strchr ("["%char :: c1) "]") as [off |] eqn:E.
  - apply strchr_bound in E. cbn [length] in E.
    destruct off as [| off].
    + change (skipn 1 ("["%char :: c1)) with c1.
      change (firstn 0 ("["%char :: c1)) with (@nil ascii).
      apply safe_raw; [exact Hp | | lia].
      cbn [app cs list_ascii_of_string length]. lia.
    + pose proof (weight_firstn_skipn (S off) c1) as Hs.
      pose proof (weight_ge_length (firstn (S off) c1)) as Hf.
      assert (Hlen : length (firstn (S off) c1) = S off)
        by (apply firstn_length_le; lia).
      change (skipn (S (S off)) ("["%char :: c1)) with (skipn (S off) c1).
      change (firstn (S off) ("["%char :: c1)) with ("["%char :: firstn off c1).
      pose proof (firstn_le_length off c1) as Ho.
      assert (Hfo : (length (firstn off c1) <= S off)%nat).
      { rewrite length_firstn. lia. }
      apply safe_raw; [exact Hp | | lia].
      rewrite !length_app. cbn [cs list_ascii_of_string length]. lia.
  - apply safe_raw; [exact Hp | | cbn; lia].
    cbn [cs list_ascii_of_string app length weight]. lia.
Qed.

(** **** Every turn *)

Lemma starts_with_slash_stars (c1 : list ascii) :
  C.starts_with (cs "**/") c1 = true -> exists c2, c1 = cs "**/" ++ c2.
Proof.
  cbn [cs list_ascii_of_string C.starts_with].
  destruct c1 as [| x1 [| x2 [| x3 c2]]]; cbn [C.starts_with]; try discriminate.
  - destruct (Ascii.eqb "*" x1); discriminate.
  - destruct (Ascii.eqb "*" x1); [| discriminate].
    destruct (Ascii.eqb "*" x2); discriminate.
  - destruct (Ascii.eqb_spec "*"%char x1) as [<- |]; [| discriminate].
    destruct (Ascii.eqb_spec "*"%char x2) as [<- |]; [| discriminate].
    destruct (Ascii.eqb_spec "/"%char x3) as [<- |]; [| discriminate].
    intros _. exists c2. reflexivity.
Qed.

Lemma translate_step_safe (paired : bool) (x : ascii) (c1 : list ascii) (st : tstate) :
  (p_pcre st + 3 * weight (x :: c1) + 1 < BUF_SIZE)%nat ->
  (l_len st + weight (x :: c1) < BUF_SIZE)%nat ->
  safe_result st (weight (x :: c1)) (translate_step paired number_regex x c1 st).
Proof.
  intros Hp Hl. unfold translate_step. cbn [weight] in *.
  destruct (Ascii.eqb x "\") eqn:E1.
  { destruct c1 as [| y c2].
    - apply safe_cat; try reflexivity; try assumption; cbn; lia.
    - apply safe_put2; [exact Hp | |]; cbn [weight]; destruct (Ascii.eqb y "\"); lia. }
  destruct (Ascii.eqb x "?") eqn:E2.
  { apply safe_cat; try reflexivity; try assumption; cbn [cs list_ascii_of_string length]; lia. }
  destruct (Ascii.eqb_spec x "*"%char) as [-> | E3].
  { destruct (C.starts_with (cs "*") c1) eqn:Es.
    - destruct c1 as [| y c2]; [discriminate Es |].
      cbn [cs list_ascii_of_string C.starts_with] in Es.
      destruct (Ascii.eqb_spec "*"%char y) as [<- |]; [| discriminate Es].
      cbn [weight] in *. change (Ascii.eqb "*" "\") with false in *. cbv match in *.
      apply safe_cat; try reflexivity; try assumption;
        cbn [cs list_ascii_of_string length]; lia.
    - pose proof (translate_step_star paired number_regex c1 st Es ltac:(lia)) as E.
      unfold translate_step in E. cbn [Ascii.eqb Bool.eqb] in E. cbv match in E.
      eapply safe_exact; [exact E | | |];
        cbn [emit p_pcre l_len cs list_ascii_of_string length]; lia. }
  destruct (Ascii.eqb_spec x "["%char) as [-> | E4].
  { destruct (is_in_bracket st) eqn:Eb.
    - apply safe_cat; try reflexivity; try assumption; cbn [cs list_ascii_of_string length]; lia.
    - destruct (bracket_has_slash ("["%char :: c1)) eqn:Eh.
      + apply safe_bracket_slash. exact Hp.
      + destruct c1 as [| y c2].
        * apply safe_put; try reflexivity; try assumption; cbn; lia.
        * destruct (Ascii.eqb_spec y "!"%char) as [-> | Ey].
          -- cbn [weight] in *. change (Ascii.eqb "!" "\") with false in *. cbv match in *.
             apply safe_cat; try reflexivity; try assumption;
               cbn [cs list_ascii_of_string length]; lia.
          -- assert (Ey' : Ascii.eqb y "!" = false) by (apply Ascii.eqb_neq; exact Ey).
             pose proof (translate_step_open paired number_regex y c2 st Eb Eh Ey'
                           ltac:(lia)) as E.
             unfold translate_step in E. cbn [Ascii.eqb Bool.eqb] in E. cbv match in E.
             rewrite Eb, Eh in E.
             eapply safe_exact; [exact E | | |];
               cbn [emit set_bracket p_pcre l_len length]; lia. }
  destruct (Ascii.eqb x "]") eqn:E5.
  { apply safe_put; try reflexivity; try assumption; lia. }
  destruct (Ascii.eqb x "-") eqn:E6.
  { destruct (is_in_bracket st).
    - apply safe_put; try reflexivity; try assumption; lia.
    - apply safe_cat; try reflexivity; try assumption; cbn [cs list_ascii_of_string length]; lia. }
  destruct (Ascii.eqb x "{") eqn:E7.
  { destruct (negb paired).
    - apply safe_cat; try reflexivity; try assumption; cbn [cs list_ascii_of_string length]; lia.
    - destruct (scan_single c1) as [n |].
      + apply Ascii.eqb_eq in E7. subst x. apply safe_brace_single; assumption.
      + apply safe_cat; try reflexivity; try assumption;
          cbn [cs list_ascii_of_string length]; lia. }
  destruct (Ascii.eqb x "}") eqn:E8.
  { destruct (negb paired).
    - apply safe_cat; try reflexivity; try assumption; cbn [cs list_ascii_of_string length]; lia.
    - apply safe_put; try reflexivity; try assumption; lia. }
  destruct (Ascii.eqb x ",") eqn:E9.
  { destruct (0 <? brace_level st)%Z.
    - apply safe_put; try reflexivity; try assumption; lia.
    - apply safe_cat; try reflexivity; try assumption; cbn [cs list_ascii_of_string length]; lia. }
  destruct (Ascii.eqb_spec x "/"%char) as [-> | E10].
  { change (C.starts_with (cs "/**/") ("/"%char :: c1)) with (C.starts_with (cs "**/") c1).
    destruct (C.starts_with (cs "**/") c1) eqn:Es.
    - destruct (starts_with_slash_stars c1 Es) as (c2 & ->).
      change (skipn 3 (cs "**/" ++ c2)) with c2.
      change (weight (cs "**/" ++ c2)) with (6 + weight c2)%nat in *.
      apply safe_cat; try reflexivity; try assumption;
        cbn [cs list_ascii_of_string length]; lia.
    - apply safe_cat; try reflexivity; try assumption;
        cbn [cs list_ascii_of_string length]; lia. }
  destruct (C.isalnum x).
  - apply safe_put; try reflexivity; try assumption; lia.
  - apply safe_put2; [exact Hp | |]; lia.
Qed.

Lemma translate_loop_safe (paired : bool) :
  forall fuel c st,
    (weight c < fuel)%nat ->
    (p_pcre st + 3 * weight c + 1 < BUF_SIZE)%nat ->
    (l_len st + weight c < BUF_SIZE)%nat ->
    exists st',
      translate_loop fuel paired number_regex c st = TOk st' /\
      (p_pcre st' < BUF_SIZE)%nat.
Proof.
  induction fuel as [| fuel IH]; intros c st Hf Hp Hl; [lia |].
  destruct c as [| x c1].
  - cbn [translate_loop]. rewrite put_ok by (cbn [weight] in Hp; lia).
    eexists. split; [reflexivity |]. cbn [emit p_pcre length]. cbn [weight] in Hp. lia.
  - cbn [translate_loop].
    destruct (translate_step_safe paired x c1 st Hp Hl) as (c' & st1 & -> & H1 & H2 & H3).
    cbn [tbind fst snd]. apply IH; lia.
Qed.

(** X18: room in the buffers. Every pattern of at most 1365 characters, whatever it contains, is translated without a write past the end of [pcre_str] or [l_pattern] and without the [-1] of STRING_CAT: a turn of the loop writes at most three characters for each unit of weight of what it reads, and makes [l_pattern] longer by one character only where the weight left to read gets smaller by one. *)
Theorem short_pattern_is_translated (pattern : list ascii) :
  (6 * length pattern + 2 < BUF_SIZE)%nat ->
  (exists str nums, translate number_regex pattern = TOk (str, nums)) /\
  compile_pattern pattern <> inl GLOB_UNDEFINED.
Proof.
  intros Hlen.
  assert (Ht : exists str nums, translate number_regex pattern = TOk (str, nums)).
  { unfold translate.
    pose proof (weight_le_double pattern) as Hw.
    destruct (translate_loop_safe (are_braces_paired pattern) (S (weight pattern)) pattern
                (init_state pattern)) as (st' & -> & Hp);
      [lia | cbn [init_state p_pcre]; lia | cbn [init_state l_len]; lia |].
    cbn [tbind].
    destruct (Nat.leb_spec BUF_SIZE (p_pcre st')) as [H | _]; [lia |].
    eauto. }
  split; [exact Ht |].
  destruct Ht as (str & nums & E). unfold compile_pattern.
  rewrite number_pattern_compiles, E.
  destruct (pcre2_compile str); discriminate.
Qed.

Lemma short_pattern_is_translated_witness :
  (exists str nums, translate number_regex (cs "[a/b]*{x,{1..9}}\") = TOk (str, nums)) /\
  compile_pattern (cs "[a/b]*{x,{1..9}}\") <> inl GLOB_UNDEFINED.
Proof.
  apply (short_pattern_is_translated (cs "[a/b]*{x,{1..9}}\")).
  vm_compute. lia.
Defined.

End ShortPatterns.

(* ===================================================================== *)
(** ** Further properties of [ec_glob]: a bracket that is not closed *)
(* ===================================================================== *)

Section UnclosedBracket.
Import Pcre Glob.

Lemma bracket_has_slash_none (c : list ascii) :
  Forall (fun x => Ascii.eqb x "\" = false /\ Ascii.eqb x "/" = false) c ->
  bracket_has_slash c = false.
Proof.
  induction 1 as [| x c (H1 & H2) _ IH]; [reflexivity |].
  cbn [bracket_has_slash]. destruct (Ascii.eqb x "]"); [reflexivity |].
  rewrite H1, H2. destruct c as [| y c']; [reflexivity | exact IH].
Qed.

Lemma alnum_members (w : list ascii) :
  Forall (fun x => C.isalnum x = true) w ->
  Forall (fun x => C.isalnum x = true \/ x = "-"%char) w.
Proof. intros H. eapply List.Forall_impl; [| exact H]. intros x Hx. left. exact Hx. Qed.

Lemma translate_unclosed_bracket (w1 w : list ascii) :
  Forall (fun x => ordinary x = true) w1 ->
  Forall (fun x => C.isalnum x = true) w ->
  (6 * length (w1 ++ "["%char :: w) + 2 < BUF_SIZE)%nat ->
  translate number_regex (w1 ++ "["%char :: w) =
    TOk (cs "^" ++ flat_map escaped w1 ++ "["%char :: w ++ cs "$", []).
Proof.
  intros H1 Hw Hlen. unfold translate.
  assert (Hpaired : are_braces_paired (w1 ++ "["%char :: w) = true).
  { unfold are_braces_paired. rewrite <- (app_nil_r (w1 ++ "["%char :: w)).
    rewrite count_braces_run; [reflexivity | | lia].
    apply Forall_app. split; [apply ordinary_plain; exact H1 |].
    constructor; [repeat split; reflexivity |].
    apply ordinary_plain. eapply List.Forall_impl; [| exact Hw].
    intros x Hx. apply alnum_ordinary. exact Hx. }
  rewrite Hpaired.
  pose proof (weight_ge_length (w1 ++ "["%char :: w)) as Hwt.
  rewrite length_app in Hlen, Hwt. cbn [length] in Hlen, Hwt.
  pose proof (flat_map_escaped_length w1) as L1.
  assert (Hk : exists k, S (weight (w1 ++ "["%char :: w)) =
                         (length w1 + S (length w + k))%nat).
  { exists (S (weight (w1 ++ "["%char :: w)) - length w1 - 1 - length w)%nat. lia. }
  destruct Hk as [k ->].
  rewrite translate_loop_word;
    [| exact H1 | reflexivity | intros _; cbn; lia | cbn [init_state p_pcre]; lia
     | right; reflexivity].
  rewrite translate_loop_S.
  assert (Hs : bracket_has_slash ("["%char :: w) = false).
  { apply bracket_has_slash_none. constructor; [split; reflexivity |].
    eapply List.Forall_impl; [| exact Hw]. intros x Hx.
    destruct (ordinary_facts x (alnum_ordinary x Hx)) as (? & _).
    destruct (alnum_plain x Hx) as (_ & _ & ? & _). auto. }
  assert (E : translate_step true number_regex "[" w
                (emit (init_state (w1 ++ "["%char :: w)) (flat_map escaped w1)) =
              TOk (w, emit (set_bracket true
                              (emit (init_state (w1 ++ "["%char :: w))
                                 (flat_map escaped w1))) ["["%char])).
  { destruct w as [| x l].
    - unfold translate_step. cbn [Ascii.eqb Bool.eqb]. cbv match.
      cbn [emit is_in_bracket init_state]. rewrite Hs.
      rewrite put_ok by (cbn [set_bracket emit init_state p_pcre]; lia). reflexivity.
    - inversion Hw; subst. apply translate_step_open; [reflexivity | exact Hs | |].
      + apply (alnum_plain x H2).
      + cbn [emit init_state p_pcre]. lia. }
  rewrite E. cbn [tbind fst snd].
  rewrite <- (app_nil_r w) at 2.
  rewrite translate_loop_members;
    [| apply alnum_members; exact Hw | reflexivity
     | cbn [emit set_bracket init_state p_pcre length]; lia].
  assert (E0 : forall f st, translate_loop f true number_regex [] st = put st "$")
    by (intros [| f] st; reflexivity).
  rewrite E0. rewrite put_ok by (cbn [emit set_bracket init_state p_pcre length]; lia).
  cbn [tbind]. rewrite !emit_emit.
  cbn [emit set_bracket init_state p_pcre pcre_str nums].
  match goal with
  | |- context [(BUF_SIZE <=? ?n)%nat] => destruct (Nat.leb_spec BUF_SIZE n) as [H | _]
  end.
  { repeat (rewrite ?length_app in H; cbn [length cs list_ascii_of_string] in H). lia. }
  rewrite <- !app_assoc. reflexivity.
Qed.

Lemma parse_class_items_open (w : list ascii) :
  Forall (fun x => C.isalnum x = true) w ->
  forall first, parse_class_items first (w ++ cs "$") = Rejected.
Proof.
  induction 1 as [| x w Hx Hw IH]; intros first.
  - destruct first; reflexivity.
  - cbn [app].
    assert (Hnext : exists h t, w ++ cs "$" = h :: t /\ Ascii.eqb h "-" = false).
    { destruct w as [| y w'].
      - exists "$"%char, []. split; reflexivity.
      - inversion Hw; subst. exists y, (w' ++ cs "$"). split; [reflexivity |].
        apply (alnum_plain y H1). }
    destruct Hnext as (h & t & E & Hh). rewrite E.
    rewrite parse_class_items_char by assumption.
    rewrite <- E, IH. reflexivity.
Qed.

Lemma parse_class_open (w : list ascii) :
  Forall (fun x => C.isalnum x = true) w ->
  parse_class (w ++ cs "$") = Rejected.
Proof.
  intros Hw. destruct w as [| x l].
  - reflexivity.
  - inversion Hw; subst. cbn [app].
    rewrite parse_class_plain by (apply (alnum_plain x H1)).
    change (x :: l ++ cs "$") with ((x :: l) ++ cs "$").
    rewrite parse_class_items_open by exact Hw. reflexivity.
Qed.

Lemma compile_unclosed_bracket (w1 w : list ascii) :
  Forall (fun x => C.isalnum x = true) w ->
  pcre2_compile (cs "^" ++ flat_map escaped w1 ++ "["%char :: w ++ cs "$") = Rejected.
Proof.
  intros Hw. unfold pcre2_compile.
  set (s := cs "^" ++ flat_map escaped w1 ++ "["%char :: w ++ cs "$").
  pose proof (word_length_le w1) as L1.
  assert (Hlen : (length w1 + 3 <= length s)%nat).
  { unfold s. rewrite !length_app. cbn [cs list_ascii_of_string length].
    rewrite length_app. cbn [length]. lia. }
  assert (Hk : exists k, (3 * length s + 3)%nat = S (S (S (length w1 + S (S k))))).
  { exists (3 * length s - length w1 - 2)%nat. lia. }
  destruct Hk as [k ->].
  unfold s.
  change (cs "^" ++ flat_map escaped w1 ++ "["%char :: w ++ cs "$")
    with ("^"%char :: (flat_map escaped w1 ++ "["%char :: w ++ cs "$")).
  rewrite parse_alt_unfold.
  rewrite parse_seq_bol.
  2:{ destruct w1 as [| x l]; [reflexivity |]. cbn [flat_map]. rewrite <- app_assoc.
      apply no_quant_head_after_escape. }
  replace (S (length w1 + S (S k))) with (length w1 + S (S (S k)))%nat by lia.
  rewrite parse_seq_word by reflexivity.
  assert (E : parse_seq (S (S (S k))) 0 ("["%char :: w ++ cs "$") = Rejected).
  { cbn [parse_seq]. change (Ascii.eqb "[" "|") with false.
    change (Ascii.eqb "[" ")") with false. cbn [orb]. cbv match.
    cbn [parse_atom]. change (Ascii.eqb "[" "(") with false.
    change (Ascii.eqb "[" "[") with true. cbv match.
    rewrite parse_class_open by exact Hw. reflexivity. }
  rewrite E. reflexivity.
Qed.

(** X19: a bracket that is never closed. For a pattern of ordinary characters followed by an opening bracket and letters or digits, with no closing bracket, [ec_glob] returns -1 for every candidate: the expression it builds has an unterminated bracket expression and is refused by the engine. *)
Theorem unclosed_bracket_is_an_error (w1 w s : list ascii) :
  Forall (fun x => ordinary x = true) w1 ->
  Forall (fun x => C.isalnum x = true) w ->
  (6 * length (w1 ++ "["%char :: w) + 2 < BUF_SIZE)%nat ->
  glob_match (w1 ++ "["%char :: w) s = GLOB_ERROR (-1).
Proof.
  intros H1 Hw Hlen.
  rewrite glob_match_fresh by lia.
  unfold compile_pattern. rewrite number_pattern_compiles.
  rewrite translate_unclosed_bracket by assumption.
  rewrite compile_unclosed_bracket by exact Hw. reflexivity.
Qed.

Lemma unclosed_bracket_is_an_error_witness :
  glob_match (cs "src/" ++ "["%char :: cs "ab") (cs "src/a") = GLOB_ERROR (-1).
Proof.
  apply (unclosed_bracket_is_an_error (cs "src/") (cs "ab") (cs "src/a")).
  - repeat constructor.
  - repeat constructor.
  - vm_compute. lia.
Defined.

End UnclosedBracket.
